(** * field_interpolation: the constraint assembler and the error map

    A shallow embedding of [src/field_interpolation.cpp] and of the
    [Triplet] type of [src/sparse_linear.hpp].

    Conventions of the embedding.
    - C++ [int] is [Z].  Signed overflow is undefined in the source, so no
      wrap-around is written; every theorem is about runs without overflow.
    - C++ [float] is [Q]: the development is about exact arithmetic, and
      equality of floats is [Qeq] (written [==]).  [std::floor] is [Qfloor].
    - [std::vector] and C arrays are lists.  The lattice arrays and the
      caller's position and gradient arrays are read with [nth] (they hold one
      entry per dimension); the vectors indexed by a triplet's row or column
      in [generate_error_map] are read and written through [vec_get] and
      [vec_set], which fail outside the vector, where the source has no
      defined behaviour.
    - [CHECK_F] aborts the program: a function that can reach it returns an
      [option], [None] standing for the abort. *)

From Stdlib Require Import ZArith QArith Qround Lia Lqa List Bool.
From stdpp Require Import base option list list_numbers.

Local Open Scope Z_scope.

(** ** Data model *)

(** [struct Triplet] of sparse_linear.hpp. *)
Record Triplet : Type := mkTriplet { row : Z; col : Z; value : Q }.

(** Modelled from the spec: the header field_interpolation.hpp is not among
    the sources; [LinearEquation] holds the triplets and the right-hand
    side, as the code uses it ([eq.triplets], [eq.rhs]). *)
Record LinearEquation : Type := mkLinearEquation
  { triplets : list Triplet; rhs : list Q }.

(** Modelled from the spec: [LinearEquationPair] of the missing header, the
    [{column, value}] pairs handed to [add_equation]. *)
Record LinearEquationPair : Type := mkPair { column : Z; coefficient : Q }.

(** Modelled from the spec: [LatticeField] of the missing header, the linear
    system together with the sizes and strides of the lattice. *)
Record LatticeField : Type := mkLatticeField
  { eqn : LinearEquation; sizes : list Z; strides : list Z }.

(** Modelled from the spec: the gradient kernels of the missing header. *)
Inductive GradientKernel : Type :=
  | kNearestNeighbor
  | kCellEdges
  | kLinearInteprolation.

(** Modelled from the spec: [Weights] of the missing header. *)
Record Weights : Type := mkWeights
  { data_pos : Q;
    data_gradient : Q;
    model_0 : Q;
    model_1 : Q;
    model_2 : Q;
    model_3 : Q;
    model_4 : Q;
    gradient_smoothness : Q;
    gradient_kernel : GradientKernel }.

(** Modelled from the spec: [MAX_DIM] of the missing header
    ("Constants at the boundary: MAX_DIM = 4"). *)
Definition MAX_DIM : nat := 4.

(** Modelled from the spec: the constructor [LatticeField{sizes}] of the
    missing header: "strides[0] = 1, strides[d] = strides[d-1] * sizes[d-1]",
    and an empty linear system. *)
Fixpoint strides_from (stride : Z) (sizes : list Z) : list Z :=
  match sizes with
  | [] => []
  | size :: rest => stride :: strides_from (stride * size) rest
  end.

Definition new_LatticeField (sizes : list Z) : LatticeField :=
  {| eqn := mkLinearEquation [] []; sizes := sizes;
     strides := strides_from 1 sizes |}.

Definition set_eqn (field : LatticeField) (e : LinearEquation) : LatticeField :=
  {| eqn := e; sizes := sizes field; strides := strides field |}.

(** [field->eq.triplets.emplace_back(...)] and [field->eq.rhs.emplace_back(...)]. *)
Definition push_triplet (e : LinearEquation) (t : Triplet) : LinearEquation :=
  {| triplets := triplets e ++ [t]; rhs := rhs e |}.

Definition push_rhs (e : LinearEquation) (r : Q) : LinearEquation :=
  {| triplets := triplets e; rhs := rhs e ++ [r] |}.

(** [eq->rhs.size()] converted to [int]. *)
Definition rhs_size (e : LinearEquation) : Z := Z.of_nat (length (rhs e)).

(** Comparisons of floats. *)
Definition Qnonzero (x : Q) : bool := negb (Qeq_bool x 0).
Definition Qpositive (x : Q) : bool := negb (Qle_bool x 0).

(** ** add_equation *)

Definition add_equation_pair (row : Z) (weight : Q)
    (acc : LinearEquation * bool) (pair : LinearEquationPair)
    : LinearEquation * bool :=
  if Qnonzero (coefficient pair)
  then (push_triplet (fst acc)
          (mkTriplet row (column pair) (coefficient pair * weight)), false)
  else acc.

Definition add_equation (e : LinearEquation) (weight rhs_value : Q)
    (pairs : list LinearEquationPair) : LinearEquation :=
  if Qeq_bool weight 0 then e
  else
    let row := rhs_size e in
    let '(e', all_zero) := fold_left (add_equation_pair row weight) pairs (e, true) in
    if negb all_zero then push_rhs e' (rhs_value * weight) else e'.

(** ** multilerp *)

(** [floored[d]] and [t[d]] of [multilerp]. *)
Definition floored (in_pos : list Q) (d : nat) : Z := Qfloor (nth d in_pos 0%Q).

Definition lerp_t (in_pos : list Q) (d : nat) : Q :=
  (nth d in_pos 0 - inject_Z (floored in_pos d))%Q.

(** [(i >> d) & 1]. *)
Definition corner_bit (i : Z) (d : nat) : Z := Z.land (Z.shiftr i (Z.of_nat d)) 1.

(** One turn of the inner loop over the dimensions: the state is
    [(index, weight, inside)]. *)
Definition multilerp_dim (field : LatticeField) (in_pos : list Q)
    (extra_bound : Z) (i : Z) (acc : Z * Q * bool) (d : nat) : Z * Q * bool :=
  let '(index, weight, inside) := acc in
  let set := corner_bit i d in
  let dim_coord := floored in_pos d + set in
  (index + nth d (strides field) 0 * dim_coord,
   (weight * (if set =? 0 then 1 - lerp_t in_pos d else lerp_t in_pos d))%Q,
   inside && ((0 <=? dim_coord) && (dim_coord + extra_bound <? nth d (sizes field) 0))).

(** One turn of the outer loop over the corners: the samples written so far
    are the list [out], in the order of [out_indices] and [out_kernel]. *)
Definition multilerp_corner (field : LatticeField) (in_pos : list Q)
    (extra_bound : Z) (num_dim : nat) (out : list (Z * Q)) (i : Z)
    : list (Z * Q) :=
  let '(index, weight, inside) :=
    fold_left (multilerp_dim field in_pos extra_bound i) (seq 0 num_dim)
      (0, 1%Q, true) in
  if inside then out ++ [(index, weight)] else out.

(** The samples [(out_indices[k], out_kernel[k])] for [k < num_samples];
    the returned [num_samples] is the length of the list. *)
Definition multilerp (field : LatticeField) (in_pos : list Q) (extra_bound : Z)
    : option (list (Z * Q)) :=
  let num_dim := length (sizes field) in
  if (1 <=? num_dim)%nat && (num_dim <=? MAX_DIM)%nat then
    Some (fold_left (multilerp_corner field in_pos extra_bound num_dim)
            (seqZ 0 (Z.shiftl 1 (Z.of_nat num_dim))) [])
  else None.

(** ** add_value_constraint *)

(** The loop over the samples: the state is the system and [weight_sum]. *)
Definition value_sample (row : Z) (constraint_weight : Q)
    (acc : LinearEquation * Q) (s : Z * Q) : LinearEquation * Q :=
  let sample_weight := (snd s * constraint_weight)%Q in
  (push_triplet (fst acc) (mkTriplet row (fst s) sample_weight),
   (snd acc + sample_weight)%Q).

Definition add_value_constraint (field : LatticeField) (pos : list Q)
    (value constraint_weight : Q) : option (bool * LatticeField) :=
  if Qeq_bool constraint_weight 0 then Some (false, field)
  else
    samples ← multilerp field pos 0;
    if (length samples =? 0)%nat then Some (false, field)
    else
      let row := rhs_size (eqn field) in
      let '(e, weight_sum) :=
        fold_left (value_sample row constraint_weight) samples (eqn field, 0%Q) in
      Some (true, set_eqn field (push_rhs e (weight_sum * value)%Q)).

(** ** cell_index *)

Fixpoint cell_index_loop (field : LatticeField) (pos : list Q)
    (ds : list nat) (index : Z) : Z :=
  match ds with
  | [] => index
  | d :: rest =>
      let pos_d := Qfloor (nth d pos 0%Q) in
      let in_lattice := (0 <=? pos_d) && (pos_d + 1 <? nth d (sizes field) 0) in
      if negb in_lattice then -1
      else cell_index_loop field pos rest (index + pos_d * nth d (strides field) 0)
  end.

Definition cell_index (field : LatticeField) (pos : list Q) : Z :=
  cell_index_loop field pos (seq 0 (length (sizes field))) 0.

(** ** add_gradient_constraint *)

(** The nearest-neighbour kernel: one equation per dimension. *)
Definition gradient_nearest (field : LatticeField) (gradient : list Q)
    (constraint_weight : Q) (index : Z) (e : LinearEquation) (d : nat)
    : LinearEquation :=
  add_equation e constraint_weight (nth d gradient 0%Q)
    [ mkPair (index + 0) (-1); mkPair (index + nth d (strides field) 0) 1 ].

(** [(corner >> oa) % 2]. *)
Definition is_along (corner : Z) (oa : nat) : Z :=
  Z.rem (Z.shiftr corner (Z.of_nat oa)) 2.

Definition corner_index (field : LatticeField) (num_dim : nat) (index corner : Z) : Z :=
  fold_left (fun corner_index oa =>
               corner_index + nth oa (strides field) 0 * is_along corner oa)
    (seq 0 num_dim) index.

(** The cell-edges kernel: the triplet of one corner, then the row of one
    dimension. *)
Definition cell_edges_corner (field : LatticeField) (num_dim : nat)
    (index row : Z) (term_weight : Q) (d : nat)
    (e : LinearEquation) (corner : Z) : LinearEquation :=
  let is_along_d := negb (is_along corner d =? 0) in
  let sign := (if is_along_d then 1 else -1)%Q in
  push_triplet e
    (mkTriplet row (corner_index field num_dim index corner) (sign * term_weight)).

Definition gradient_cell_edges (field : LatticeField) (gradient : list Q)
    (constraint_weight : Q) (num_dim : nat) (index : Z)
    (e : LinearEquation) (d : nat) : LinearEquation :=
  let row := rhs_size e in
  let num_corners := Z.shiftl 1 (Z.of_nat num_dim) in
  let term_weight := (constraint_weight * 2 / inject_Z num_corners)%Q in
  let e' :=
    fold_left (cell_edges_corner field num_dim index row term_weight d)
      (seqZ 0 num_corners) e in
  push_rhs e' (constraint_weight * nth d gradient 0)%Q.

(** The linear-interpolation kernel: the two triplets of one sample, then
    the row of one dimension. *)
Definition gradient_lerp_sample (field : LatticeField) (row : Z)
    (constraint_weight : Q) (d : nat)
    (acc : LinearEquation * Q) (s : Z * Q) : LinearEquation * Q :=
  let sample_weight := (snd s * constraint_weight)%Q in
  let e1 := push_triplet (fst acc) (mkTriplet row (fst s + 0) (- sample_weight)) in
  let e2 := push_triplet e1
              (mkTriplet row (fst s + nth d (strides field) 0) sample_weight) in
  (e2, (snd acc + sample_weight)%Q).

Definition gradient_lerp (field : LatticeField) (gradient : list Q)
    (constraint_weight : Q) (samples : list (Z * Q))
    (e : LinearEquation) (d : nat) : LinearEquation :=
  let row := rhs_size e in
  let '(e', weight_sum) :=
    fold_left (gradient_lerp_sample field row constraint_weight d) samples (e, 0%Q) in
  push_rhs e' (weight_sum * nth d gradient 0)%Q.

Definition add_gradient_constraint (field : LatticeField) (pos gradient : list Q)
    (constraint_weight : Q) (kernel : GradientKernel)
    : option (bool * LatticeField) :=
  if Qeq_bool constraint_weight 0 then Some (false, field)
  else
    let num_dim := length (sizes field) in
    match kernel with
    | kNearestNeighbor =>
        let index := cell_index field pos in
        if index <? 0 then Some (false, field)
        else
          Some (true,
                set_eqn field
                  (fold_left (gradient_nearest field gradient constraint_weight index)
                     (seq 0 num_dim) (eqn field)))
    | kCellEdges =>
        let index := cell_index field pos in
        if index <? 0 then Some (false, field)
        else
          Some (true,
                set_eqn field
                  (fold_left
                     (gradient_cell_edges field gradient constraint_weight num_dim index)
                     (seq 0 num_dim) (eqn field)))
    | kLinearInteprolation =>
        let adjusted_pos := map (fun d => (nth d pos 0 - (1 # 2))%Q) (seq 0 num_dim) in
        samples ← multilerp field adjusted_pos 1;
        if (length samples =? 0)%nat then Some (false, field)
        else
          Some (true,
                set_eqn field
                  (fold_left (gradient_lerp field gradient constraint_weight samples)
                     (seq 0 num_dim) (eqn field)))
    end.

(** ** add_model_constraint *)

Definition model_orthogonal (field : LatticeField) (weights : Weights)
    (coordinate : list Z) (index : Z) (d : nat)
    (e : LinearEquation) (orthogonal_dim : nat) : LinearEquation :=
  if (d =? orthogonal_dim)%nat then e
  else if nth orthogonal_dim coordinate 0 + 1 >=? nth orthogonal_dim (sizes field) 0
  then e
  else
    let so := nth orthogonal_dim (strides field) 0 in
    let sd := nth d (strides field) 0 in
    add_equation e (gradient_smoothness weights) 0
      [ mkPair (index + 0 * so + 0 * sd) (-1);
        mkPair (index + 0 * so + 1 * sd) 1;
        mkPair (index + 1 * so + 0 * sd) 1;
        mkPair (index + 1 * so + 1 * sd) (-1) ].

Definition add_model_constraint (field : LatticeField) (weights : Weights)
    (coordinate : list Z) (index : Z) (d : nat) : LatticeField :=
  let size := nth d (sizes field) 0 in
  let stride := nth d (strides field) 0 in
  let dim_cord := nth d coordinate 0 in
  let e0 := eqn field in
  let e1 :=
    if Qpositive (model_0 weights) && (0 <=? dim_cord) && (dim_cord <? size)
    then add_equation e0 (model_0 weights) 0 [ mkPair index 1 ]
    else e0 in
  let e2 :=
    if Qpositive (model_1 weights) && (0 <=? dim_cord) && (dim_cord + 1 <? size)
    then add_equation e1 (model_1 weights) 0
           [ mkPair (index + 0 * stride) (-1);
             mkPair (index + 1 * stride) 1 ]
    else e1 in
  let e3 :=
    if Qpositive (model_2 weights) && (0 <=? dim_cord) && (dim_cord + 2 <? size)
    then add_equation e2 (model_2 weights) 0
           [ mkPair (index + 0 * stride) 1;
             mkPair (index + 1 * stride) (-2);
             mkPair (index + 2 * stride) 1 ]
    else e2 in
  let e4 :=
    if Qpositive (model_3 weights) && (0 <=? dim_cord) && (dim_cord + 3 <? size)
    then add_equation e3 (model_3 weights) 0
           [ mkPair (index + 0 * stride) 1;
             mkPair (index + 1 * stride) (-3);
             mkPair (index + 2 * stride) 3;
             mkPair (index + 3 * stride) (-1) ]
    else e3 in
  let e5 :=
    if Qpositive (model_4 weights) && (0 <=? dim_cord) && (dim_cord + 4 <? size)
    then add_equation e4 (model_4 weights) 0
           [ mkPair (index + 0 * stride) 1;
             mkPair (index + 1 * stride) (-4);
             mkPair (index + 2 * stride) 6;
             mkPair (index + 3 * stride) (-4);
             mkPair (index + 4 * stride) 1 ]
    else e4 in
  let e6 :=
    if Qpositive (gradient_smoothness weights) && (0 <=? dim_cord)
       && (dim_cord + 1 <? size)
    then fold_left (model_orthogonal field weights coordinate index d)
           (seq 0 (length (sizes field))) e5
    else e5 in
  set_eqn field e6.

(** ** coordinate_from_index and add_field_constraints *)

(** The loop runs over the dimensions in order, reading [field.sizes[d]]
    and dividing [index] as it goes: a recursion over the list of sizes.
    C++ [%] and [/] truncate: [Z.rem] and [Z.quot]. *)
Fixpoint coordinate_from_index_loop (sizes : list Z) (index : Z) : list Z :=
  match sizes with
  | [] => []
  | size :: rest =>
      Z.rem index size :: coordinate_from_index_loop rest (Z.quot index size)
  end.

Definition coordinate_from_index (field : LatticeField) (index : Z) : list Z :=
  coordinate_from_index_loop (sizes field) index.

Definition num_unknowns_of (sizes : list Z) : Z :=
  fold_left (fun num_unknowns dimension_size => num_unknowns * dimension_size)
    sizes 1.

Definition add_field_constraints_cell (weights : Weights)
    (field : LatticeField) (index : Z) : LatticeField :=
  let coordinate := coordinate_from_index field index in
  fold_left (fun f d => add_model_constraint f weights coordinate index d)
    (seq 0 (length (sizes field))) field.

Definition add_field_constraints (field : LatticeField) (weights : Weights)
    : LatticeField :=
  fold_left (add_field_constraints_cell weights)
    (seqZ 0 (num_unknowns_of (sizes field))) field.

(** ** sdf_from_points *)

(** A fold in the option monad: a loop whose body can abort. *)
Fixpoint foldlM {A B : Type} (f : B → A → option B) (l : list A) (b : B)
    : option B :=
  match l with
  | [] => Some b
  | a :: rest => b' ← f b a; foldlM f rest b'
  end.

(** One turn of the loop over the points; [positions + i * num_dim] is the
    list from that offset on; the results of the two calls are dropped. *)
Definition sdf_point (weights : Weights) (num_dim : nat) (positions : list Q)
    (normals point_weights : option (list Q))
    (field : LatticeField) (i : nat) : option LatticeField :=
  let weight : Q :=
    match point_weights with
    | Some pw => nth i pw 0%Q
    | None => 1%Q
    end in
  let pos := drop (i * num_dim) positions in
  r ← add_value_constraint field pos 0 (weight * data_pos weights)%Q;
  match normals with
  | Some ns =>
      r' ← add_gradient_constraint (snd r) pos (drop (i * num_dim) ns)
             (weight * data_gradient weights)%Q (gradient_kernel weights);
      Some (snd r')
  | None => Some (snd r)
  end.

Definition sdf_from_points (sizes : list Z) (weights : Weights)
    (num_points : nat) (positions : list Q)
    (normals point_weights : option (list Q)) : option LatticeField :=
  let num_dim := length sizes in
  let field := add_field_constraints (new_LatticeField sizes) weights in
  foldlM (sdf_point weights num_dim positions normals point_weights)
    (seq 0 num_points) field.

(** ** generate_error_map *)

(** [v[i]] and [v[i] = x] for an [int] index: defined inside the vector
    only. *)
Definition vec_get (v : list Q) (i : Z) : option Q :=
  if 0 <=? i then v !! Z.to_nat i else None.

Definition vec_set (v : list Q) (i : Z) (x : Q) : option (list Q) :=
  if (0 <=? i) && (i <? Z.of_nat (length v)) then Some (<[Z.to_nat i := x]> v)
  else None.

(** First loop: the state is [(row_errors, sum_of_value_sq)]. *)
Definition error_map_accumulate (solution : list Q)
    (acc : list Q * list Q) (triplet : Triplet) : option (list Q * list Q) :=
  let '(row_errors, sum_of_value_sq) := acc in
  err ← vec_get row_errors (row triplet);
  x ← vec_get solution (col triplet);
  row_errors' ← vec_set row_errors (row triplet) (err - x * value triplet)%Q;
  sq ← vec_get sum_of_value_sq (row triplet);
  sum_of_value_sq' ←
    vec_set sum_of_value_sq (row triplet) (sq + value triplet * value triplet)%Q;
  Some (row_errors', sum_of_value_sq').

(** Last loop: the state is [heatmap]. *)
Definition error_map_blame (row_errors sum_of_value_sq : list Q)
    (heatmap : list Q) (triplet : Triplet) : option (list Q) :=
  sq ← vec_get sum_of_value_sq (row triplet);
  if Qnonzero sq then
    let blame_fraction := (value triplet * value triplet / sq)%Q in
    err ← vec_get row_errors (row triplet);
    h ← vec_get heatmap (col triplet);
    vec_set heatmap (col triplet) (h + blame_fraction * err)%Q
  else Some heatmap.

Definition generate_error_map (triplets : list Triplet) (solution rhs : list Q)
    : option (list Q) :=
  acc ← foldlM (error_map_accumulate solution) triplets
          (rhs, replicate (length rhs) 0%Q);
  let row_errors := map (fun error => (error * error)%Q) (fst acc) in
  foldlM (error_map_blame row_errors (snd acc)) triplets
    (replicate (length solution) 0%Q).

(** ** operator<< *)

(** What is put on the stream: the floats and the ints as their values,
    the four string literals [" = "], [" * x"], ["  +  "] and the newline as
    themselves.  The stream is the list of what was put on it. *)
Inductive token : Type :=
  | tok_float (x : Q)
  | tok_int (n : Z)
  | tok_equals
  | tok_times_x
  | tok_plus
  | tok_newline.

(** [row_triplets[triplet.row].push_back(triplet)], defined inside the
    vector only. *)
Definition group_triplet (row_triplets : list (list Triplet))
    (triplet : Triplet) : option (list (list Triplet)) :=
  if 0 <=? row triplet then
    ts ← row_triplets !! Z.to_nat (row triplet);
    Some (<[Z.to_nat (row triplet) := ts ++ [triplet]]> row_triplets)
  else None.

(** One turn of the loop over [triplet_idx]. *)
Definition print_triplet (ts : list Triplet) (os : list token)
    (triplet_idx : nat) : list token :=
  match ts !! triplet_idx with
  | Some triplet =>
      let os' :=
        os ++ [tok_float (value triplet); tok_times_x; tok_int (col triplet)] in
      if (triplet_idx + 1 <? length ts)%nat then os' ++ [tok_plus] else os'
  | None => os
  end.

(** One turn of the loop over [row]. *)
Definition print_row (e : LinearEquation) (row_triplets : list (list Triplet))
    (os : list token) (row : nat) : list token :=
  let ts := nth row row_triplets [] in
  let os1 := os ++ [tok_float (nth row (rhs e) 0%Q); tok_equals] in
  let os2 := fold_left (print_triplet ts) (seq 0 (length ts)) os1 in
  os2 ++ [tok_newline].

Definition print_equation (os : list token) (e : LinearEquation)
    : option (list token) :=
  let num_rows := length (rhs e) in
  row_triplets ← foldlM group_triplet (triplets e) (replicate num_rows []);
  Some (fold_left (print_row e row_triplets) (seq 0 num_rows) os).

(** ** Vocabulary of the statements *)

(** Equality of triplets and of systems in exact arithmetic: the indices
    are equal and the values are equal as rationals. *)
Definition Triplet_equiv (t1 t2 : Triplet) : Prop :=
  row t1 = row t2 ∧ col t1 = col t2 ∧ (value t1 == value t2)%Q.

(** The weights of scenario S1: all zero except [data_pos = 1]. *)
Definition S1_weights (kernel : GradientKernel) : Weights :=
  mkWeights 1 0 0 0 0 0 0 0 kernel.

(** [append_row e ts x] is the system [e] with one more row: the triplets
    [ts] after those of [e], and [x] after its right-hand side. *)
Definition append_row (e : LinearEquation) (ts : list Triplet) (x : Q)
    : LinearEquation :=
  {| triplets := triplets e ++ ts; rhs := rhs e ++ [x] |}.

(** Sums of rationals: of a list, of the coefficients of a list of
    triplets, and of the coefficients of the triplets of row [r] of a
    system. *)
Fixpoint Qsum (l : list Q) : Q :=
  match l with
  | [] => 0
  | x :: rest => x + Qsum rest
  end.

Definition sum_values (ts : list Triplet) : Q := Qsum (map value ts).

(** The sum of the kernel weights of a list of samples. *)
Definition sum_weights (samples : list (Z * Q)) : Q := Qsum (map snd samples).

(** The state [(index, weight, inside)] of [multilerp] for corner [i] after
    the first [n] dimensions. *)
Definition corner_state (field : LatticeField) (in_pos : list Q)
    (extra_bound : Z) (n : nat) (i : Z) : Z * Q * bool :=
  fold_left (multilerp_dim field in_pos extra_bound i) (seq 0 n) (0, 1%Q, true).

Definition corner_weight (field : LatticeField) (in_pos : list Q)
    (extra_bound : Z) (n : nat) (i : Z) : Q :=
  snd (fst (corner_state field in_pos extra_bound n i)).

Definition corner_inside (field : LatticeField) (in_pos : list Q)
    (extra_bound : Z) (n : nat) (i : Z) : bool :=
  snd (corner_state field in_pos extra_bound n i).

Definition triplets_of_row (ts : list Triplet) (r : Z) : list Triplet :=
  filter (λ t, row t = r) ts.

Definition row_triplets (e : LinearEquation) (r : Z) : list Triplet :=
  triplets_of_row (triplets e) r.

Definition coefficient_sum (e : LinearEquation) (r : Z) : Q :=
  sum_values (row_triplets e r).

(** The rows of a well-formed system: every triplet lies in a row below
    [len(rhs)], and every such row holds a triplet. *)
Definition rows_in_range (e : LinearEquation) : Prop :=
  Forall (λ t, 0 ≤ row t < rhs_size e) (triplets e).

Definition rows_all_used (e : LinearEquation) : Prop :=
  ∀ r, 0 ≤ r < rhs_size e → ∃ t, t ∈ triplets e ∧ row t = r.

Definition row_dense (e : LinearEquation) : Prop :=
  rows_in_range e ∧ rows_all_used e.

(** [grows e e'] : [e'] is [e] followed by whole rows, each one non-empty
    and numbered by the length of [rhs] when it was opened. *)
Inductive grows : LinearEquation → LinearEquation → Prop :=
  | grows_refl e : grows e e
  | grows_row e e' ts x :
      grows e e' → ts ≠ [] → Forall (λ t, row t = rhs_size e') ts →
      grows e (append_row e' ts x).

(** The triplets [add_equation] writes for a list of pairs. *)
Definition equation_triplets (row : Z) (weight : Q)
    (pairs : list LinearEquationPair) : list Triplet :=
  map (λ pair, mkTriplet row (column pair) (coefficient pair * weight))
    (filter (λ pair, Qnonzero (coefficient pair) = true) pairs).

(** The triplets [add_value_constraint] writes for a list of samples. *)
Definition value_triplets (row : Z) (constraint_weight : Q)
    (samples : list (Z * Q)) : list Triplet :=
  map (λ s, mkTriplet row (fst s) (snd s * constraint_weight)) samples.

(** The assembly operations, and a run of a sequence of them on a field;
    a run ends early, with no result, when an operation aborts. *)
Inductive assembly_op : Type :=
  | op_equation (weight rhs_value : Q) (pairs : list LinearEquationPair)
  | op_value (pos : list Q) (value constraint_weight : Q)
  | op_gradient (pos gradient : list Q) (constraint_weight : Q)
      (kernel : GradientKernel)
  | op_model (weights : Weights) (coordinate : list Z) (index : Z) (d : nat)
  | op_field (weights : Weights).

Definition run_op (field : LatticeField) (op : assembly_op)
    : option LatticeField :=
  match op with
  | op_equation weight rhs_value pairs =>
      Some (set_eqn field (add_equation (eqn field) weight rhs_value pairs))
  | op_value pos value constraint_weight =>
      snd <$> add_value_constraint field pos value constraint_weight
  | op_gradient pos gradient constraint_weight kernel =>
      snd <$> add_gradient_constraint field pos gradient constraint_weight kernel
  | op_model weights coordinate index d =>
      Some (add_model_constraint field weights coordinate index d)
  | op_field weights => Some (add_field_constraints field weights)
  end.

Definition run_ops (ops : list assembly_op) (field : LatticeField)
    : option LatticeField :=
  foldlM run_op ops field.

(** [field_grows f f'] : the lattice is the same and the system has grown
    by whole rows. *)
Definition field_grows (f f' : LatticeField) : Prop :=
  grows (eqn f) (eqn f') ∧ sizes f' = sizes f ∧ strides f' = strides f.

(** The triplets the cell-edges kernel writes for the corners [cs], and
    those the linear-interpolation kernel writes for a list of samples. *)
Definition cell_edges_triplets (field : LatticeField) (num_dim : nat)
    (index row : Z) (term_weight : Q) (d : nat) (cs : list Z) : list Triplet :=
  map (λ corner,
         mkTriplet row (corner_index field num_dim index corner)
           ((if negb (is_along corner d =? 0) then 1 else -1) * term_weight))
    cs.

Definition lerp_triplets (field : LatticeField) (row : Z)
    (constraint_weight : Q) (d : nat) (samples : list (Z * Q)) : list Triplet :=
  flat_map (λ s,
              [ mkTriplet row (fst s + 0) (- (snd s * constraint_weight));
                mkTriplet row (fst s + nth d (strides field) 0)
                  (snd s * constraint_weight) ])
    samples.

(** The cell-edges rows as the spec words them.  Bit [a] of corner [c] is
    [bit_of c a]; the corner's cell is [index + Σ_a strides[a] * bit_a(c)];
    its coefficient is [w * 2 / 2^N], with sign [+] when bit [d] of the
    corner is 1 and [-] otherwise. *)
Fixpoint Zsum (l : list Z) : Z :=
  match l with
  | [] => 0
  | x :: rest => x + Zsum rest
  end.

Definition bit_of (c : Z) (a : nat) : Z := Z.b2z (Z.testbit c (Z.of_nat a)).

Definition cell_corner (field : LatticeField) (index c : Z) : Z :=
  index
  + Zsum (map (λ a, nth a (strides field) 0 * bit_of c a)
            (seq 0 (length (sizes field)))).

Definition cell_edges_coefficient (field : LatticeField) (w : Q) : Q :=
  (w * 2 / inject_Z (2 ^ Z.of_nat (length (sizes field))))%Q.

Definition cell_edges_row (field : LatticeField) (w : Q) (index row : Z)
    (d : nat) : list Triplet :=
  map (λ c,
         mkTriplet row (cell_corner field index c)
           (if Z.testbit c (Z.of_nat d)
            then cell_edges_coefficient field w
            else - cell_edges_coefficient field w))
    (seqZ 0 (2 ^ Z.of_nat (length (sizes field)))).

(** The vocabulary of the error map, as the spec words it.  [vec_at v i] is
    the entry [v[i]] of a vector; the residual of row [r] is
    [rhs[r] − Σ v·x[c]] over the triplets [(r, c, v)], and its energy is
    [Σ v²] over the same triplets. *)
Definition vec_at (v : list Q) (i : Z) : Q := default 0%Q (vec_get v i).

Definition triplets_in_range (ts : list Triplet) (num_rows num_cols : nat)
    : Prop :=
  Forall (λ t, 0 ≤ row t < Z.of_nat num_rows ∧ 0 ≤ col t < Z.of_nat num_cols) ts.

Definition row_dot (ts : list Triplet) (solution : list Q) (r : Z) : Q :=
  Qsum (map (λ t, value t * vec_at solution (col t))%Q (triplets_of_row ts r)).

Definition row_energy (ts : list Triplet) (r : Z) : Q :=
  Qsum (map (λ t, value t * value t)%Q (triplets_of_row ts r)).

Definition residual (ts : list Triplet) (solution rhs : list Q) (r : Z) : Q :=
  (vec_at rhs r - row_dot ts solution r)%Q.

Definition sum_squared_residuals (ts : list Triplet) (solution rhs : list Q) : Q :=
  Qsum (map (λ r, residual ts solution rhs r * residual ts solution rhs r)%Q
          (seqZ 0 (Z.of_nat (length rhs)))).

(** The share of its row's squared error that the last loop of
    [generate_error_map] adds to the cell of a triplet. *)
Definition blame (row_errors sum_of_value_sq : list Q) (t : Triplet) : Q :=
  if Qnonzero (vec_at sum_of_value_sq (row t))
  then (value t * value t / vec_at sum_of_value_sq (row t)
        * vec_at row_errors (row t))%Q
  else 0%Q.

(** Polynomials in the lattice coordinates: a polynomial is a list of
    monomials, a monomial a coefficient and one exponent per coordinate; its
    degree is the sum of its exponents.  [sample_polynomial sizes p] is the
    field that holds, in the cell of every index, the value of [p] at the
    coordinate of the cell. *)
Fixpoint Qpow (x : Q) (n : nat) : Q :=
  match n with
  | O => 1
  | S n' => x * Qpow x n'
  end.

Record monomial : Type := mkMonomial { mono_coef : Q; mono_expo : list nat }.

Fixpoint eval_powers (expo : list nat) (c : list Z) : Q :=
  match expo, c with
  | a :: expo', x :: c' => Qpow (inject_Z x) a * eval_powers expo' c'
  | _, _ => 1
  end.

Definition eval_monomial (m : monomial) (c : list Z) : Q :=
  (mono_coef m * eval_powers (mono_expo m) c)%Q.

Definition eval_poly (p : list monomial) (c : list Z) : Q :=
  Qsum (map (λ m, eval_monomial m c) p).

Definition degree_lt (k : nat) (p : list monomial) : Prop :=
  Forall (λ m, (list_sum (mono_expo m) < k)%nat) p.

Definition sample_polynomial (sizes : list Z) (p : list monomial) : list Q :=
  map (λ index, eval_poly p (coordinate_from_index_loop sizes index))
    (seqZ 0 (num_unknowns_of sizes)).

(** The weight of the model of order [k], and "only [model_k] is positive":
    the other model weights and [gradient_smoothness] are zero.  The data
    weights play no part in the field constraints. *)
Definition model_weight (weights : Weights) (k : nat) : Q :=
  match k with
  | 0%nat => model_0 weights
  | 1%nat => model_1 weights
  | 2%nat => model_2 weights
  | 3%nat => model_3 weights
  | 4%nat => model_4 weights
  | _ => 0%Q
  end.

Definition only_model (k : nat) (weights : Weights) : Prop :=
  (k ≤ 4)%nat
  ∧ (0 < model_weight weights k)%Q
  ∧ (∀ j, j ≠ k → (model_weight weights j == 0)%Q)
  ∧ (gradient_smoothness weights == 0)%Q.

(** The finite-difference stencil of order [k], as offsets along the
    dimension and coefficients, and the stencil applied to a function of
    the offset. *)
Definition stencil (k : nat) : list (Z * Q) :=
  match k with
  | 0%nat => [(0, 1%Q)]
  | 1%nat => [(0, (-1)%Q); (1, 1%Q)]
  | 2%nat => [(0, 1%Q); (1, (-2)%Q); (2, 1%Q)]
  | 3%nat => [(0, 1%Q); (1, (-3)%Q); (2, 3%Q); (3, (-1)%Q)]
  | 4%nat => [(0, 1%Q); (1, (-4)%Q); (2, 6%Q); (3, (-4)%Q); (4, 1%Q)]
  | _ => []
  end.

Definition stencil_sum (k : nat) (f : Z → Q) : Q :=
  Qsum (map (λ jc, (snd jc * f (fst jc))%Q) (stencil k)).

(** The left-hand side of an equation at a solution vector, and the
    property that every row of a well-formed system has zero residual. *)
Definition pairs_dot (solution : list Q) (pairs : list LinearEquationPair) : Q :=
  Qsum (map (λ pair, (coefficient pair * vec_at solution (column pair))%Q) pairs).

Definition null_rows (solution : list Q) (e : LinearEquation) : Prop :=
  rows_in_range e
  ∧ ∀ r, 0 ≤ r < rhs_size e →
         (residual (triplets e) solution (rhs e) r == 0)%Q.

Fixpoint Zprod (l : list Z) : Z :=
  match l with
  | [] => 1
  | x :: rest => x * Zprod rest
  end.

(** The row-major index [Σ c[d] * strides[d]] of a coordinate, and the
    coordinates inside a lattice: [0 ≤ c[d] < sizes[d]] in every
    dimension. *)
Definition lattice_index (strides coords : list Z) : Z :=
  Zsum (zip_with Z.mul strides coords).

Definition coords_in_bounds (sizes coords : list Z) : Prop :=
  Forall2 (λ c size, 0 ≤ c < size) coords sizes.

(** A lattice as the constructor builds it, with cells: every size is at
    least 1 and the strides are the row-major ones. *)
Definition lattice_ok (field : LatticeField) : Prop :=
  Forall (λ size, 1 ≤ size) (sizes field)
  ∧ strides field = strides_from 1 (sizes field).

(** The columns of a system on a lattice of [n] cells. *)
Definition cols_in_range (n : Z) (e : LinearEquation) : Prop :=
  Forall (λ t, 0 ≤ col t < n) (triplets e).

(** The samples [multilerp] writes for the corners [l]: the corners that
    are inside, in order. *)
Definition corner_samples (field : LatticeField) (in_pos : list Q)
    (extra_bound : Z) (n : nat) (l : list Z) : list (Z * Q) :=
  flat_map
    (λ i, if corner_inside field in_pos extra_bound n i
          then [fst (corner_state field in_pos extra_bound n i)]
          else [])
    l.

(** The position lies in a cell of the lattice: in every dimension its
    floor and the next coordinate are inside. *)
Definition in_cell_range (field : LatticeField) (pos : list Q) : Prop :=
  ∀ d, (d < length (sizes field))%nat →
       0 ≤ Qfloor (nth d pos 0%Q)
       ∧ Qfloor (nth d pos 0%Q) + 1 < nth d (sizes field) 0.

(** The coordinate of the cell of a position. *)
Definition floor_coords (field : LatticeField) (pos : list Q) : list Z :=
  map (λ d, Qfloor (nth d pos 0%Q)) (seq 0 (length (sizes field))).

(** The row the nearest-neighbour kernel writes for dimension [d]. *)
Definition nearest_row (field : LatticeField) (w : Q) (index row : Z) (d : nat)
    : list Triplet :=
  [ mkTriplet row index (- w);
    mkTriplet row (index + nth d (strides field) 0) w ].

(** The system [e] followed by one row per dimension: the triplets
    [row_of d] and the right-hand side [rhs_of d] for each [d] of [ds]. *)
Definition append_rows (e : LinearEquation) (row_of : nat → list Triplet)
    (rhs_of : nat → Q) (ds : list nat) : LinearEquation :=
  {| triplets := triplets e ++ flat_map row_of ds;
     rhs := rhs e ++ map rhs_of ds |}.

(** [weight_sum] of the linear-interpolation kernel after the samples. *)
Definition lerp_weight_sum (constraint_weight : Q) (samples : list (Z * Q)) : Q :=
  fold_left (λ acc s, (acc + snd s * constraint_weight)%Q) samples 0%Q.

(** A field on a lattice with cells whose system only names cells. *)
Definition field_cols_ok (field : LatticeField) : Prop :=
  lattice_ok field
  ∧ cols_in_range (num_unknowns_of (sizes field)) (eqn field).

(** The operations of the public interface: value constraints, gradient
    constraints and the model constraints of the whole lattice. *)
Definition public_op (op : assembly_op) : Prop :=
  match op with
  | op_value _ _ _ | op_gradient _ _ _ _ | op_field _ => True
  | op_equation _ _ _ | op_model _ _ _ _ => False
  end.

(** A homogeneous system: every entry of [rhs] is zero. *)
Definition rhs_zero (e : LinearEquation) : Prop :=
  Forall (λ x, (x == 0)%Q) (rhs e).

(** The share of the squared residual of its row that a triplet brings to
    its column, as the spec words it: [v² / rowEnergy[r] * residual[r]²]
    when the energy of the row is not zero, nothing otherwise. *)
Definition blame_share (ts : list Triplet) (solution rhs : list Q)
    (t : Triplet) : Q :=
  if Qnonzero (row_energy ts (row t))
  then (value t * value t / row_energy ts (row t)
        * (residual ts solution rhs (row t) * residual ts solution rhs (row t)))%Q
  else 0%Q.

Definition triplets_of_col (ts : list Triplet) (c : Z) : list Triplet :=
  filter (λ t, col t = c) ts.

(** A printed row: the right-hand side, [" = "], the terms [v * x c] of the
    row separated by ["  +  "], and a newline. *)
Fixpoint printed_terms (ts : list Triplet) : list token :=
  match ts with
  | [] => []
  | t :: rest =>
      [tok_float (value t); tok_times_x; tok_int (col t)]
      ++ match rest with
         | [] => []
         | _ :: _ => tok_plus :: printed_terms rest
         end
  end.

Definition printed_row (e : LinearEquation) (r : nat) : list token :=
  [tok_float (nth r (rhs e) 0%Q); tok_equals]
  ++ printed_terms (triplets_of_row (triplets e) (Z.of_nat r))
  ++ [tok_newline].

(** * Properties *)

(** ** Comparisons *)

Lemma Qnonzero_true (x : Q) : Qnonzero x = true ↔ ¬ (x == 0)%Q.
Proof.
  unfold Qnonzero. rewrite negb_true_iff. split.
  - apply Qeq_bool_neq.
  - intros H. destruct (Qeq_bool x 0) eqn:E; [|done].
    apply Qeq_bool_eq in E. contradiction.
Qed.

Lemma Qnonzero_false (x : Q) : Qnonzero x = false ↔ (x == 0)%Q.
Proof.
  unfold Qnonzero. rewrite negb_false_iff. apply Qeq_bool_iff.
Qed.

Lemma Qeq_bool_false (x y : Q) : Qeq_bool x y = false ↔ ¬ (x == y)%Q.
Proof.
  split; [apply Qeq_bool_neq|].
  intros H. destruct (Qeq_bool x y) eqn:E; [|done].
  apply Qeq_bool_eq in E. contradiction.
Qed.

Lemma Qpositive_true (x : Q) : Qpositive x = true ↔ (0 < x)%Q.
Proof.
  unfold Qpositive. rewrite negb_true_iff. split.
  - intros H. apply Qnot_le_lt. intros Hle.
    apply Qle_bool_iff in Hle. congruence.
  - intros H. destruct (Qle_bool x 0) eqn:E; [|done].
    apply Qle_bool_iff in E. exfalso. lra.
Qed.

Lemma Qpositive_false (x : Q) : Qpositive x = false ↔ (x <= 0)%Q.
Proof.
  unfold Qpositive. rewrite negb_false_iff. apply Qle_bool_iff.
Qed.

(** ** add_equation *)

Lemma add_equation_pairs_all_zero row weight pairs e b :
  Forall (λ pair, (coefficient pair == 0)%Q) pairs →
  fold_left (add_equation_pair row weight) pairs (e, b) = (e, b).
Proof.
  induction 1 as [|pair pairs Hz _ IH]; simpl; [done|].
  unfold add_equation_pair at 2.
  apply Qnonzero_false in Hz. rewrite Hz. apply IH.
Qed.

(** C5.  An equation all of whose coefficients are zero is dropped: with a
    nonzero weight, [add_equation] appends no triplet and does not grow
    [rhs], whatever the requested right-hand side is. *)
Theorem add_equation_all_zero_dropped e weight rhs_value pairs :
  ¬ (weight == 0)%Q →
  Forall (λ pair, (coefficient pair == 0)%Q) pairs →
  add_equation e weight rhs_value pairs = e.
Proof.
  intros Hw Hz. unfold add_equation.
  apply Qeq_bool_false in Hw. rewrite Hw.
  by rewrite add_equation_pairs_all_zero.
Qed.

Lemma add_equation_all_zero_dropped_witness :
  let e := mkLinearEquation [mkTriplet 0 1 1] [3%Q] in
  add_equation e 2 5 [mkPair 0 0; mkPair 4 0] = e.
Proof.
  intros e. apply add_equation_all_zero_dropped.
  - intros H. discriminate H.
  - repeat constructor.
Defined.

Lemma add_equation_pairs_fold row weight pairs e b :
  fold_left (add_equation_pair row weight) pairs (e, b)
  = ({| triplets := triplets e ++ equation_triplets row weight pairs;
        rhs := rhs e |},
     match equation_triplets row weight pairs with [] => b | _ => false end).
Proof.
  revert e b. induction pairs as [|pair pairs IH]; intros e b.
  - simpl. unfold equation_triplets. simpl. rewrite app_nil_r. by destruct e.
  - simpl. unfold add_equation_pair at 2. unfold equation_triplets.
    rewrite filter_cons. destruct (Qnonzero (coefficient pair)) eqn:Hnz.
    + rewrite decide_True by done. rewrite IH. simpl.
      rewrite <- app_assoc. simpl. f_equal.
      by destruct (equation_triplets row weight pairs).
    + rewrite decide_False by done. apply IH.
Qed.

(** [add_equation] either leaves the system alone or opens exactly one row,
    made of the pairs with a nonzero coefficient. *)
Lemma add_equation_spec e weight rhs_value pairs :
  add_equation e weight rhs_value pairs
  = if Qeq_bool weight 0 then e
    else match equation_triplets (rhs_size e) weight pairs with
         | [] => e
         | ts => append_row e ts (rhs_value * weight)
         end.
Proof.
  unfold add_equation. destruct (Qeq_bool weight 0); [done|].
  rewrite add_equation_pairs_fold.
  destruct (equation_triplets (rhs_size e) weight pairs) eqn:E; simpl.
  - rewrite app_nil_r. by destruct e.
  - done.
Qed.

Lemma equation_triplets_rows r weight pairs :
  Forall (λ t, row t = r) (equation_triplets r weight pairs).
Proof.
  unfold equation_triplets. apply Forall_forall. intros t Ht.
  apply list_elem_of_In, in_map_iff in Ht. destruct Ht as (pair & <- & _). done.
Qed.

(** ** Scenario S1 *)

Lemma S1_run kernel :
  sdf_from_points [5] (S1_weights kernel) 1 [2%Q] None None
  = Some {| eqn := {| triplets := [mkTriplet 0 2 1; mkTriplet 0 3 0];
                      rhs := [0%Q] |};
            sizes := [5]; strides := [1] |}.
Proof. destruct kernel; vm_compute; reflexivity. Qed.

(** C1, as the code has it.  In scenario S1 the assembled system has one
    row, and that row has two triplets: the corner at index 2 with
    coefficient 1 and the corner at index 3 with coefficient 0, which
    [add_value_constraint] writes like any other sample; [rhs] is [0]. *)
Theorem S1_system kernel :
  ∃ field,
    sdf_from_points [5] (S1_weights kernel) 1 [2%Q] None None = Some field
    ∧ triplets (eqn field) = [mkTriplet 0 2 1; mkTriplet 0 3 0]
    ∧ rhs (eqn field) = [0%Q].
Proof. eexists. split; [apply S1_run|]. split; reflexivity. Qed.

(** C1, as the spec states it, fails: the row is not the single triplet
    [(0, 2, 1.0)]. *)
Lemma S1_single_triplet_fails :
  ¬ ∃ field,
      sdf_from_points [5] (S1_weights kNearestNeighbor) 1 [2%Q] None None
      = Some field
      ∧ Forall2 Triplet_equiv (triplets (eqn field)) [mkTriplet 0 2 1]
      ∧ Forall2 Qeq (rhs (eqn field)) [0%Q].
Proof.
  intros (field & Hrun & Hts & _).
  rewrite S1_run in Hrun. injection Hrun as <-. simpl in Hts.
  inversion Hts as [|? ? ? ? _ Htail]; subst. inversion Htail.
Qed.

(** ** Growth of the system, and the density of its rows *)

Lemma grows_one e ts x :
  ts ≠ [] → Forall (λ t, row t = rhs_size e) ts → grows e (append_row e ts x).
Proof. intros. apply grows_row; [apply grows_refl|done..]. Qed.

Lemma grows_trans e1 e2 e3 : grows e1 e2 → grows e2 e3 → grows e1 e3.
Proof.
  intros H12 H23. induction H23 as [|e2 e3 ts x _ IH Hne Hrows]; [done|].
  apply grows_row; auto.
Qed.

Lemma rhs_size_append_row e ts x : rhs_size (append_row e ts x) = rhs_size e + 1.
Proof. unfold rhs_size. simpl. rewrite length_app. simpl. lia. Qed.

Lemma append_row_dense e ts x :
  ts ≠ [] → Forall (λ t, row t = rhs_size e) ts →
  row_dense e → row_dense (append_row e ts x).
Proof.
  intros Hne Hrows [Hrange Hused]. split.
  - unfold rows_in_range in *. rewrite rhs_size_append_row. simpl.
    apply Forall_app. split.
    + eapply Forall_impl; [exact Hrange|]. simpl. lia.
    + eapply Forall_impl; [exact Hrows|]. simpl. unfold rhs_size. lia.
  - intros r. rewrite rhs_size_append_row. intros Hr. simpl.
    destruct (decide (r = rhs_size e)) as [->|Hlt].
    + destruct ts as [|t ts]; [done|]. exists t. split.
      * apply elem_of_app. right. left.
      * by inversion Hrows.
    + destruct (Hused r) as (t & Ht & Hrow); [lia|].
      exists t. split; [|done]. apply elem_of_app. by left.
Qed.

Lemma grows_dense e e' : grows e e' → row_dense e → row_dense e'.
Proof.
  induction 1 as [|e e' ts x _ IH Hne Hrows]; [done|].
  intros Hd. apply append_row_dense; auto.
Qed.

Lemma add_equation_grows e weight rhs_value pairs :
  grows e (add_equation e weight rhs_value pairs).
Proof.
  rewrite add_equation_spec. destruct (Qeq_bool weight 0); [apply grows_refl|].
  pose proof (equation_triplets_rows (rhs_size e) weight pairs) as Hrows.
  destruct (equation_triplets (rhs_size e) weight pairs) as [|t ts];
    [apply grows_refl|].
  by apply grows_one.
Qed.

Lemma fold_left_grows {A} (f : LinearEquation → A → LinearEquation) l e :
  (∀ e a, grows e (f e a)) → grows e (fold_left f l e).
Proof.
  intros Hf. revert e. induction l as [|a l IH]; intros e; simpl.
  - apply grows_refl.
  - eapply grows_trans; [apply Hf|apply IH].
Qed.

(** ** cell_index *)

Lemma cell_index_loop_negative field pos ds d index :
  d ∈ ds → Qfloor (nth d pos 0%Q) < 0 →
  cell_index_loop field pos ds index = -1.
Proof.
  intros Hin Hneg. revert index.
  induction ds as [|a ds IH]; intros index; [by apply elem_of_nil in Hin|].
  simpl.
  destruct ((0 <=? Qfloor (nth a pos 0%Q))
            && (Qfloor (nth a pos 0%Q) + 1 <? nth a (sizes field) 0)) eqn:Hok;
    simpl; [|done].
  apply elem_of_cons in Hin. destruct Hin as [->|Hin]; [|by apply IH].
  apply andb_true_iff in Hok. destruct Hok as [Hle _].
  apply Z.leb_le in Hle. lia.
Qed.

(** C9.  The nearest-neighbour and cell-edges kernels reject a position
    whose floor is negative in some dimension: [add_gradient_constraint]
    returns false and the field, with its triplets and its right-hand side,
    is unchanged. *)
Theorem gradient_negative_floor_rejected field pos gradient weight kernel d :
  kernel = kNearestNeighbor ∨ kernel = kCellEdges →
  (d < length (sizes field))%nat →
  Qfloor (nth d pos 0%Q) < 0 →
  add_gradient_constraint field pos gradient weight kernel = Some (false, field).
Proof.
  intros Hk Hd Hneg. unfold add_gradient_constraint.
  destruct (Qeq_bool weight 0); [done|].
  assert (cell_index field pos = -1) as Hidx.
  { unfold cell_index. apply cell_index_loop_negative with d; [|done].
    apply list_elem_of_In, in_seq. lia. }
  destruct Hk as [-> | ->]; rewrite Hidx; reflexivity.
Qed.

Lemma gradient_negative_floor_rejected_witness :
  let field := new_LatticeField [3; 3] in
  add_gradient_constraint field [1; -1 # 2]%Q [1; 0]%Q 1 kCellEdges
  = Some (false, field).
Proof.
  intros field.
  apply (gradient_negative_floor_rejected field [1; -1 # 2]%Q [1; 0]%Q 1
           kCellEdges 1%nat).
  - by right.
  - simpl. lia.
  - vm_compute. reflexivity.
Defined.

(** ** add_value_constraint *)

Lemma value_samples_fold r weight samples e acc :
  fst (fold_left (value_sample r weight) samples (e, acc))
  = {| triplets := triplets e ++ value_triplets r weight samples; rhs := rhs e |}
  ∧ (snd (fold_left (value_sample r weight) samples (e, acc))
     == acc + sum_values (value_triplets r weight samples))%Q.
Proof.
  revert e acc. induction samples as [|s samples IH]; intros e acc.
  - cbn. rewrite app_nil_r. split; [by destruct e|ring].
  - cbn [fold_left]. unfold value_sample at 2 4. cbn [fst snd].
    destruct (IH (push_triplet e (mkTriplet r s.1 (s.2 * weight)))
                 (acc + s.2 * weight)%Q) as [-> ->].
    unfold sum_values, value_triplets. cbn. rewrite <- app_assoc.
    split; [done|ring].
Qed.

Lemma value_triplets_rows r weight samples :
  Forall (λ t, row t = r) (value_triplets r weight samples).
Proof.
  unfold value_triplets. apply Forall_forall. intros t Ht.
  apply list_elem_of_In, in_map_iff in Ht. destruct Ht as (s & <- & _). done.
Qed.

(** What [add_value_constraint] does once the samples are known. *)
Lemma add_value_constraint_spec field pos value weight samples :
  ¬ (weight == 0)%Q →
  multilerp field pos 0 = Some samples →
  samples ≠ [] →
  ∃ x,
    add_value_constraint field pos value weight
    = Some (true,
            set_eqn field
              (append_row (eqn field)
                 (value_triplets (rhs_size (eqn field)) weight samples) x))
    ∧ (x == sum_values (value_triplets (rhs_size (eqn field)) weight samples)
            * value)%Q.
Proof.
  intros Hw Hs Hne. unfold add_value_constraint.
  apply Qeq_bool_false in Hw. rewrite Hw, Hs. cbn [mbind option_bind].
  destruct (Nat.eqb_spec (length samples) 0) as [Hlen|_].
  { by destruct samples. }
  pose proof (value_samples_fold (rhs_size (eqn field)) weight samples
                (eqn field) 0%Q) as [Hfst Hsnd].
  destruct (fold_left _ samples (eqn field, 0%Q)) as [e weight_sum].
  cbn [fst snd] in Hfst, Hsnd. subst e.
  eexists. split; [reflexivity|]. rewrite Hsnd. ring.
Qed.

Lemma row_triplets_append_row e ts x :
  rows_in_range e → Forall (λ t, row t = rhs_size e) ts →
  row_triplets (append_row e ts x) (rhs_size e) = ts.
Proof.
  intros Hrange Hrows. unfold row_triplets, triplets_of_row. simpl.
  rewrite filter_app.
  assert (filter (λ t, row t = rhs_size e) (triplets e) = []) as ->.
  { induction Hrange as [|t l Ht _ IH]; [done|].
    rewrite filter_cons, decide_False by lia. apply IH. }
  simpl. induction Hrows as [|t l Ht _ IH]; [done|].
  rewrite filter_cons, decide_True by done. by rewrite IH.
Qed.

(** C2.  When the weight is nonzero and [multilerp] admits at least one
    corner, [add_value_constraint] appends exactly one row, with one triplet
    per admitted corner, and the entry of [rhs] of that row is the target
    value times the sum of the coefficients of the row.  The position is
    arbitrary: at the boundary fewer corners are admitted and the row is
    shorter.  The system the row is added to is well formed: its triplets
    lie in rows below [len(rhs)]. *)
Theorem value_constraint_renormalized field pos value weight samples :
  ¬ (weight == 0)%Q →
  multilerp field pos 0 = Some samples →
  samples ≠ [] →
  rows_in_range (eqn field) →
  ∃ ts x,
    add_value_constraint field pos value weight
    = Some (true, set_eqn field (append_row (eqn field) ts x))
    ∧ length ts = length samples
    ∧ row_triplets (append_row (eqn field) ts x) (rhs_size (eqn field)) = ts
    ∧ (x == value
            * coefficient_sum (append_row (eqn field) ts x)
                (rhs_size (eqn field)))%Q.
Proof.
  intros Hw Hs Hne Hrange.
  destruct (add_value_constraint_spec field pos value weight samples)
    as (x & Hrun & Hx); [done..|].
  exists (value_triplets (rhs_size (eqn field)) weight samples), x.
  assert (row_triplets
            (append_row (eqn field)
               (value_triplets (rhs_size (eqn field)) weight samples) x)
            (rhs_size (eqn field))
          = value_triplets (rhs_size (eqn field)) weight samples) as Hrow.
  { apply row_triplets_append_row; [done|apply value_triplets_rows]. }
  split; [done|]. split; [apply length_map|]. split; [done|].
  unfold coefficient_sum. rewrite Hrow, Hx. ring.
Qed.

(** At the far edge of a lattice of five cells one corner is admitted, and
    the row of the constraint has one triplet. *)
Lemma value_constraint_renormalized_witness :
  let field := new_LatticeField [5] in
  ∃ ts x,
    add_value_constraint field [4%Q] 3 2
    = Some (true, set_eqn field (append_row (eqn field) ts x))
    ∧ length ts = 1%nat
    ∧ row_triplets (append_row (eqn field) ts x) 0 = ts
    ∧ (x == 3 * coefficient_sum (append_row (eqn field) ts x) 0)%Q.
Proof.
  intros field.
  apply (value_constraint_renormalized field [4%Q] 3 2 [(4, 1%Q)]).
  - intros H. discriminate H.
  - vm_compute. reflexivity.
  - discriminate.
  - constructor.
Defined.

(** ** Every assembly operation grows the system by whole rows *)

Lemma field_grows_refl f : field_grows f f.
Proof. split; [apply grows_refl|done]. Qed.

Lemma field_grows_trans f1 f2 f3 :
  field_grows f1 f2 → field_grows f2 f3 → field_grows f1 f3.
Proof.
  intros (H12 & Hs12 & Ht12) (H23 & Hs23 & Ht23). split.
  - by eapply grows_trans.
  - split; congruence.
Qed.

Lemma field_grows_set_eqn f e : grows (eqn f) e → field_grows f (set_eqn f e).
Proof. intros H. by split. Qed.

Lemma fold_left_field_grows {A} (g : LatticeField → A → LatticeField) l f :
  (∀ f a, field_grows f (g f a)) → field_grows f (fold_left g l f).
Proof.
  intros Hg. revert f. induction l as [|a l IH]; intros f; simpl.
  - apply field_grows_refl.
  - eapply field_grows_trans; [apply Hg|apply IH].
Qed.

Lemma add_value_constraint_grows field pos value weight r field' :
  add_value_constraint field pos value weight = Some (r, field') →
  field_grows field field'.
Proof.
  unfold add_value_constraint.
  destruct (Qeq_bool weight 0).
  { intros [= _ <-]. apply field_grows_refl. }
  destruct (multilerp field pos 0) as [samples|]; [|done].
  cbn [mbind option_bind].
  destruct (Nat.eqb_spec (length samples) 0) as [_|Hlen].
  { intros [= _ <-]. apply field_grows_refl. }
  pose proof (value_samples_fold (rhs_size (eqn field)) weight samples
                (eqn field) 0%Q) as [Hfst _].
  destruct (fold_left _ samples (eqn field, 0%Q)) as [e weight_sum].
  cbn [fst] in Hfst. subst e. intros [= _ <-].
  apply field_grows_set_eqn.
  apply (grows_one (eqn field) (value_triplets _ weight samples)).
  - destruct samples; [done|discriminate].
  - apply value_triplets_rows.
Qed.

Lemma cell_edges_fold field num_dim index r term_weight d cs e :
  fold_left (cell_edges_corner field num_dim index r term_weight d) cs e
  = {| triplets :=
         triplets e ++ cell_edges_triplets field num_dim index r term_weight d cs;
       rhs := rhs e |}.
Proof.
  revert e. induction cs as [|c cs IH]; intros e; simpl.
  - rewrite app_nil_r. by destruct e.
  - rewrite IH. simpl. by rewrite <- app_assoc.
Qed.

Lemma shiftl_one_pos (n : nat) : 0 < Z.shiftl 1 (Z.of_nat n).
Proof. rewrite Z.shiftl_1_l. apply Z.pow_pos_nonneg; lia. Qed.

Lemma gradient_cell_edges_spec field gradient weight num_dim index e d :
  gradient_cell_edges field gradient weight num_dim index e d
  = append_row e
      (cell_edges_triplets field num_dim index (rhs_size e)
         (weight * 2 / inject_Z (Z.shiftl 1 (Z.of_nat num_dim)))%Q d
         (seqZ 0 (Z.shiftl 1 (Z.of_nat num_dim))))
      (weight * nth d gradient 0)%Q.
Proof. unfold gradient_cell_edges. by rewrite cell_edges_fold. Qed.

Lemma gradient_cell_edges_grows field gradient weight num_dim index e d :
  grows e (gradient_cell_edges field gradient weight num_dim index e d).
Proof.
  rewrite gradient_cell_edges_spec. apply grows_one.
  - pose proof (shiftl_one_pos num_dim).
    rewrite seqZ_cons by done. discriminate.
  - unfold cell_edges_triplets. apply Forall_forall. intros t Ht.
    apply list_elem_of_In, in_map_iff in Ht. destruct Ht as (c & <- & _). done.
Qed.

Lemma gradient_lerp_fold field r weight d samples e acc :
  fst (fold_left (gradient_lerp_sample field r weight d) samples (e, acc))
  = {| triplets := triplets e ++ lerp_triplets field r weight d samples;
       rhs := rhs e |}.
Proof.
  revert e acc. induction samples as [|s samples IH]; intros e acc; simpl.
  - rewrite app_nil_r. by destruct e.
  - unfold gradient_lerp_sample at 2. rewrite IH. simpl.
    by rewrite <- !app_assoc.
Qed.

Lemma gradient_lerp_grows field gradient weight samples e d :
  samples ≠ [] →
  grows e (gradient_lerp field gradient weight samples e d).
Proof.
  intros Hne. unfold gradient_lerp.
  pose proof (gradient_lerp_fold field (rhs_size e) weight d samples e 0%Q) as Hfst.
  destruct (fold_left _ samples (e, 0%Q)) as [e' weight_sum].
  cbn [fst] in Hfst. subst e'.
  apply (grows_one e (lerp_triplets field (rhs_size e) weight d samples)).
  - destruct samples; [done|discriminate].
  - unfold lerp_triplets. apply Forall_forall. intros t Ht.
    apply list_elem_of_In, in_flat_map in Ht. destruct Ht as (s & _ & Ht).
    simpl in Ht. destruct Ht as [<-|[<-|[]]]; done.
Qed.

Lemma add_gradient_constraint_grows field pos gradient weight kernel r field' :
  add_gradient_constraint field pos gradient weight kernel = Some (r, field') →
  field_grows field field'.
Proof.
  unfold add_gradient_constraint.
  destruct (Qeq_bool weight 0).
  { intros [= _ <-]. apply field_grows_refl. }
  destruct kernel.
  - destruct (cell_index field pos <? 0); intros [= _ <-];
      [apply field_grows_refl|].
    apply field_grows_set_eqn, fold_left_grows.
    intros e d. apply add_equation_grows.
  - destruct (cell_index field pos <? 0); intros [= _ <-];
      [apply field_grows_refl|].
    apply field_grows_set_eqn, fold_left_grows.
    intros e d. apply gradient_cell_edges_grows.
  - destruct (multilerp field _ 1) as [samples|]; [|done].
    cbn [mbind option_bind].
    destruct (Nat.eqb_spec (length samples) 0) as [_|Hlen];
      intros [= _ <-]; [apply field_grows_refl|].
    apply field_grows_set_eqn, fold_left_grows.
    intros e d. apply gradient_lerp_grows. by destruct samples.
Qed.

Lemma model_orthogonal_grows field weights coordinate index d e od :
  grows e (model_orthogonal field weights coordinate index d e od).
Proof.
  unfold model_orthogonal.
  destruct (d =? od)%nat; [apply grows_refl|].
  destruct (_ >=? _); [apply grows_refl|apply add_equation_grows].
Qed.

Ltac grows_chain :=
  repeat first
    [ apply grows_refl
    | eapply grows_trans; [|apply add_equation_grows]
    | eapply grows_trans;
        [|apply fold_left_grows; intros; apply model_orthogonal_grows] ].

Lemma add_model_constraint_grows field weights coordinate index d :
  field_grows field (add_model_constraint field weights coordinate index d).
Proof.
  apply field_grows_set_eqn.
  repeat match goal with
         | |- context [if ?c then _ else _] => destruct c
         end;
    grows_chain.
Qed.

Lemma add_field_constraints_grows field weights :
  field_grows field (add_field_constraints field weights).
Proof.
  unfold add_field_constraints. apply fold_left_field_grows.
  intros f index. unfold add_field_constraints_cell.
  apply fold_left_field_grows. intros f' d. apply add_model_constraint_grows.
Qed.

Lemma run_op_grows field op field' :
  run_op field op = Some field' → field_grows field field'.
Proof.
  destruct op as [w r pairs|pos v w|pos g w k|ws c i d|ws]; simpl.
  - intros [= <-]. apply field_grows_set_eqn, add_equation_grows.
  - destruct (add_value_constraint field pos v w) as [[r f]|] eqn:E; [|done].
    intros [= <-]. by eapply add_value_constraint_grows.
  - destruct (add_gradient_constraint field pos g w k) as [[r f]|] eqn:E; [|done].
    intros [= <-]. by eapply add_gradient_constraint_grows.
  - intros [= <-]. apply add_model_constraint_grows.
  - intros [= <-]. apply add_field_constraints_grows.
Qed.

Lemma foldlM_field_grows {A} (g : LatticeField → A → option LatticeField) l f f' :
  (∀ f a f', g f a = Some f' → field_grows f f') →
  foldlM g l f = Some f' → field_grows f f'.
Proof.
  intros Hg. revert f. induction l as [|a l IH]; intros f; simpl.
  - intros [= <-]. apply field_grows_refl.
  - destruct (g f a) as [f1|] eqn:E; [|done]. cbn [mbind option_bind].
    intros Hrest. eapply field_grows_trans; [by eapply Hg|by apply IH].
Qed.

Lemma run_ops_grows ops field field' :
  run_ops ops field = Some field' → field_grows field field'.
Proof. apply foldlM_field_grows. intros f a f'. apply run_op_grows. Qed.

Lemma new_LatticeField_dense sizes : row_dense (eqn (new_LatticeField sizes)).
Proof.
  split.
  - constructor.
  - intros r. unfold rhs_size. simpl. lia.
Qed.


(** C4.  Row density: after any sequence of assembly operations on a new
    field (single equations, value constraints, gradient constraints under
    any kernel, model constraints of a cell or of the whole lattice), every
    triplet lies in a row below the length of [rhs], and every row below the
    length of [rhs] holds at least one triplet. *)
Theorem assembly_row_dense sizes ops field :
  run_ops ops (new_LatticeField sizes) = Some field →
  Forall (λ t, 0 ≤ row t < Z.of_nat (length (rhs (eqn field))))
    (triplets (eqn field))
  ∧ ∀ r, 0 ≤ r < Z.of_nat (length (rhs (eqn field))) →
         ∃ t, t ∈ triplets (eqn field) ∧ row t = r.
Proof.
  intros Hrun. apply run_ops_grows in Hrun. destruct Hrun as [Hg _].
  apply (grows_dense _ _ Hg), new_LatticeField_dense.
Qed.

Lemma assembly_row_dense_witness :
  ∃ field,
    run_ops [ op_field (mkWeights 1 1 0 1 0 0 0 1 kCellEdges);
              op_value [1 # 2; 1]%Q 0 1;
              op_gradient [0; 0]%Q [1; 0]%Q 1 kNearestNeighbor;
              op_gradient [0; 0]%Q [1; 0]%Q 1 kCellEdges;
              op_gradient [1; 1]%Q [0; 1]%Q 1 kLinearInteprolation ]
      (new_LatticeField [2; 2]) = Some field
    ∧ Forall (λ t, 0 ≤ row t < Z.of_nat (length (rhs (eqn field))))
        (triplets (eqn field))
    ∧ ∀ r, 0 ≤ r < Z.of_nat (length (rhs (eqn field))) →
           ∃ t, t ∈ triplets (eqn field) ∧ row t = r.
Proof.
  eexists. split; [vm_compute; reflexivity|].
  apply (assembly_row_dense [2; 2]
           [ op_field (mkWeights 1 1 0 1 0 0 0 1 kCellEdges);
             op_value [1 # 2; 1]%Q 0 1;
             op_gradient [0; 0]%Q [1; 0]%Q 1 kNearestNeighbor;
             op_gradient [0; 0]%Q [1; 0]%Q 1 kCellEdges;
             op_gradient [1; 1]%Q [0; 1]%Q 1 kLinearInteprolation ]).
  vm_compute. reflexivity.
Defined.

(** ** Sums of rationals *)

Lemma Qsum_app l1 l2 : (Qsum (l1 ++ l2) == Qsum l1 + Qsum l2)%Q.
Proof.
  induction l1 as [|x l1 IH]; simpl; [ring|]. rewrite IH. ring.
Qed.

Lemma Qsum_map_ext {A} (f g : A → Q) l :
  (∀ a, a ∈ l → (f a == g a)%Q) → (Qsum (map f l) == Qsum (map g l))%Q.
Proof.
  induction l as [|a l IH]; intros Hfg; simpl; [reflexivity|].
  rewrite (Hfg a) by left. rewrite IH; [reflexivity|].
  intros b Hb. apply Hfg. by right.
Qed.

Lemma Qsum_map_scale {A} (f : A → Q) (c : Q) l :
  (Qsum (map (λ a, f a * c) l) == Qsum (map f l) * c)%Q.
Proof.
  induction l as [|a l IH]; simpl; [ring|]. rewrite IH. ring.
Qed.

(** ** Bits of a corner number *)

Lemma corner_bit_testbit i d : corner_bit i d = Z.b2z (Z.testbit i (Z.of_nat d)).
Proof.
  unfold corner_bit. change 1 with (Z.ones 1) at 1.
  rewrite Z.land_ones by lia. change (2 ^ 1) with 2.
  rewrite <- Z.bit0_mod, Z.shiftr_spec by lia. by rewrite Z.add_0_l.
Qed.

Lemma is_along_testbit c a :
  0 ≤ c → is_along c a = Z.b2z (Z.testbit c (Z.of_nat a)).
Proof.
  intros Hc. unfold is_along.
  rewrite Z.rem_mod_nonneg; [|apply Z.shiftr_nonneg; lia|lia].
  rewrite <- Z.bit0_mod, Z.shiftr_spec by lia. by rewrite Z.add_0_l.
Qed.

Lemma testbit_add_pow2_low i (n d : nat) :
  (d < n)%nat →
  Z.testbit (2 ^ Z.of_nat n + i) (Z.of_nat d) = Z.testbit i (Z.of_nat d).
Proof.
  intros Hd.
  rewrite <- (Z.mod_pow2_bits_low (2 ^ Z.of_nat n + i) (Z.of_nat n)) by lia.
  rewrite <- (Z.mod_pow2_bits_low i (Z.of_nat n) (Z.of_nat d)) by lia.
  f_equal. rewrite Z.add_comm.
  rewrite <- (Z.mul_1_l (2 ^ Z.of_nat n)) at 1.
  apply Z.mod_add. apply Z.pow_nonzero; lia.
Qed.

Lemma testbit_below_pow2 i (n : nat) :
  0 ≤ i < 2 ^ Z.of_nat n → Z.testbit i (Z.of_nat n) = false.
Proof.
  intros Hi. rewrite <- (Z.mod_small i (2 ^ Z.of_nat n)) by done.
  apply Z.mod_pow2_bits_high. lia.
Qed.

Lemma testbit_add_pow2_high i (n : nat) :
  0 ≤ i < 2 ^ Z.of_nat n → Z.testbit (2 ^ Z.of_nat n + i) (Z.of_nat n) = true.
Proof.
  intros Hi. apply Z.testbit_true; [lia|].
  rewrite Z.add_comm. rewrite <- (Z.mul_1_l (2 ^ Z.of_nat n)) at 1.
  rewrite Z.div_add by (apply Z.pow_nonzero; lia).
  by rewrite Z.div_small.
Qed.

Lemma seqZ_pow2_S (n : nat) :
  seqZ 0 (2 ^ Z.of_nat (S n))
  = seqZ 0 (2 ^ Z.of_nat n) ++ map (Z.add (2 ^ Z.of_nat n)) (seqZ 0 (2 ^ Z.of_nat n)).
Proof.
  assert (0 < 2 ^ Z.of_nat n) by (apply Z.pow_pos_nonneg; lia).
  replace (2 ^ Z.of_nat (S n)) with (2 ^ Z.of_nat n + 2 ^ Z.of_nat n).
  - rewrite seqZ_app by lia.
    change (map ?f ?l) with (f <$> l).
    rewrite fmap_add_seqZ. by rewrite Z.add_0_l, Z.add_0_r.
  - rewrite Nat2Z.inj_succ, Z.pow_succ_r by lia. lia.
Qed.

(** ** multilerp *)

Section multilerp_facts.
Context (field : LatticeField) (in_pos : list Q) (extra_bound : Z).

#[local] Abbreviation state := (corner_state field in_pos extra_bound).
#[local] Abbreviation weight := (corner_weight field in_pos extra_bound).
#[local] Abbreviation inside := (corner_inside field in_pos extra_bound).

Lemma corner_state_S n i :
  state (S n) i = multilerp_dim field in_pos extra_bound i (state n i) n.
Proof. unfold corner_state. by rewrite seq_S, fold_left_app. Qed.

Lemma corner_weight_S n i :
  weight (S n) i
  = (weight n i
     * (if corner_bit i n =? 0 then 1 - lerp_t in_pos n else lerp_t in_pos n))%Q.
Proof.
  unfold corner_weight. rewrite corner_state_S.
  by destruct (state n i) as [[index w] ins].
Qed.

Lemma corner_inside_S n i :
  inside (S n) i
  = inside n i
    && ((0 <=? floored in_pos n + corner_bit i n)
        && (floored in_pos n + corner_bit i n + extra_bound
            <? nth n (sizes field) 0)).
Proof.
  unfold corner_inside. rewrite corner_state_S.
  by destruct (state n i) as [[index w] ins].
Qed.

(** The corners [i] and [2^n + i] agree on the first [n] dimensions. *)
Lemma corner_state_add_pow2 (n m : nat) i :
  (m ≤ n)%nat → state m (2 ^ Z.of_nat n + i) = state m i.
Proof.
  induction m as [|m IH]; intros Hm; [done|].
  rewrite !corner_state_S, IH by lia.
  unfold multilerp_dim.
  by rewrite !corner_bit_testbit, testbit_add_pow2_low by lia.
Qed.

(** The outer loop, when every corner it visits is inside. *)
Lemma multilerp_corners_inside n l out :
  (∀ i, i ∈ l → inside n i = true) →
  fold_left (multilerp_corner field in_pos extra_bound n) l out
  = out ++ map (λ i, fst (state n i)) l.
Proof.
  revert out. induction l as [|i l IH]; intros out Hin; simpl.
  - by rewrite app_nil_r.
  - rewrite IH by (intros j Hj; apply Hin; by right).
    unfold multilerp_corner at 1.
    pose proof (Hin i ltac:(left)) as Hi. unfold corner_inside in Hi.
    fold (state n i). destruct (state n i) as [[index w] ins].
    simpl in Hi. subst ins. by rewrite <- app_assoc.
Qed.

(** The weights of the [2^n] corners of the first [n] dimensions sum to 1. *)
Lemma corner_weights_sum n :
  (Qsum (map (weight n) (seqZ 0 (2 ^ Z.of_nat n))) == 1)%Q.
Proof.
  induction n as [|n IH]; [reflexivity|].
  rewrite seqZ_pow2_S, map_app, Qsum_app.
  rewrite (Qsum_map_ext (weight (S n))
             (λ i, weight n i * (1 - lerp_t in_pos n))%Q).
  2:{ intros i Hi. apply elem_of_seqZ in Hi.
      rewrite corner_weight_S, corner_bit_testbit.
      rewrite testbit_below_pow2 by lia. reflexivity. }
  rewrite map_map.
  rewrite (Qsum_map_ext (λ i, weight (S n) (2 ^ Z.of_nat n + i))
             (λ i, weight n i * lerp_t in_pos n)%Q).
  2:{ intros i Hi. apply elem_of_seqZ in Hi.
      rewrite corner_weight_S, corner_bit_testbit.
      rewrite testbit_add_pow2_high by lia.
      unfold corner_weight. rewrite corner_state_add_pow2 by lia.
      reflexivity. }
  rewrite !Qsum_map_scale, IH. ring.
Qed.
End multilerp_facts.

Lemma corner_bit_range i d : corner_bit i d = 0 ∨ corner_bit i d = 1.
Proof.
  rewrite corner_bit_testbit. destruct (Z.testbit i (Z.of_nat d)); auto.
Qed.

Lemma interior_floor (p : Q) (size : Z) :
  (0 <= p)%Q → (p < inject_Z size - 1)%Q →
  0 ≤ Qfloor p ∧ Qfloor p + 1 < size.
Proof.
  intros H0 H1. split.
  - change 0 with (Qfloor 0). by apply Qfloor_resp_le.
  - pose proof (Qfloor_le p) as Hfl.
    assert (inject_Z (Qfloor p + 1) < inject_Z size)%Q as Hlt.
    { rewrite inject_Z_plus. change (inject_Z 1) with 1%Q. lra. }
    by rewrite Zlt_Qlt.
Qed.

(** C3.  Partition of unity: on a lattice of dimension 1 to 4, at a
    position every coordinate of which lies in [0, sizes[d] - 1),
    [multilerp] with [extra_bound = 0] emits exactly [2^N] samples, and
    their kernel weights sum to 1. *)
Theorem multilerp_partition_of_unity field pos :
  (1 ≤ length (sizes field) ≤ 4)%nat →
  (∀ d, (d < length (sizes field))%nat →
        (0 <= nth d pos 0)%Q
        ∧ (nth d pos 0 < inject_Z (nth d (sizes field) 0%Z) - 1)%Q) →
  ∃ samples,
    multilerp field pos 0 = Some samples
    ∧ Z.of_nat (length samples) = 2 ^ Z.of_nat (length (sizes field))
    ∧ (sum_weights samples == 1)%Q.
Proof.
  intros [Hlo Hhi] Hpos. unfold multilerp.
  apply Nat.leb_le in Hlo. apply Nat.leb_le in Hhi.
  unfold MAX_DIM. rewrite Hlo, Hhi. cbn [andb].
  eexists. split; [reflexivity|].
  rewrite Z.shiftl_1_l.
  assert (∀ n i, (n ≤ length (sizes field))%nat →
                 corner_inside field pos 0 n i = true) as Hin.
  { induction n as [|n IH]; intros i Hn; [done|].
    rewrite corner_inside_S, IH by lia.
    destruct (Hpos n) as [H0 H1]; [lia|].
    destruct (interior_floor _ _ H0 H1) as [Hf0 Hf1]. unfold floored.
    destruct (corner_bit_range i n) as [-> | ->].
    - simpl. apply andb_true_iff. split; [apply Z.leb_le|apply Z.ltb_lt]; lia.
    - simpl. apply andb_true_iff. split; [apply Z.leb_le|apply Z.ltb_lt]; lia. }
  rewrite multilerp_corners_inside by (intros; by apply Hin).
  cbn [app]. split.
  - rewrite length_map, length_seqZ.
    rewrite Z2Nat.id; [done|]. apply Z.pow_nonneg. lia.
  - unfold sum_weights. rewrite map_map. apply corner_weights_sum.
Qed.

Lemma multilerp_partition_of_unity_witness :
  ∃ samples,
    multilerp (new_LatticeField [3; 4]) [3 # 2; 1 # 4]%Q 0 = Some samples
    ∧ Z.of_nat (length samples) = 4
    ∧ (sum_weights samples == 1)%Q.
Proof.
  apply (multilerp_partition_of_unity (new_LatticeField [3; 4]) [3 # 2; 1 # 4]%Q).
  - simpl. lia.
  - intros [|[|d]] Hd; simpl in *; [split; vm_compute; congruence..|lia].
Defined.

(** ** The cell-edges kernel *)

Lemma Forall2_map_same {A B} (R : B → B → Prop) (f g : A → B) l :
  (∀ a, a ∈ l → R (f a) (g a)) → Forall2 R (map f l) (map g l).
Proof.
  induction l as [|a l IH]; intros Hfg; simpl; constructor.
  - apply Hfg. left.
  - apply IH. intros b Hb. apply Hfg. by right.
Qed.

Lemma Forall2_flat_map_same {A B} (R : B → B → Prop) (f g : A → list B) l :
  (∀ a, a ∈ l → Forall2 R (f a) (g a)) →
  Forall2 R (flat_map f l) (flat_map g l).
Proof.
  induction l as [|a l IH]; intros Hfg; simpl; [constructor|].
  apply Forall2_app.
  - apply Hfg. left.
  - apply IH. intros b Hb. apply Hfg. by right.
Qed.

Lemma Triplet_equiv_refl t : Triplet_equiv t t.
Proof. repeat split; reflexivity. Qed.

Lemma Forall2_Triplet_equiv_refl ts : Forall2 Triplet_equiv ts ts.
Proof. induction ts; constructor; [apply Triplet_equiv_refl|done]. Qed.

Lemma fold_left_add_Zsum {A} (g : A → Z) l x :
  fold_left (λ acc a, acc + g a) l x = x + Zsum (map g l).
Proof.
  revert x. induction l as [|a l IH]; intros x; simpl; [lia|].
  rewrite IH. lia.
Qed.

Lemma corner_index_cell_corner field index c :
  0 ≤ c →
  corner_index field (length (sizes field)) index c = cell_corner field index c.
Proof.
  intros Hc. unfold corner_index, cell_corner.
  rewrite (fold_left_add_Zsum (λ oa, nth oa (strides field) 0 * is_along c oa)).
  f_equal. f_equal. apply map_ext. intros a.
  by rewrite is_along_testbit.
Qed.

Lemma cell_edges_triplets_row field w index r d :
  Forall2 Triplet_equiv
    (cell_edges_triplets field (length (sizes field)) index r
       (w * 2 / inject_Z (Z.shiftl 1 (Z.of_nat (length (sizes field)))))%Q d
       (seqZ 0 (Z.shiftl 1 (Z.of_nat (length (sizes field))))))
    (cell_edges_row field w index r d).
Proof.
  unfold cell_edges_triplets, cell_edges_row, cell_edges_coefficient.
  rewrite Z.shiftl_1_l. apply Forall2_map_same.
  intros c Hc. apply elem_of_seqZ in Hc.
  split; [done|]. split; simpl.
  - apply corner_index_cell_corner. lia.
  - rewrite is_along_testbit by lia.
    destruct (Z.testbit c (Z.of_nat d)); simpl; ring.
Qed.

(** The rows of all dimensions from [a] on, written after the system [e]. *)
Lemma gradient_cell_edges_fold field gradient w num_dim index n a e :
  fold_left (gradient_cell_edges field gradient w num_dim index) (seq a n) e
  = {| triplets :=
         triplets e
         ++ flat_map
              (λ d, cell_edges_triplets field num_dim index
                      (rhs_size e + (Z.of_nat d - Z.of_nat a))
                      (w * 2 / inject_Z (Z.shiftl 1 (Z.of_nat num_dim)))%Q d
                      (seqZ 0 (Z.shiftl 1 (Z.of_nat num_dim))))
              (seq a n);
       rhs := rhs e ++ map (λ d, (w * nth d gradient 0)%Q) (seq a n) |}.
Proof.
  revert a e. induction n as [|n IH]; intros a e; simpl.
  - rewrite !app_nil_r. by destruct e.
  - rewrite IH, gradient_cell_edges_spec, rhs_size_append_row. simpl.
    rewrite <- !app_assoc. simpl. f_equal. f_equal.
    replace (rhs_size e + (Z.of_nat a - Z.of_nat a)) with (rhs_size e) by lia.
    f_equal. apply flat_map_ext. intros d. f_equal. lia.
Qed.

(** C8.  The cell-edges kernel: at a position where [cell_index] succeeds
    and with a nonzero weight [w], [add_gradient_constraint] appends, for
    each dimension [d] in order, one new row of exactly [2^N] triplets, one
    per corner [idx + Σ_a strides[a] * bit_a(c)], with coefficient
    [w * 2 / 2^N] when bit [d] of the corner is 1 and its opposite
    otherwise, and the entry [w * g[d]] of [rhs]. *)
Theorem cell_edges_rows field pos gradient w :
  ¬ (w == 0)%Q →
  0 ≤ cell_index field pos →
  ∃ field',
    add_gradient_constraint field pos gradient w kCellEdges = Some (true, field')
    ∧ sizes field' = sizes field
    ∧ strides field' = strides field
    ∧ Forall2 Triplet_equiv (triplets (eqn field'))
        (triplets (eqn field)
         ++ flat_map
              (λ d, cell_edges_row field w (cell_index field pos)
                      (rhs_size (eqn field) + Z.of_nat d) d)
              (seq 0 (length (sizes field))))
    ∧ rhs (eqn field')
      = rhs (eqn field)
        ++ map (λ d, (w * nth d gradient 0)%Q) (seq 0 (length (sizes field)))
    ∧ ∀ r d,
        Z.of_nat (length (cell_edges_row field w (cell_index field pos) r d))
        = 2 ^ Z.of_nat (length (sizes field)).
Proof.
  intros Hw Hidx. unfold add_gradient_constraint.
  apply Qeq_bool_false in Hw. rewrite Hw.
  destruct (Z.ltb_spec (cell_index field pos) 0) as [Hneg|_]; [lia|].
  eexists. split; [reflexivity|].
  rewrite gradient_cell_edges_fold. simpl.
  split; [done|]. split; [done|]. split; [|split; [done|]].
  - apply Forall2_app; [apply Forall2_Triplet_equiv_refl|].
    apply Forall2_flat_map_same. intros d _.
    replace (rhs_size (eqn field) + (Z.of_nat d - Z.of_nat 0))
      with (rhs_size (eqn field) + Z.of_nat d) by lia.
    apply cell_edges_triplets_row.
  - intros r d. unfold cell_edges_row. rewrite length_map, length_seqZ.
    rewrite Z2Nat.id; [done|]. apply Z.pow_nonneg. lia.
Qed.

(** Scenario S5: the cell of position (1, 1) on a 3 by 3 lattice; the
    coefficients are [2 / 4], which is [0.5]. *)
Lemma cell_edges_rows_witness :
  ∃ field',
    add_gradient_constraint (new_LatticeField [3; 3]) [1; 1]%Q [1; 0]%Q 1
      kCellEdges = Some (true, field')
    ∧ sizes field' = [3; 3]
    ∧ strides field' = [1; 3]
    ∧ Forall2 Triplet_equiv (triplets (eqn field'))
        [ mkTriplet 0 4 (-2 # 4); mkTriplet 0 5 (2 # 4);
          mkTriplet 0 7 (-2 # 4); mkTriplet 0 8 (2 # 4);
          mkTriplet 1 4 (-2 # 4); mkTriplet 1 5 (-2 # 4);
          mkTriplet 1 7 (2 # 4); mkTriplet 1 8 (2 # 4) ]
    ∧ rhs (eqn field') = [1 * 1; 1 * 0]%Q.
Proof.
  destruct (cell_edges_rows (new_LatticeField [3; 3]) [1; 1]%Q [1; 0]%Q 1)
    as (field' & Hrun & Hsizes & Hstrides & Hts & Hrhs & _).
  - intros H. discriminate H.
  - vm_compute. discriminate.
  - exists field'. split; [exact Hrun|]. split; [exact Hsizes|].
    split; [exact Hstrides|]. split; [exact Hts|exact Hrhs].
Defined.

(** ** Vectors indexed by an int *)

Lemma vec_get_in_range v i :
  0 ≤ i < Z.of_nat (length v) → vec_get v i = Some (vec_at v i).
Proof.
  intros Hi. unfold vec_at, vec_get.
  destruct (Z.leb_spec 0 i) as [_|]; [|lia].
  destruct (lookup_lt_is_Some_2 v (Z.to_nat i)) as [x Hx]; [lia|].
  by rewrite Hx.
Qed.

Lemma vec_set_in_range v i y :
  0 ≤ i < Z.of_nat (length v) → vec_set v i y = Some (<[Z.to_nat i := y]> v).
Proof.
  intros Hi. unfold vec_set.
  destruct (Z.leb_spec 0 i) as [_|]; [|lia].
  destruct (Z.ltb_spec i (Z.of_nat (length v))) as [_|]; [done|lia].
Qed.

Lemma vec_at_insert v i y r :
  0 ≤ i < Z.of_nat (length v) → 0 ≤ r →
  vec_at (<[Z.to_nat i := y]> v) r = if decide (i = r) then y else vec_at v r.
Proof.
  intros Hi Hr. unfold vec_at, vec_get.
  destruct (Z.leb_spec 0 r) as [_|]; [|lia].
  destruct (decide (i = r)) as [->|Hne].
  - rewrite list_lookup_insert_eq by lia. done.
  - rewrite list_lookup_insert_ne by lia. done.
Qed.

Lemma vec_at_map (f : Q → Q) v r :
  0 ≤ r < Z.of_nat (length v) → vec_at (map f v) r = f (vec_at v r).
Proof.
  intros Hr. unfold vec_at, vec_get.
  destruct (Z.leb_spec 0 r) as [_|]; [|lia].
  change (map f v) with (f <$> v). rewrite list_lookup_fmap.
  destruct (lookup_lt_is_Some_2 v (Z.to_nat r)) as [x Hx]; [lia|].
  by rewrite Hx.
Qed.

Lemma vec_at_replicate n r : vec_at (replicate n 0%Q) r = 0%Q.
Proof.
  unfold vec_at, vec_get. destruct (0 <=? r); [|done].
  destruct (replicate n 0%Q !! Z.to_nat r) as [x|] eqn:Hx; [|done].
  apply lookup_replicate in Hx. by destruct Hx as [-> _].
Qed.

Lemma vec_at_Forall (P : Q → Prop) v r :
  Forall P v → 0 ≤ r < Z.of_nat (length v) → P (vec_at v r).
Proof.
  intros HP Hr. pose proof (vec_get_in_range v r Hr) as Hget.
  unfold vec_get in Hget. destruct (0 <=? r); [|done].
  by eapply Forall_lookup_1.
Qed.

Lemma Forall_vec_at (P : Q → Prop) v :
  (∀ r, 0 ≤ r < Z.of_nat (length v) → P (vec_at v r)) → Forall P v.
Proof.
  intros HP. apply Forall_lookup_2. intros i x Hx.
  pose proof (lookup_lt_Some _ _ _ Hx) as Hi.
  specialize (HP (Z.of_nat i) ltac:(lia)).
  unfold vec_at, vec_get in HP.
  destruct (Z.leb_spec 0 (Z.of_nat i)) as [_|]; [|lia].
  rewrite Nat2Z.id, Hx in HP. done.
Qed.

Lemma Qsum_insert v i y :
  0 ≤ i < Z.of_nat (length v) →
  (Qsum (<[Z.to_nat i := (vec_at v i + y)%Q]> v) == Qsum v + y)%Q.
Proof.
  intros Hi. unfold vec_at, vec_get.
  destruct (Z.leb_spec 0 i) as [_|]; [|lia].
  assert (Z.to_nat i < length v)%nat as Hn by lia.
  generalize (Z.to_nat i) Hn. clear. intros n. revert n.
  induction v as [|x v IH]; intros n Hn; simpl in *; [lia|].
  destruct n as [|n]; simpl.
  - ring.
  - rewrite IH by lia. ring.
Qed.

(** ** The rows of a list of triplets *)

Lemma row_dot_cons t ts solution r :
  row_dot (t :: ts) solution r
  = if decide (row t = r)
    then (value t * vec_at solution (col t) + row_dot ts solution r)%Q
    else row_dot ts solution r.
Proof.
  unfold row_dot, triplets_of_row. rewrite filter_cons.
  by destruct (decide (row t = r)).
Qed.

Lemma row_energy_cons t ts r :
  row_energy (t :: ts) r
  = if decide (row t = r)
    then (value t * value t + row_energy ts r)%Q
    else row_energy ts r.
Proof.
  unfold row_energy, triplets_of_row. rewrite filter_cons.
  by destruct (decide (row t = r)).
Qed.

Lemma Qsquare_nonneg (x : Q) : (0 <= x * x)%Q.
Proof. nra. Qed.

Lemma Qsquare_pos (x : Q) : ¬ (x == 0)%Q → (0 < x * x)%Q.
Proof.
  intros Hnz. destruct (Q_dec x 0) as [[Hneg|Hpos]|Heq]; [nra..|contradiction].
Qed.

Lemma row_energy_nonneg ts r : (0 <= row_energy ts r)%Q.
Proof.
  induction ts as [|t ts IH]; [apply Qle_refl|].
  rewrite row_energy_cons. destruct (decide (row t = r)); [|done].
  pose proof (Qsquare_nonneg (value t)). lra.
Qed.

Lemma row_energy_pos ts r t :
  t ∈ ts → row t = r → ¬ (value t == 0)%Q → (0 < row_energy ts r)%Q.
Proof.
  intros Hin Hrow Hnz. induction ts as [|t' ts IH]; [by apply elem_of_nil in Hin|].
  rewrite row_energy_cons. apply elem_of_cons in Hin.
  pose proof (row_energy_nonneg ts r) as Hnn.
  destruct Hin as [<-|Hin].
  - rewrite decide_True by done.
    pose proof (Qsquare_pos (value t) Hnz). lra.
  - specialize (IH Hin). destruct (decide (row t' = r)); [|done].
    pose proof (Qsquare_nonneg (value t')). lra.
Qed.

(** ** generate_error_map: the two loops *)

Lemma error_map_accumulate_in_range solution row_errors sum_sq t :
  0 ≤ row t < Z.of_nat (length row_errors) →
  0 ≤ row t < Z.of_nat (length sum_sq) →
  0 ≤ col t < Z.of_nat (length solution) →
  error_map_accumulate solution (row_errors, sum_sq) t
  = Some (<[Z.to_nat (row t) :=
             (vec_at row_errors (row t)
              - vec_at solution (col t) * value t)%Q]> row_errors,
          <[Z.to_nat (row t) :=
             (vec_at sum_sq (row t) + value t * value t)%Q]> sum_sq).
Proof.
  intros Hre Hsq Hcol. unfold error_map_accumulate.
  rewrite (vec_get_in_range row_errors), (vec_get_in_range solution),
    (vec_get_in_range sum_sq) by done.
  cbn [mbind option_bind].
  rewrite (vec_set_in_range row_errors) by done. cbn [mbind option_bind].
  by rewrite (vec_set_in_range sum_sq) by done.
Qed.

Lemma error_map_blame_in_range row_errors sum_sq heatmap t :
  0 ≤ row t < Z.of_nat (length row_errors) →
  0 ≤ row t < Z.of_nat (length sum_sq) →
  0 ≤ col t < Z.of_nat (length heatmap) →
  error_map_blame row_errors sum_sq heatmap t
  = Some (if Qnonzero (vec_at sum_sq (row t))
          then <[Z.to_nat (col t) :=
                  (vec_at heatmap (col t)
                   + value t * value t / vec_at sum_sq (row t)
                     * vec_at row_errors (row t))%Q]> heatmap
          else heatmap).
Proof.
  intros Hre Hsq Hcol. unfold error_map_blame.
  rewrite (vec_get_in_range sum_sq) by done. cbn [mbind option_bind].
  destruct (Qnonzero (vec_at sum_sq (row t))); [|done].
  rewrite (vec_get_in_range row_errors), (vec_get_in_range heatmap) by done.
  cbn [mbind option_bind].
  by rewrite (vec_set_in_range heatmap) by done.
Qed.

Lemma error_map_accumulate_loop solution ts n row_errors0 sum_sq0 :
  triplets_in_range ts n (length solution) →
  length row_errors0 = n → length sum_sq0 = n →
  ∃ row_errors sum_sq,
    foldlM (error_map_accumulate solution) ts (row_errors0, sum_sq0)
    = Some (row_errors, sum_sq)
    ∧ length row_errors = n ∧ length sum_sq = n
    ∧ ∀ r, 0 ≤ r < Z.of_nat n →
           (vec_at row_errors r
            == vec_at row_errors0 r - row_dot ts solution r)%Q
           ∧ (vec_at sum_sq r == vec_at sum_sq0 r + row_energy ts r)%Q.
Proof.
  intros Hts. revert row_errors0 sum_sq0.
  induction Hts as [|t ts [Hrow Hcol] _ IH]; intros re0 sq0 Hre Hsq.
  - exists re0, sq0. repeat split; [done..| |].
    + unfold row_dot. simpl. ring.
    + unfold row_energy. simpl. ring.
  - cbn [foldlM]. rewrite error_map_accumulate_in_range by lia.
    cbn [mbind option_bind].
    destruct (IH (<[Z.to_nat (row t) :=
                     (vec_at re0 (row t)
                      - vec_at solution (col t) * value t)%Q]> re0)
                 (<[Z.to_nat (row t) :=
                     (vec_at sq0 (row t) + value t * value t)%Q]> sq0))
      as (re & sq & Hrun & Hlre & Hlsq & Hat).
    { by rewrite length_insert. }
    { by rewrite length_insert. }
    exists re, sq. split; [done|]. split; [done|]. split; [done|].
    intros r Hr. destruct (Hat r Hr) as [Hre_r Hsq_r].
    rewrite Hre_r, Hsq_r, !vec_at_insert by lia.
    rewrite row_dot_cons, row_energy_cons.
    destruct (decide (row t = r)) as [->|Hne]; split; ring.
Qed.

Lemma error_map_blame_loop row_errors sum_sq ts n m heatmap0 :
  triplets_in_range ts n m →
  length row_errors = n → length sum_sq = n → length heatmap0 = m →
  ∃ heatmap,
    foldlM (error_map_blame row_errors sum_sq) ts heatmap0 = Some heatmap
    ∧ length heatmap = m
    ∧ (Forall (λ x, (0 <= x)%Q) row_errors →
       Forall (λ x, (0 <= x)%Q) sum_sq →
       Forall (λ x, (0 <= x)%Q) heatmap0 →
       Forall (λ x, (0 <= x)%Q) heatmap)
    ∧ (Qsum heatmap
       == Qsum heatmap0 + Qsum (map (blame row_errors sum_sq) ts))%Q.
Proof.
  intros Hts Hre Hsq. revert heatmap0.
  induction Hts as [|t ts [Hrow Hcol] _ IH]; intros h0 Hh.
  - exists h0. repeat split; [done..|]. simpl. ring.
  - cbn [foldlM]. rewrite (error_map_blame_in_range _ _ h0) by lia.
    cbn [mbind option_bind map Qsum].
    destruct (Qnonzero (vec_at sum_sq (row t))) eqn:Hnz.
    + destruct (IH (<[Z.to_nat (col t) :=
                       (vec_at h0 (col t)
                        + value t * value t / vec_at sum_sq (row t)
                          * vec_at row_errors (row t))%Q]> h0))
        as (h & Hrun & Hlen & Hnn & Hsum).
      { by rewrite length_insert. }
      exists h. split; [done|]. split; [done|]. split.
      * intros Hre_nn Hsq_nn Hh_nn. apply Hnn; [done..|].
        apply Forall_insert; [done|].
        pose proof (vec_at_Forall _ h0 (col t) Hh_nn ltac:(lia)) as H1.
        pose proof (vec_at_Forall _ sum_sq (row t) Hsq_nn ltac:(lia)) as H2.
        pose proof (vec_at_Forall _ row_errors (row t) Hre_nn ltac:(lia)) as H3.
        simpl in H1, H2, H3.
        assert (0 <= value t * value t / vec_at sum_sq (row t)
                     * vec_at row_errors (row t))%Q; [|lra].
        apply Qmult_le_0_compat; [|done].
        apply Qmult_le_0_compat; [apply Qsquare_nonneg|].
        by apply Qinv_le_0_compat.
      * rewrite Hsum, Qsum_insert by lia. unfold blame at 2. rewrite Hnz. ring.
    + destruct (IH h0 Hh) as (h & Hrun & Hlen & Hnn & Hsum).
      exists h. split; [done|]. split; [done|]. split; [done|].
      rewrite Hsum. unfold blame at 2. rewrite Hnz. ring.
Qed.

(** C10.  For triplets whose rows lie in [rhs] and whose columns lie in
    the solution vector, [generate_error_map] returns a vector as long as
    the solution vector, with nonnegative entries.  Rows and columns are
    indices: they are not negative. *)
Theorem error_map_shape_nonneg ts solution rhs :
  triplets_in_range ts (length rhs) (length solution) →
  ∃ heatmap,
    generate_error_map ts solution rhs = Some heatmap
    ∧ length heatmap = length solution
    ∧ Forall (λ x, (0 <= x)%Q) heatmap.
Proof.
  intros Hts. unfold generate_error_map.
  destruct (error_map_accumulate_loop solution ts (length rhs) rhs
              (replicate (length rhs) 0%Q) Hts)
    as (re & sq & -> & Hlre & Hlsq & Hat); [done|apply length_replicate|].
  cbn [mbind option_bind fst snd].
  destruct (error_map_blame_loop (map (λ error, (error * error)%Q) re) sq ts
              (length rhs) (length solution)
              (replicate (length solution) 0%Q) Hts)
    as (h & -> & Hlen & Hnn & _);
    [by rewrite length_map|done|apply length_replicate|].
  exists h. split; [done|]. split; [done|]. apply Hnn.
  - apply Forall_forall. intros x Hx.
    apply list_elem_of_In, in_map_iff in Hx. destruct Hx as (e & <- & _).
    apply Qsquare_nonneg.
  - apply Forall_vec_at. intros r Hr. rewrite Hlsq in Hr.
    destruct (Hat r Hr) as [_ ->]. rewrite vec_at_replicate.
    pose proof (row_energy_nonneg ts r). lra.
  - apply Forall_forall. intros x Hx.
    apply elem_of_replicate in Hx. destruct Hx as [-> _]. apply Qle_refl.
Qed.

(** Scenario S6. *)
Lemma error_map_shape_nonneg_witness :
  ∃ heatmap,
    generate_error_map [mkTriplet 0 0 1; mkTriplet 0 1 1] [0; 0]%Q [2%Q]
    = Some heatmap
    ∧ length heatmap = 2%nat
    ∧ Forall (λ x, (0 <= x)%Q) heatmap.
Proof.
  apply (error_map_shape_nonneg [mkTriplet 0 0 1; mkTriplet 0 1 1] [0; 0]%Q
           [2%Q]).
  repeat constructor; simpl; lia.
Defined.

(** ** Conservation of the squared error *)

Lemma Qsum_replicate_zero n : (Qsum (replicate n 0%Q) == 0)%Q.
Proof. induction n as [|n IH]; simpl; [reflexivity|]. rewrite IH. ring. Qed.

Lemma Qsum_map_plus {A} (f g : A → Q) l :
  (Qsum (map (λ a, f a + g a) l) == Qsum (map f l) + Qsum (map g l))%Q.
Proof.
  induction l as [|a l IH]; simpl; [ring|]. rewrite IH. ring.
Qed.

Lemma Qsum_map_zero {A} (l : list A) : (Qsum (map (λ _, 0%Q) l) == 0)%Q.
Proof. induction l as [|a l IH]; simpl; [reflexivity|]. rewrite IH. ring. Qed.

(** A sum over distinct indices of a term that is zero except at [i]. *)
Lemma Qsum_indicator (i : Z) (y : Q) l :
  NoDup l → i ∈ l →
  (Qsum (map (λ r, if decide (i = r) then y else 0%Q) l) == y)%Q.
Proof.
  induction 1 as [|r l Hr _ IH]; intros Hi; [by apply elem_of_nil in Hi|].
  simpl. destruct (decide (i = r)) as [->|Hne].
  - rewrite (Qsum_map_ext _ (λ _, 0%Q)); [rewrite Qsum_map_zero; ring|].
    intros r' Hr'. destruct (decide (r = r')) as [->|]; [done|reflexivity].
  - apply elem_of_cons in Hi. destruct Hi as [|Hi]; [done|].
    rewrite IH by done. ring.
Qed.

(** A sum over the triplets is the sum, over the rows, of the sums over the
    triplets of each row. *)
Lemma Qsum_by_rows (F : Triplet → Q) ts n :
  Forall (λ t, 0 ≤ row t < n) ts →
  (Qsum (map F ts)
   == Qsum (map (λ r, Qsum (map F (triplets_of_row ts r))) (seqZ 0 n)))%Q.
Proof.
  induction 1 as [|t ts Ht _ IH]; simpl.
  - by rewrite Qsum_map_zero.
  - rewrite (Qsum_map_ext _
               (λ r, (if decide (row t = r) then F t else 0)
                     + Qsum (map F (triplets_of_row ts r)))%Q).
    2:{ intros r _. unfold triplets_of_row. rewrite filter_cons.
        destruct (decide (row t = r)); simpl; ring. }
    rewrite Qsum_map_plus, <- IH.
    rewrite Qsum_indicator; [reflexivity|apply NoDup_seqZ|].
    apply elem_of_seqZ. lia.
Qed.

Lemma triplets_in_range_rows ts n m :
  triplets_in_range ts n m → Forall (λ t, 0 ≤ row t < Z.of_nat n) ts.
Proof. intros H. eapply Forall_impl; [exact H|]. by intros t [? _]. Qed.

(** C6.  Conservation: when every row of [rhs] has a triplet with a nonzero
    coefficient, the entries of the heatmap returned by
    [generate_error_map] sum to the sum over the rows of the squared
    residual [rhs[r] − Σ v·x[c]].  The triplets index [rhs] and the
    solution vector inside their bounds. *)
Theorem error_map_conservation ts solution rhs :
  triplets_in_range ts (length rhs) (length solution) →
  (∀ r, 0 ≤ r < Z.of_nat (length rhs) →
        ∃ t, t ∈ ts ∧ row t = r ∧ ¬ (value t == 0)%Q) →
  ∃ heatmap,
    generate_error_map ts solution rhs = Some heatmap
    ∧ (Qsum heatmap == sum_squared_residuals ts solution rhs)%Q.
Proof.
  intros Hts Hrows. unfold generate_error_map.
  destruct (error_map_accumulate_loop solution ts (length rhs) rhs
              (replicate (length rhs) 0%Q) Hts)
    as (re & sq & -> & Hlre & Hlsq & Hat); [done|apply length_replicate|].
  cbn [mbind option_bind fst snd].
  destruct (error_map_blame_loop (map (λ error, (error * error)%Q) re) sq ts
              (length rhs) (length solution)
              (replicate (length solution) 0%Q) Hts)
    as (h & -> & _ & _ & Hsum);
    [by rewrite length_map|done|apply length_replicate|].
  exists h. split; [done|].
  rewrite Hsum, Qsum_replicate_zero. unfold sum_squared_residuals.
  assert (∀ r, 0 ≤ r < Z.of_nat (length rhs) → (0 < row_energy ts r)%Q) as Hpos.
  { intros r Hr. destruct (Hrows r Hr) as (t & Hin & Hrow & Hnz).
    by eapply row_energy_pos. }
  rewrite (Qsum_map_ext _
             (λ t, value t * value t
                   * (/ row_energy ts (row t)
                      * (residual ts solution rhs (row t)
                         * residual ts solution rhs (row t))))%Q).
  2:{ intros t Hin.
      pose proof (proj1 (Forall_forall _ _) (triplets_in_range_rows _ _ _ Hts)
                    t Hin) as Hr.
      simpl in Hr. destruct (Hat _ Hr) as [Hre_r Hsq_r].
      rewrite vec_at_replicate in Hsq_r. specialize (Hpos _ Hr).
      unfold blame.
      assert (Qnonzero (vec_at sq (row t)) = true) as ->.
      { apply Qnonzero_true. lra. }
      rewrite vec_at_map by lia. rewrite Hre_r, Hsq_r.
      unfold residual. field. lra. }
  rewrite (Qsum_by_rows _ ts (Z.of_nat (length rhs)))
    by (by eapply triplets_in_range_rows).
  rewrite Qplus_0_l. apply Qsum_map_ext. intros r Hr.
  apply elem_of_seqZ in Hr. specialize (Hpos r ltac:(lia)).
  rewrite (Qsum_map_ext _
             (λ t, value t * value t
                   * (/ row_energy ts r
                      * (residual ts solution rhs r
                         * residual ts solution rhs r)))%Q).
  2:{ intros t Hin. unfold triplets_of_row in Hin.
      apply list_elem_of_filter in Hin. destruct Hin as [-> _]. reflexivity. }
  rewrite Qsum_map_scale. fold (row_energy ts r). field. lra.
Qed.

(** Scenario S6: the heatmap sums to the squared residual 4 of its row. *)
Lemma error_map_conservation_witness :
  ∃ heatmap,
    generate_error_map [mkTriplet 0 0 1; mkTriplet 0 1 1] [0; 0]%Q [2%Q]
    = Some heatmap
    ∧ (Qsum heatmap
       == sum_squared_residuals [mkTriplet 0 0 1; mkTriplet 0 1 1] [0; 0]%Q
            [2%Q])%Q.
Proof.
  apply (error_map_conservation [mkTriplet 0 0 1; mkTriplet 0 1 1] [0; 0]%Q
           [2%Q]).
  - repeat constructor; simpl; lia.
  - intros r Hr. exists (mkTriplet 0 0 1). simpl in Hr.
    split; [left|]. split; [simpl; lia|]. intros H. discriminate H.
Defined.

(** ** Finite differences of polynomials *)

Lemma stencil_sum_ext k (f g : Z → Q) :
  (∀ j, 0 ≤ j ≤ Z.of_nat k → (f j == g j)%Q) →
  (stencil_sum k f == stencil_sum k g)%Q.
Proof.
  intros Hfg. unfold stencil_sum.
  destruct k as [|[|[|[|[|k]]]]]; simpl; [| | | | |reflexivity].
  all: rewrite ?(Hfg 0), ?(Hfg 1), ?(Hfg 2), ?(Hfg 3), ?(Hfg 4) by lia;
    reflexivity.
Qed.

Lemma stencil_sum_plus k (f g : Z → Q) :
  (stencil_sum k (λ j, f j + g j) == stencil_sum k f + stencil_sum k g)%Q.
Proof. unfold stencil_sum. by rewrite <- Qsum_map_plus; apply Qsum_map_ext; intros; ring. Qed.

Lemma stencil_sum_scale k (f : Z → Q) (c : Q) :
  (stencil_sum k (λ j, f j * c) == stencil_sum k f * c)%Q.
Proof.
  unfold stencil_sum. rewrite <- Qsum_map_scale.
  apply Qsum_map_ext. intros; ring.
Qed.

Lemma stencil_sum_zero k : (stencil_sum k (λ _, 0) == 0)%Q.
Proof.
  unfold stencil_sum. rewrite <- (Qsum_map_zero (stencil k)).
  apply Qsum_map_ext. intros; ring.
Qed.

(** The stencil of order [k] annihilates the powers below [k]. *)
Lemma stencil_sum_pow k a x :
  (k ≤ 4)%nat → (a < k)%nat →
  (stencil_sum k (λ j, Qpow (inject_Z (x + j)) a) == 0)%Q.
Proof.
  intros Hk Ha. unfold stencil_sum.
  destruct k as [|[|[|[|[|k]]]]]; [lia| | | | |lia].
  all: destruct a as [|[|[|[|a]]]]; try lia.
  all: cbn [stencil map Qsum Qpow fst snd]; rewrite ?inject_Z_plus;
    change (inject_Z 0) with 0%Q; change (inject_Z 1) with 1%Q;
    change (inject_Z 2) with 2%Q; change (inject_Z 3) with 3%Q;
    change (inject_Z 4) with 4%Q; ring.
Qed.

(** The value of a monomial is a power of coordinate [d] times a factor
    that does not depend on coordinate [d]. *)
Lemma eval_powers_insert expo c d :
  (d < length c)%nat →
  ∃ R, ∀ y, (eval_powers expo (<[d := y]> c)
              == Qpow (inject_Z y) (nth d expo 0%nat) * R)%Q.
Proof.
  revert c d. induction expo as [|a expo IH]; intros c d Hd.
  - exists 1%Q. intros y. destruct c; [simpl in Hd; lia|].
    destruct d; simpl; ring.
  - destruct c as [|x c]; [simpl in Hd; lia|].
    destruct d as [|d].
    + exists (eval_powers expo c). intros y. simpl. reflexivity.
    + destruct (IH c d) as [R HR]; [simpl in Hd; lia|].
      exists (Qpow (inject_Z x) a * R)%Q. intros y. simpl.
      rewrite HR. ring.
Qed.

Lemma list_sum_nth_le l d : (nth d l 0 ≤ list_sum l)%nat.
Proof.
  revert d. induction l as [|a l IH]; intros d; destruct d; simpl; try lia.
  specialize (IH d). lia.
Qed.

Lemma stencil_sum_poly k p (c : list Z) d (x : Z) :
  (k ≤ 4)%nat → degree_lt k p → (d < length c)%nat →
  (stencil_sum k (λ j, eval_poly p (<[d := (x + j)%Z]> c)) == 0)%Q.
Proof.
  intros Hk Hdeg Hd. induction Hdeg as [|m p Hm _ IH].
  - apply stencil_sum_zero.
  - unfold eval_poly. cbn [map Qsum]. rewrite stencil_sum_plus.
    fold (eval_poly p). rewrite IH, Qplus_0_r.
    destruct (eval_powers_insert (mono_expo m) c d Hd) as [R HR].
    rewrite (stencil_sum_ext _ _
               (λ j, Qpow (inject_Z (x + j)) (nth d (mono_expo m) 0%nat)
                     * (mono_coef m * R))%Q).
    2:{ intros j _. unfold eval_monomial. rewrite HR. ring. }
    rewrite stencil_sum_scale, stencil_sum_pow; [ring|done|].
    pose proof (list_sum_nth_le (mono_expo m) d). lia.
Qed.

(** ** Indices and coordinates *)

Lemma fold_left_mul_Zprod l x :
  fold_left (λ num_unknowns dimension_size, num_unknowns * dimension_size) l x
  = x * Zprod l.
Proof.
  revert x. induction l as [|a l IH]; intros x; simpl; [lia|].
  rewrite IH. lia.
Qed.

Lemma num_unknowns_of_Zprod sizes : num_unknowns_of sizes = Zprod sizes.
Proof. unfold num_unknowns_of. rewrite fold_left_mul_Zprod. lia. Qed.

Lemma strides_from_scale stride sizes d :
  nth d (strides_from stride sizes) 0 = stride * nth d (strides_from 1 sizes) 0.
Proof.
  revert stride d. induction sizes as [|s sizes IH]; intros stride d.
  - destruct d; simpl; lia.
  - destruct d as [|d]; simpl; [lia|].
    rewrite IH, (IH (1 * s)). lia.
Qed.

Lemma stride_nonneg sizes d :
  Forall (λ s, 1 ≤ s) sizes → 0 ≤ nth d (strides_from 1 sizes) 0.
Proof.
  intros Hs. revert d. induction Hs as [|s sizes Hs1 _ IH]; intros d.
  - destruct d; simpl; lia.
  - destruct d as [|d]; simpl; [lia|].
    rewrite strides_from_scale. specialize (IH d). nia.
Qed.

Lemma coordinate_from_index_loop_length sizes index :
  length (coordinate_from_index_loop sizes index) = length sizes.
Proof.
  revert index. induction sizes as [|s sizes IH]; intros index; simpl; [done|].
  by rewrite IH.
Qed.

Lemma coordinate_from_index_loop_cons s sizes index :
  0 ≤ index → 1 ≤ s →
  coordinate_from_index_loop (s :: sizes) index
  = index mod s :: coordinate_from_index_loop sizes (index / s).
Proof.
  intros Hi Hs. simpl.
  by rewrite Z.rem_mod_nonneg, Z.quot_div_nonneg by lia.
Qed.

(** Moving [j] steps along dimension [d] inside the lattice adds
    [j * strides[d]] to the index and [j] to coordinate [d], and stays
    below the number of cells. *)
Lemma coordinate_shift sizes index d j :
  Forall (λ s, 1 ≤ s) sizes →
  0 ≤ index < Zprod sizes →
  (d < length sizes)%nat →
  0 ≤ j →
  nth d (coordinate_from_index_loop sizes index) 0 + j < nth d sizes 0 →
  coordinate_from_index_loop sizes (index + j * nth d (strides_from 1 sizes) 0)
  = <[d := nth d (coordinate_from_index_loop sizes index) 0 + j]>
      (coordinate_from_index_loop sizes index)
  ∧ 0 ≤ index + j * nth d (strides_from 1 sizes) 0 < Zprod sizes.
Proof.
  intros Hs. revert index d.
  induction Hs as [|s sizes Hs1 Hs IH]; intros index d Hi Hd Hj Hfit;
    [simpl in Hd; lia|].
  cbn [Zprod] in Hi.
  assert (0 ≤ index / s < Zprod sizes) as Hq.
  { split; [apply Z.div_pos; lia|apply Z.div_lt_upper_bound; lia]. }
  pose proof (Z.mod_pos_bound index s ltac:(lia)) as Hr.
  pose proof (Z.div_mod index s ltac:(lia)) as Hdm.
  rewrite coordinate_from_index_loop_cons in Hfit by lia.
  rewrite (coordinate_from_index_loop_cons s sizes index) by lia.
  destruct d as [|d]; cbn [nth strides_from] in *.
  - assert (0 ≤ index + j * 1) as Hnn by lia.
    rewrite coordinate_from_index_loop_cons by lia.
    assert ((index + j * 1) / s = index / s) as ->.
    { symmetry. apply (Z.div_unique _ _ _ (index mod s + j)); lia. }
    assert ((index + j * 1) mod s = index mod s + j) as ->.
    { symmetry. apply (Z.mod_unique _ _ (index / s)); lia. }
    split; [done|]. cbn [Zprod]. nia.
  - rewrite strides_from_scale.
    pose proof (stride_nonneg sizes d Hs) as Hst.
    set (st := nth d (strides_from 1 sizes) 0) in *.
    destruct (IH (index / s) d) as [Hco Hrange];
      [done|simpl in Hd; lia|done|done|].
    fold st in Hco, Hrange.
    assert (0 ≤ index + j * (1 * s * st)) as Hnn by nia.
    rewrite coordinate_from_index_loop_cons by lia.
    replace (index + j * (1 * s * st)) with (index + (j * st) * s) by lia.
    rewrite Z.div_add, Z.mod_add by lia.
    rewrite Hco. split; [done|]. cbn [Zprod]. nia.
Qed.

Lemma vec_at_map_seqZ (f : Z → Q) n i :
  0 ≤ i < n → vec_at (map f (seqZ 0 n)) i = f i.
Proof.
  intros Hi. unfold vec_at, vec_get.
  destruct (Z.leb_spec 0 i) as [_|]; [|lia].
  change (map f (seqZ 0 n)) with (f <$> seqZ 0 n).
  rewrite list_lookup_fmap, lookup_seqZ_lt by lia. simpl.
  f_equal. lia.
Qed.

(** The sampled field, read at the cell [j] steps along dimension [d]. *)
Lemma sample_polynomial_shift sizes p index d j :
  Forall (λ s, 1 ≤ s) sizes →
  0 ≤ index < Zprod sizes →
  (d < length sizes)%nat →
  0 ≤ j →
  nth d (coordinate_from_index_loop sizes index) 0 + j < nth d sizes 0 →
  vec_at (sample_polynomial sizes p)
    (index + j * nth d (strides_from 1 sizes) 0)
  = eval_poly p
      (<[d := nth d (coordinate_from_index_loop sizes index) 0 + j]>
         (coordinate_from_index_loop sizes index)).
Proof.
  intros Hs Hi Hd Hj Hfit.
  destruct (coordinate_shift sizes index d j) as [Hco Hrange]; [done..|].
  unfold sample_polynomial. rewrite num_unknowns_of_Zprod.
  rewrite vec_at_map_seqZ by done. by rewrite Hco.
Qed.

(** ** Rows of zero residual *)

Lemma filter_row_above ts n r :
  Forall (λ t, 0 ≤ row t < n) ts → n ≤ r → filter (λ t, row t = r) ts = [].
Proof.
  intros Hts Hr. induction Hts as [|t ts Ht _ IH]; [done|].
  rewrite filter_cons, decide_False by lia. apply IH.
Qed.

Lemma filter_row_same ts r :
  Forall (λ t, row t = r) ts → filter (λ t, row t = r) ts = ts.
Proof.
  induction 1 as [|t ts Ht _ IH]; [done|].
  rewrite filter_cons, decide_True by done. by rewrite IH.
Qed.

Lemma filter_row_other ts r r' :
  Forall (λ t, row t = r') ts → r ≠ r' → filter (λ t, row t = r) ts = [].
Proof.
  intros Hts Hr. induction Hts as [|t ts Ht _ IH]; [done|].
  rewrite filter_cons, decide_False by lia. apply IH.
Qed.

Lemma vec_at_app_l v w r :
  0 ≤ r < Z.of_nat (length v) → vec_at (v ++ w) r = vec_at v r.
Proof.
  intros Hr. unfold vec_at, vec_get. destruct (0 <=? r); [|done].
  by rewrite lookup_app_l by lia.
Qed.

Lemma vec_at_app_last v y : vec_at (v ++ [y]) (Z.of_nat (length v)) = y.
Proof.
  unfold vec_at, vec_get. destruct (Z.leb_spec 0 (Z.of_nat (length v))); [|lia].
  rewrite Nat2Z.id, lookup_app_r by lia. by rewrite Nat.sub_diag.
Qed.

Lemma append_row_in_range e ts y :
  rows_in_range e → Forall (λ t, row t = rhs_size e) ts →
  rows_in_range (append_row e ts y).
Proof.
  intros Hrange Hrows. unfold rows_in_range in *.
  rewrite rhs_size_append_row. simpl. apply Forall_app. split.
  - eapply Forall_impl; [exact Hrange|]. simpl. lia.
  - eapply Forall_impl; [exact Hrows|]. simpl. unfold rhs_size. lia.
Qed.

Lemma null_rows_append_row solution e ts y :
  null_rows solution e →
  Forall (λ t, row t = rhs_size e) ts →
  (y - Qsum (map (λ t, value t * vec_at solution (col t)) ts) == 0)%Q →
  null_rows solution (append_row e ts y).
Proof.
  intros [Hrange Hnull] Hrows Hy. split; [by apply append_row_in_range|].
  intros r. rewrite rhs_size_append_row. intros Hr.
  unfold residual, row_dot, triplets_of_row. simpl.
  rewrite filter_app, map_app, Qsum_app.
  destruct (decide (r = rhs_size e)) as [->|Hne].
  - rewrite (filter_row_above _ (rhs_size e)) by (done || lia).
    rewrite filter_row_same by done.
    unfold rhs_size at 1. rewrite vec_at_app_last. simpl.
    by rewrite Qplus_0_l.
  - rewrite (filter_row_other ts r (rhs_size e)) by done.
    rewrite vec_at_app_l by (unfold rhs_size in *; lia).
    specialize (Hnull r ltac:(lia)).
    unfold residual, row_dot, triplets_of_row in Hnull.
    simpl. by rewrite Qplus_0_r.
Qed.

Lemma equation_triplets_dot solution r weight pairs :
  (Qsum (map (λ t, value t * vec_at solution (col t))
           (equation_triplets r weight pairs))
   == weight * pairs_dot solution pairs)%Q.
Proof.
  unfold equation_triplets, pairs_dot.
  induction pairs as [|pair pairs IH]; simpl; [ring|].
  rewrite filter_cons. destruct (Qnonzero (coefficient pair)) eqn:Hnz.
  - rewrite decide_True by done. simpl. rewrite IH. ring.
  - rewrite decide_False by done. rewrite IH.
    apply Qnonzero_false in Hnz. rewrite Hnz. ring.
Qed.

Lemma null_rows_add_equation solution e weight rhs_value pairs :
  null_rows solution e →
  (rhs_value - pairs_dot solution pairs == 0)%Q →
  null_rows solution (add_equation e weight rhs_value pairs).
Proof.
  intros Hnull Hdot. rewrite add_equation_spec.
  destruct (Qeq_bool weight 0); [done|].
  pose proof (equation_triplets_rows (rhs_size e) weight pairs) as Hrows.
  pose proof (equation_triplets_dot solution (rhs_size e) weight pairs) as Hts.
  destruct (equation_triplets (rhs_size e) weight pairs) as [|t ts]; [done|].
  apply null_rows_append_row; [done..|].
  rewrite Hts.
  assert (rhs_value * weight - weight * pairs_dot solution pairs
          == weight * (rhs_value - pairs_dot solution pairs))%Q as -> by ring.
  rewrite Hdot. ring.
Qed.

Lemma null_rows_stage solution e weight (c1 c2 : bool) pairs :
  null_rows solution e →
  (Qpositive weight = true → c1 = true → c2 = true →
   (pairs_dot solution pairs == 0)%Q) →
  null_rows solution
    (if Qpositive weight && c1 && c2 then add_equation e weight 0 pairs else e).
Proof.
  intros Hnull Hdot.
  destruct (Qpositive weight); [|done]. destruct c1; [|done].
  destruct c2; [|done]. simpl.
  apply null_rows_add_equation; [done|]. rewrite Hdot by done. ring.
Qed.

(** ** The model constraints and sampled polynomials *)

Section model_null_space.
Context (dims : list Z) (weights : Weights) (p : list monomial).
Hypothesis dims_positive : Forall (λ s, 1 ≤ s) dims.
Hypothesis active_orders :
  ∀ j, (j ≤ 4)%nat → Qpositive (model_weight weights j) = true → degree_lt j p.
Hypothesis no_gradient_smoothness :
  Qpositive (gradient_smoothness weights) = false.

#[local] Abbreviation solution := (sample_polynomial dims p).

(** The stencil of an active order, laid along dimension [d] from a cell
    where it fits, vanishes on the sampled polynomial. *)
Lemma stencil_sum_sampled j index d :
  (j ≤ 4)%nat →
  Qpositive (model_weight weights j) = true →
  0 ≤ index < Zprod dims →
  (d < length dims)%nat →
  0 ≤ nth d (coordinate_from_index_loop dims index) 0 →
  nth d (coordinate_from_index_loop dims index) 0 + Z.of_nat j < nth d dims 0 →
  (stencil_sum j
     (λ i, vec_at solution (index + i * nth d (strides_from 1 dims) 0)%Z)
   == 0)%Q.
Proof using dims_positive active_orders.
  intros Hj Hpos Hi Hd _ Hfit.
  rewrite (stencil_sum_ext _ _
             (λ i, eval_poly p
                     (<[d := nth d (coordinate_from_index_loop dims index) 0 + i]>
                        (coordinate_from_index_loop dims index)))).
  - apply stencil_sum_poly; [done|by apply active_orders|].
    by rewrite coordinate_from_index_loop_length.
  - intros i Hi_range. rewrite sample_polynomial_shift by (done || lia).
    reflexivity.
Qed.

Ltac stencil_stage j :=
  let Hw := fresh "Hw" in
  let H0 := fresh "H0" in
  let Hfit := fresh "Hfit" in
  intros Hw H0 Hfit;
  apply Z.leb_le in H0; apply Z.ltb_lt in Hfit;
  etransitivity;
    [|apply (stencil_sum_sampled j); [lia|exact Hw|eassumption..|lia]];
  unfold pairs_dot, stencil_sum;
  cbn [map Qsum fst snd coefficient column stencil];
  rewrite ?Z.mul_0_l, ?Z.add_0_r; ring.

(** One call of [add_model_constraint], at the coordinate of its index. *)
Lemma add_model_constraint_null field index d :
  sizes field = dims →
  strides field = strides_from 1 dims →
  0 ≤ index < Zprod dims →
  (d < length dims)%nat →
  null_rows solution (eqn field) →
  null_rows solution
    (eqn (add_model_constraint field weights
            (coordinate_from_index_loop dims index) index d)).
Proof using dims_positive active_orders no_gradient_smoothness.
  intros Hsizes Hstrides Hi Hd Hnull.
  unfold add_model_constraint. rewrite Hsizes, Hstrides.
  rewrite no_gradient_smoothness. cbn [andb set_eqn eqn].
  apply null_rows_stage; [|stencil_stage 4%nat].
  apply null_rows_stage; [|stencil_stage 3%nat].
  apply null_rows_stage; [|stencil_stage 2%nat].
  apply null_rows_stage; [|stencil_stage 1%nat].
  apply null_rows_stage; [done|stencil_stage 0%nat].
Qed.

Lemma fold_left_invariant {A B} (I : B → Prop) (g : B → A → B) l b :
  (∀ b a, a ∈ l → I b → I (g b a)) → I b → I (fold_left g l b).
Proof using Type.
  revert b. induction l as [|a l IH]; intros b Hg Hb; simpl; [done|].
  apply IH.
  - intros b' a' Ha'. apply Hg. by right.
  - apply Hg; [left|done].
Qed.

Lemma add_field_constraints_null field :
  sizes field = dims →
  strides field = strides_from 1 dims →
  null_rows solution (eqn field) →
  null_rows solution (eqn (add_field_constraints field weights)).
Proof using dims_positive active_orders no_gradient_smoothness.
  intros Hsizes Hstrides Hnull.
  unfold add_field_constraints.
  apply (fold_left_invariant
           (λ f, sizes f = dims ∧ strides f = strides_from 1 dims
                 ∧ null_rows solution (eqn f))); [|done].
  intros f index Hindex (Hs & Ht & Hn).
  apply elem_of_seqZ in Hindex.
  rewrite Hsizes, num_unknowns_of_Zprod in Hindex.
  unfold add_field_constraints_cell, coordinate_from_index. rewrite Hs.
  apply (fold_left_invariant
           (λ f, sizes f = dims ∧ strides f = strides_from 1 dims
                 ∧ null_rows solution (eqn f))); [|done].
  intros f' d Hd (Hs' & Ht' & Hn').
  apply list_elem_of_In, in_seq in Hd.
  split; [done|]. split; [done|].
  apply add_model_constraint_null; [done..|lia|lia|done].
Qed.
End model_null_space.

Lemma new_LatticeField_null solution sizes :
  null_rows solution (eqn (new_LatticeField sizes)).
Proof.
  split; [constructor|]. intros r. unfold rhs_size. simpl. lia.
Qed.

Lemma only_model_active k weights p :
  only_model k weights → degree_lt k p →
  ∀ j, (j ≤ 4)%nat → Qpositive (model_weight weights j) = true → degree_lt j p.
Proof.
  intros (_ & _ & Hothers & _) Hdeg j _ Hpos.
  destruct (decide (j = k)) as [->|Hne]; [done|].
  apply Qpositive_true in Hpos. rewrite (Hothers j Hne) in Hpos.
  by apply Qlt_irrefl in Hpos.
Qed.

(** C7.  Finite-difference null space: for [k] from 0 to 4, when the field
    constraints are assembled with only [model_k] positive, every
    polynomial of degree below [k], sampled at the coordinates of the
    lattice, has zero residual on every assembled row.  The sizes of the
    lattice are at least 1. *)
Theorem model_null_space sizes weights k p :
  Forall (λ s, 1 ≤ s) sizes →
  only_model k weights →
  degree_lt k p →
  let field := add_field_constraints (new_LatticeField sizes) weights in
  ∀ r, 0 ≤ r < Z.of_nat (length (rhs (eqn field))) →
       (residual (triplets (eqn field)) (sample_polynomial sizes p)
          (rhs (eqn field)) r == 0)%Q.
Proof.
  intros Hsizes Honly Hdeg field.
  apply (add_field_constraints_null sizes weights p); [done| | |done..|].
  - by apply only_model_active with k.
  - destruct Honly as (_ & _ & _ & Hgs). by apply Qpositive_false; rewrite Hgs.
  - apply new_LatticeField_null.
Qed.

(** Scenario S3, with the polynomial [3 + 2 x]: the two rows of the second
    differences vanish on it. *)
Lemma model_null_space_witness :
  let weights := mkWeights 0 0 0 0 1 0 0 0 kNearestNeighbor in
  let p := [mkMonomial 3 []; mkMonomial 2 [1%nat]] in
  let field := add_field_constraints (new_LatticeField [4]) weights in
  length (rhs (eqn field)) = 2%nat
  ∧ ∀ r, 0 ≤ r < 2 →
         (residual (triplets (eqn field)) (sample_polynomial [4%Z] p)
            (rhs (eqn field)) r == 0)%Q.
Proof.
  intros weights p field. split; [reflexivity|].
  apply (model_null_space [4] weights 2 p).
  - constructor; [lia|constructor].
  - split; [lia|]. split; [reflexivity|]. split; [|reflexivity].
    intros [|[|[|[|[|j]]]]] Hj; try reflexivity. by destruct Hj.
  - repeat constructor; simpl; lia.
Defined.

(** ** The scenarios of the spec, run on the embedding *)

Example S2_system kernel :
  ∃ field,
    sdf_from_points [5] (S1_weights kernel) 1 [9 # 4]%Q None None = Some field
    ∧ Forall2 Triplet_equiv (triplets (eqn field))
        [mkTriplet 0 2 (3 # 4); mkTriplet 0 3 (1 # 4)]
    ∧ Forall2 Qeq (rhs (eqn field)) [0%Q].
Proof.
  destruct kernel; (eexists; split; [vm_compute; reflexivity|]);
    split; repeat constructor.
Qed.

Example S3_system :
  let field :=
    add_field_constraints (new_LatticeField [4])
      (mkWeights 0 0 0 0 1 0 0 0 kNearestNeighbor) in
  triplets (eqn field)
  = [ mkTriplet 0 0 1; mkTriplet 0 1 (-2); mkTriplet 0 2 1;
      mkTriplet 1 1 1; mkTriplet 1 2 (-2); mkTriplet 1 3 1 ]
  ∧ rhs (eqn field) = [0%Q; 0%Q].
Proof. split; vm_compute; reflexivity. Qed.

Example S4_system :
  ∃ field,
    add_gradient_constraint (new_LatticeField [3; 3]) [1; 1]%Q [1; 0]%Q 1
      kNearestNeighbor = Some (true, field)
    ∧ triplets (eqn field)
      = [ mkTriplet 0 4 (-1); mkTriplet 0 5 1;
          mkTriplet 1 4 (-1); mkTriplet 1 7 1 ]
    ∧ rhs (eqn field) = [1%Q; 0%Q].
Proof. eexists. split; [vm_compute; reflexivity|]. split; reflexivity. Qed.

Example S6_heatmap :
  ∃ heatmap,
    generate_error_map [mkTriplet 0 0 1; mkTriplet 0 1 1] [0; 0]%Q [2%Q]
    = Some heatmap
    ∧ Forall2 Qeq heatmap [2; 2]%Q.
Proof. eexists. split; [vm_compute; reflexivity|]. repeat constructor. Qed.

(** * Further properties of the assembler *)

(** ** Indices and coordinates: the round trips *)

Lemma Zsum_app l1 l2 : Zsum (l1 ++ l2) = Zsum l1 + Zsum l2.
Proof. induction l1 as [|x l1 IH]; simpl; lia. Qed.

Lemma Zsum_map_plus {A} (f g : A → Z) l :
  Zsum (map (λ a, f a + g a) l) = Zsum (map f l) + Zsum (map g l).
Proof. induction l as [|a l IH]; simpl; lia. Qed.

Lemma strides_from_length stride sizes :
  length (strides_from stride sizes) = length sizes.
Proof.
  revert stride. induction sizes as [|s sizes IH]; intros stride; simpl; [done|].
  by rewrite IH.
Qed.

Lemma lattice_index_scale stride sizes coords :
  lattice_index (strides_from stride sizes) coords
  = stride * lattice_index (strides_from 1 sizes) coords.
Proof.
  unfold lattice_index. revert stride coords.
  induction sizes as [|s sizes IH]; intros stride coords; simpl; [lia|].
  destruct coords as [|c coords]; simpl; [lia|].
  rewrite IH, (IH (1 * s)). lia.
Qed.

Lemma lattice_index_cons s sizes c coords :
  lattice_index (strides_from 1 (s :: sizes)) (c :: coords)
  = c + s * lattice_index (strides_from 1 sizes) coords.
Proof.
  unfold lattice_index at 1. simpl. fold (lattice_index (strides_from (1 * s) sizes) coords).
  rewrite lattice_index_scale. lia.
Qed.

Lemma coords_in_bounds_sizes sizes coords :
  coords_in_bounds sizes coords → Forall (λ size, 1 ≤ size) sizes.
Proof.
  induction 1 as [|c s coords sizes Hc _ IH]; constructor; [lia|done].
Qed.

Lemma lattice_index_range sizes coords :
  coords_in_bounds sizes coords →
  0 ≤ lattice_index (strides_from 1 sizes) coords < Zprod sizes.
Proof.
  induction 1 as [|c s coords sizes Hc _ IH].
  - unfold lattice_index. simpl. lia.
  - rewrite lattice_index_cons. cbn [Zprod]. nia.
Qed.

Lemma coordinate_of_lattice_index sizes coords :
  coords_in_bounds sizes coords →
  coordinate_from_index_loop sizes (lattice_index (strides_from 1 sizes) coords)
  = coords.
Proof.
  induction 1 as [|c s coords sizes Hc Hrest IH]; [done|].
  pose proof (lattice_index_range sizes coords Hrest) as Hr.
  rewrite lattice_index_cons.
  rewrite coordinate_from_index_loop_cons by nia.
  set (I := lattice_index (strides_from 1 sizes) coords) in *.
  assert ((c + s * I) mod s = c) as ->.
  { symmetry. apply (Z.mod_unique _ _ I); lia. }
  assert ((c + s * I) / s = I) as ->.
  { symmetry. apply (Z.div_unique _ _ _ c); lia. }
  by rewrite IH.
Qed.

Lemma lattice_index_of_coordinate sizes index :
  Forall (λ size, 1 ≤ size) sizes →
  0 ≤ index < Zprod sizes →
  coords_in_bounds sizes (coordinate_from_index_loop sizes index)
  ∧ lattice_index (strides_from 1 sizes)
      (coordinate_from_index_loop sizes index) = index.
Proof.
  intros Hs. revert index.
  induction Hs as [|s sizes Hs1 _ IH]; intros index Hi.
  - cbn [Zprod] in Hi. split; [constructor|]. unfold lattice_index. simpl. lia.
  - cbn [Zprod] in Hi.
    rewrite coordinate_from_index_loop_cons by lia.
    pose proof (Z.mod_pos_bound index s ltac:(lia)) as Hr.
    pose proof (Z.div_mod index s ltac:(lia)) as Hdm.
    destruct (IH (index / s)) as [Hb Hidx].
    { split; [apply Z.div_pos; lia|apply Z.div_lt_upper_bound; lia]. }
    split; [constructor; [lia|done]|].
    rewrite lattice_index_cons, Hidx. lia.
Qed.

(** X1.  Coordinates of an index: on a lattice with cells, for every cell
    index below the number of cells, [coordinate_from_index] returns one
    coordinate per dimension, each inside the lattice, and their row-major
    combination [Σ coordinate[d] * strides[d]] is the index again. *)
Theorem coordinate_from_index_in_bounds field index :
  lattice_ok field →
  0 ≤ index < num_unknowns_of (sizes field) →
  length (coordinate_from_index field index) = length (sizes field)
  ∧ coords_in_bounds (sizes field) (coordinate_from_index field index)
  ∧ lattice_index (strides field) (coordinate_from_index field index) = index.
Proof.
  intros [Hs Hst] Hi. rewrite num_unknowns_of_Zprod in Hi.
  unfold coordinate_from_index. rewrite Hst.
  split; [apply coordinate_from_index_loop_length|].
  by apply lattice_index_of_coordinate.
Qed.

Lemma coordinate_from_index_in_bounds_witness :
  coordinate_from_index (new_LatticeField [3; 4]) 7 = [1; 2]
  ∧ length (coordinate_from_index (new_LatticeField [3; 4]) 7) = 2%nat
  ∧ coords_in_bounds [3; 4] (coordinate_from_index (new_LatticeField [3; 4]) 7)
  ∧ lattice_index [1; 3] (coordinate_from_index (new_LatticeField [3; 4]) 7) = 7.
Proof.
  split; [reflexivity|].
  apply (coordinate_from_index_in_bounds (new_LatticeField [3; 4]) 7).
  - split; [|reflexivity]. repeat (constructor; [lia|]). constructor.
  - vm_compute. split; congruence.
Defined.

(** X2.  Index of a coordinate: on a lattice as the constructor builds it,
    the row-major index of a coordinate inside the lattice is a cell index
    below the number of cells, and [coordinate_from_index] gives the
    coordinate back. *)
Theorem coordinate_from_index_inverts field coords :
  strides field = strides_from 1 (sizes field) →
  coords_in_bounds (sizes field) coords →
  0 ≤ lattice_index (strides field) coords < num_unknowns_of (sizes field)
  ∧ coordinate_from_index field (lattice_index (strides field) coords) = coords.
Proof.
  intros Hst Hb. rewrite num_unknowns_of_Zprod, Hst.
  split; [by apply lattice_index_range|].
  by apply coordinate_of_lattice_index.
Qed.

Lemma coordinate_from_index_inverts_witness :
  0 ≤ lattice_index [1; 3] [2; 3] < 12
  ∧ coordinate_from_index (new_LatticeField [3; 4]) (lattice_index [1; 3] [2; 3])
    = [2; 3].
Proof.
  apply (coordinate_from_index_inverts (new_LatticeField [3; 4]) [2; 3]).
  - reflexivity.
  - repeat (constructor; [lia|]). constructor.
Defined.

(** ** multilerp at any position *)

Lemma multilerp_corners field in_pos extra_bound n l out :
  fold_left (multilerp_corner field in_pos extra_bound n) l out
  = out ++ corner_samples field in_pos extra_bound n l.
Proof.
  unfold corner_samples. revert out.
  induction l as [|i l IH]; intros out; simpl; [by rewrite app_nil_r|].
  rewrite IH. unfold multilerp_corner at 1, corner_inside at 2.
  fold (corner_state field in_pos extra_bound n i).
  destruct (corner_state field in_pos extra_bound n i) as [[index w] ins].
  simpl. destruct ins; simpl; [by rewrite <- app_assoc|done].
Qed.

Lemma multilerp_spec field in_pos extra_bound :
  multilerp field in_pos extra_bound
  = if (1 <=? length (sizes field))%nat && (length (sizes field) <=? MAX_DIM)%nat
    then Some (corner_samples field in_pos extra_bound (length (sizes field))
                 (seqZ 0 (2 ^ Z.of_nat (length (sizes field)))))
    else None.
Proof.
  unfold multilerp. rewrite multilerp_corners, Z.shiftl_1_l. done.
Qed.

Lemma corner_samples_elem field in_pos extra_bound n l s :
  s ∈ corner_samples field in_pos extra_bound n l →
  ∃ i, i ∈ l ∧ corner_inside field in_pos extra_bound n i = true
       ∧ s = fst (corner_state field in_pos extra_bound n i).
Proof.
  unfold corner_samples. intros Hs.
  apply list_elem_of_In, in_flat_map in Hs. destruct Hs as (i & Hi & Hs).
  exists i. split; [by apply list_elem_of_In|].
  destruct (corner_inside field in_pos extra_bound n i); [|done].
  split; [done|]. simpl in Hs. by destruct Hs as [<-|[]].
Qed.

Lemma lerp_t_range in_pos d : (0 <= lerp_t in_pos d < 1)%Q.
Proof.
  unfold lerp_t, floored.
  pose proof (Qfloor_le (nth d in_pos 0%Q)) as Hlo.
  pose proof (Qlt_floor (nth d in_pos 0%Q)) as Hhi.
  rewrite inject_Z_plus in Hhi. change (inject_Z 1) with 1%Q in Hhi.
  split; lra.
Qed.

Lemma corner_weight_range field in_pos extra_bound n i :
  (0 <= corner_weight field in_pos extra_bound n i <= 1)%Q.
Proof.
  induction n as [|n IH].
  - unfold corner_weight, corner_state. simpl. split; [discriminate|apply Qle_refl].
  - rewrite corner_weight_S. pose proof (lerp_t_range in_pos n) as Ht.
    destruct (corner_bit i n =? 0); split; nra.
Qed.

Lemma corner_samples_weights field in_pos extra_bound n l :
  Forall (λ s, (0 <= snd s <= 1)%Q) (corner_samples field in_pos extra_bound n l)
  ∧ (sum_weights (corner_samples field in_pos extra_bound n l)
     <= Qsum (map (corner_weight field in_pos extra_bound n) l))%Q
  ∧ (length (corner_samples field in_pos extra_bound n l) ≤ length l)%nat.
Proof.
  unfold corner_samples, sum_weights.
  induction l as [|i l (IHw & IHs & IHl)]; simpl.
  - split; [constructor|]. split; [apply Qle_refl|lia].
  - pose proof (corner_weight_range field in_pos extra_bound n i) as Hw.
    destruct (corner_inside field in_pos extra_bound n i); simpl.
    + split; [constructor; done|]. split; [|lia].
      fold (corner_weight field in_pos extra_bound n i). lra.
    + split; [done|]. split; [lra|lia].
Qed.

(** X3.  Whatever the position, the kernel weights [multilerp] returns lie
    between 0 and 1, they sum to at most 1, and there are at most [2^N] of
    them: dropping the corners outside the lattice only removes weight. *)
Theorem multilerp_weights field in_pos extra_bound samples :
  multilerp field in_pos extra_bound = Some samples →
  Forall (λ s, (0 <= snd s <= 1)%Q) samples
  ∧ (sum_weights samples <= 1)%Q
  ∧ Z.of_nat (length samples) ≤ 2 ^ Z.of_nat (length (sizes field)).
Proof.
  rewrite multilerp_spec. destruct (_ && _); [|done]. intros [= <-].
  destruct (corner_samples_weights field in_pos extra_bound
              (length (sizes field))
              (seqZ 0 (2 ^ Z.of_nat (length (sizes field)))))
    as (Hw & Hs & Hl).
  split; [done|]. split.
  - rewrite corner_weights_sum in Hs. done.
  - rewrite length_seqZ in Hl.
    assert (0 ≤ 2 ^ Z.of_nat (length (sizes field))) by (apply Z.pow_nonneg; lia).
    lia.
Qed.

Lemma multilerp_weights_witness :
  ∃ samples,
    multilerp (new_LatticeField [3; 3]) [5 # 2; 1 # 3]%Q 0 = Some samples
    ∧ length samples = 2%nat
    ∧ Forall (λ s, (0 <= snd s <= 1)%Q) samples
    ∧ (sum_weights samples <= 1)%Q
    ∧ Z.of_nat (length samples) ≤ 4.
Proof.
  eexists. split; [vm_compute; reflexivity|]. split; [reflexivity|].
  apply (multilerp_weights (new_LatticeField [3; 3]) [5 # 2; 1 # 3]%Q 0).
  vm_compute. reflexivity.
Defined.

(** ** Row-major sums over the dimensions *)

Lemma nth_map_seq {A} (f : nat → A) n d x :
  (d < n)%nat → nth d (map f (seq 0 n)) x = f d.
Proof.
  intros Hd. rewrite nth_lookup. change (map f (seq 0 n)) with (f <$> seq 0 n).
  by rewrite list_lookup_fmap, lookup_seq_lt.
Qed.

Lemma Zsum_nth_lattice_index l (f : nat → Z) :
  Zsum (map (λ d, nth d l 0 * f d) (seq 0 (length l)))
  = lattice_index l (map f (seq 0 (length l))).
Proof.
  unfold lattice_index. f_equal. apply list_eq. intros i.
  change (map ?g ?k) with (g <$> k).
  rewrite lookup_zip_with, !list_lookup_fmap.
  destruct (decide (i < length l)%nat) as [Hi|Hi].
  - rewrite lookup_seq_lt by done. simpl.
    destruct (lookup_lt_is_Some_2 l i Hi) as [x Hx].
    rewrite Hx. simpl. by rewrite (nth_lookup_Some _ _ _ _ Hx).
  - rewrite lookup_seq_ge by lia. simpl.
    rewrite lookup_ge_None_2 by lia. done.
Qed.

Lemma coords_in_bounds_map sizes (f : nat → Z) :
  (∀ d, (d < length sizes)%nat → 0 ≤ f d < nth d sizes 0) →
  coords_in_bounds sizes (map f (seq 0 (length sizes))).
Proof.
  intros Hf. apply Forall2_same_length_lookup_2.
  - by rewrite length_map, length_seq.
  - intros d c size Hc Hsize.
    change (map f (seq 0 (length sizes))) with (f <$> seq 0 (length sizes)) in Hc.
    rewrite list_lookup_fmap in Hc.
    pose proof (lookup_lt_Some _ _ _ Hsize) as Hd.
    rewrite lookup_seq_lt in Hc by done. simpl in Hc. injection Hc as <-.
    rewrite <- (nth_lookup_Some _ _ 0 _ Hsize). by apply Hf.
Qed.

(** The row-major sum of coordinates inside the lattice is a cell index,
    and so is the index [j] steps further along a dimension where the
    coordinate leaves room. *)
Lemma row_major_index_valid sizes (f : nat → Z) :
  (∀ d, (d < length sizes)%nat → 0 ≤ f d < nth d sizes 0) →
  0 ≤ Zsum (map (λ d, nth d (strides_from 1 sizes) 0 * f d)
              (seq 0 (length sizes))) < Zprod sizes
  ∧ coordinate_from_index_loop sizes
      (Zsum (map (λ d, nth d (strides_from 1 sizes) 0 * f d)
               (seq 0 (length sizes))))
    = map f (seq 0 (length sizes)).
Proof.
  intros Hf. pose proof (coords_in_bounds_map sizes f Hf) as Hb.
  pose proof (Zsum_nth_lattice_index (strides_from 1 sizes) f) as Hsum.
  rewrite strides_from_length in Hsum. rewrite Hsum.
  split; [by apply lattice_index_range|by apply coordinate_of_lattice_index].
Qed.

Lemma row_major_index_shift_valid sizes (f : nat → Z) d j :
  (∀ d, (d < length sizes)%nat → 0 ≤ f d < nth d sizes 0) →
  (d < length sizes)%nat → 0 ≤ j → f d + j < nth d sizes 0 →
  0 ≤ Zsum (map (λ d, nth d (strides_from 1 sizes) 0 * f d)
              (seq 0 (length sizes)))
      + j * nth d (strides_from 1 sizes) 0 < Zprod sizes.
Proof.
  intros Hf Hd Hj Hfit.
  destruct (row_major_index_valid sizes f Hf) as [Hrange Hco].
  apply coordinate_shift; [|done..|].
  - eapply coords_in_bounds_sizes, coords_in_bounds_map, Hf.
  - rewrite Hco, nth_map_seq by done. done.
Qed.

(** ** multilerp: the indices it returns *)

Lemma corner_index_sum field in_pos extra_bound n i :
  fst (fst (corner_state field in_pos extra_bound n i))
  = Zsum (map (λ d, nth d (strides field) 0
                    * (floored in_pos d + corner_bit i d))
            (seq 0 n)).
Proof.
  induction n as [|n IH]; [done|].
  rewrite corner_state_S, seq_S, map_app, Zsum_app, <- IH.
  destruct (corner_state field in_pos extra_bound n i) as [[index w] ins].
  simpl. lia.
Qed.

Lemma corner_inside_true field in_pos extra_bound n i :
  corner_inside field in_pos extra_bound n i = true →
  ∀ d, (d < n)%nat →
       0 ≤ floored in_pos d + corner_bit i d
       ∧ floored in_pos d + corner_bit i d + extra_bound < nth d (sizes field) 0.
Proof.
  induction n as [|n IH]; intros Hin d Hd; [lia|].
  rewrite corner_inside_S in Hin.
  apply andb_true_iff in Hin. destruct Hin as [Hn Hlast].
  destruct (decide (d = n)) as [->|Hne]; [|apply IH; [done|lia]].
  apply andb_true_iff in Hlast. destruct Hlast as [H0 H1].
  apply Z.leb_le in H0. apply Z.ltb_lt in H1. done.
Qed.

Lemma multilerp_samples_valid field in_pos extra_bound samples :
  lattice_ok field →
  0 ≤ extra_bound →
  multilerp field in_pos extra_bound = Some samples →
  Forall (λ s,
            0 ≤ fst s < num_unknowns_of (sizes field)
            ∧ ∀ d, (d < length (sizes field))%nat →
                   0 ≤ fst s + extra_bound * nth d (strides field) 0
                   < num_unknowns_of (sizes field))
    samples.
Proof.
  intros [Hs Hst] Heb. rewrite multilerp_spec.
  destruct (_ && _); [|done]. intros [= <-].
  apply Forall_forall. intros s Hin.
  apply corner_samples_elem in Hin. destruct Hin as (i & _ & Hinside & ->).
  pose proof (corner_inside_true _ _ _ _ _ Hinside) as Hb.
  rewrite corner_index_sum, num_unknowns_of_Zprod, Hst.
  pose proof (corner_bit_range i) as Hbit.
  split.
  - apply (row_major_index_valid (sizes field)
             (λ d, floored in_pos d + corner_bit i d)).
    intros d Hd. specialize (Hb d Hd). lia.
  - intros d Hd.
    apply (row_major_index_shift_valid (sizes field)
             (λ d, floored in_pos d + corner_bit i d)); [|done|done|].
    + intros d' Hd'. specialize (Hb d' Hd'). lia.
    + specialize (Hb d Hd). simpl. lia.
Qed.

(** X4.  The indices [multilerp] returns are cell indices: on a lattice as
    the constructor builds it and with a non-negative [extra_bound], every
    returned index lies in [0, num_unknowns), and so does the index
    [extra_bound] steps further along any dimension (the neighbour the
    gradient stencil reads when [extra_bound] is 1). *)
Theorem multilerp_indices_valid field in_pos extra_bound samples :
  lattice_ok field →
  0 ≤ extra_bound →
  multilerp field in_pos extra_bound = Some samples →
  Forall (λ s,
            0 ≤ fst s < num_unknowns_of (sizes field)
            ∧ ∀ d, (d < length (sizes field))%nat →
                   0 ≤ fst s + extra_bound * nth d (strides field) 0
                   < num_unknowns_of (sizes field))
    samples.
Proof. apply multilerp_samples_valid. Qed.

Lemma multilerp_indices_valid_witness :
  ∃ samples,
    multilerp (new_LatticeField [3; 3]) [3 # 2; 1 # 3]%Q 1 = Some samples
    ∧ length samples = 2%nat
    ∧ Forall (λ s,
                0 ≤ fst s < 9
                ∧ ∀ d, (d < 2)%nat → 0 ≤ fst s + 1 * nth d [1; 3] 0 < 9)
        samples.
Proof.
  eexists. split; [vm_compute; reflexivity|]. split; [reflexivity|].
  apply (multilerp_indices_valid (new_LatticeField [3; 3]) [3 # 2; 1 # 3]%Q 1).
  - split; [|reflexivity]. repeat (constructor; [lia|]). constructor.
  - lia.
  - vm_compute. reflexivity.
Defined.

(** A position one of whose coordinates is outside the lattice has no
    corner inside. *)
Lemma corner_samples_outside field in_pos extra_bound l d :
  (d < length (sizes field))%nat →
  floored in_pos d < -1 ∨ nth d (sizes field) 0 ≤ floored in_pos d + extra_bound →
  corner_samples field in_pos extra_bound (length (sizes field)) l = [].
Proof.
  intros Hd Hout. unfold corner_samples.
  induction l as [|i l IH]; simpl; [done|]. rewrite IH.
  destruct (corner_inside field in_pos extra_bound (length (sizes field)) i)
    eqn:Hin; [|done].
  destruct (corner_inside_true _ _ _ _ _ Hin d Hd) as [H0 H1].
  pose proof (corner_bit_range i d). lia.
Qed.

(** X5.  A value constraint outside the lattice is rejected: on a lattice
    of 1 to 4 dimensions, when the floor of some coordinate of the position
    is below -1 or at least the size of its dimension, no corner is
    admitted, and [add_value_constraint] returns false and leaves the field
    as it is. *)
Theorem value_constraint_outside_rejected field pos value weight d :
  (1 ≤ length (sizes field) ≤ 4)%nat →
  (d < length (sizes field))%nat →
  Qfloor (nth d pos 0%Q) < -1 ∨ nth d (sizes field) 0 ≤ Qfloor (nth d pos 0%Q) →
  multilerp field pos 0 = Some []
  ∧ add_value_constraint field pos value weight = Some (false, field).
Proof.
  intros [Hlo Hhi] Hd Hout.
  assert (multilerp field pos 0 = Some []) as Hm.
  { rewrite multilerp_spec. apply Nat.leb_le in Hlo. apply Nat.leb_le in Hhi.
    unfold MAX_DIM. rewrite Hlo, Hhi. cbn [andb].
    rewrite (corner_samples_outside field pos 0 _ d); [done..|].
    unfold floored. lia. }
  split; [done|]. unfold add_value_constraint. rewrite Hm.
  by destruct (Qeq_bool weight 0).
Qed.

Lemma value_constraint_outside_rejected_witness :
  let field := new_LatticeField [3; 3] in
  multilerp field [1; 7 # 2]%Q 0 = Some []
  ∧ add_value_constraint field [1; 7 # 2]%Q 0 1 = Some (false, field).
Proof.
  intros field.
  apply (value_constraint_outside_rejected field [1; 7 # 2]%Q 0 1 1%nat).
  - simpl. lia.
  - simpl. lia.
  - right. vm_compute. congruence.
Defined.

(** ** cell_index *)

Lemma cell_index_loop_cases field pos ds index :
  cell_index_loop field pos ds index = -1
  ∨ (Forall (λ d, 0 ≤ Qfloor (nth d pos 0%Q)
                  ∧ Qfloor (nth d pos 0%Q) + 1 < nth d (sizes field) 0) ds
     ∧ cell_index_loop field pos ds index
       = index + Zsum (map (λ d, nth d (strides field) 0
                                 * Qfloor (nth d pos 0%Q)) ds)).
Proof.
  revert index. induction ds as [|d ds IH]; intros index; simpl.
  - right. split; [constructor|lia].
  - destruct (Z.leb_spec 0 (Qfloor (nth d pos 0%Q))) as [H0|H0]; simpl;
      [|by left].
    destruct (Z.ltb_spec (Qfloor (nth d pos 0%Q) + 1) (nth d (sizes field) 0))
      as [H1|H1]; simpl; [|by left].
    destruct (IH (index + Qfloor (nth d pos 0%Q) * nth d (strides field) 0))
      as [Hfail|[Hok Hval]]; [by left|].
    right. split; [by constructor|]. rewrite Hval. lia.
Qed.

Lemma cell_index_loop_ok field pos ds index :
  Forall (λ d, 0 ≤ Qfloor (nth d pos 0%Q)
               ∧ Qfloor (nth d pos 0%Q) + 1 < nth d (sizes field) 0) ds →
  cell_index_loop field pos ds index
  = index + Zsum (map (λ d, nth d (strides field) 0
                            * Qfloor (nth d pos 0%Q)) ds).
Proof.
  intros Hall. revert index.
  induction Hall as [|d ds [H0 H1] _ IH]; intros index; simpl; [lia|].
  destruct (Z.leb_spec 0 (Qfloor (nth d pos 0%Q))); [|lia].
  destruct (Z.ltb_spec (Qfloor (nth d pos 0%Q) + 1) (nth d (sizes field) 0));
    [|lia].
  simpl. rewrite IH. lia.
Qed.

Lemma in_cell_range_Forall field pos :
  in_cell_range field pos
  ↔ Forall (λ d, 0 ≤ Qfloor (nth d pos 0%Q)
                 ∧ Qfloor (nth d pos 0%Q) + 1 < nth d (sizes field) 0)
      (seq 0 (length (sizes field))).
Proof.
  unfold in_cell_range. rewrite Forall_forall. split.
  - intros H d Hd. apply H. apply list_elem_of_In, in_seq in Hd. lia.
  - intros H d Hd. apply H. apply list_elem_of_In, in_seq. lia.
Qed.

Lemma cell_index_in_cell field pos :
  in_cell_range field pos →
  cell_index field pos
  = Zsum (map (λ d, nth d (strides field) 0 * Qfloor (nth d pos 0%Q))
            (seq 0 (length (sizes field)))).
Proof.
  intros Hin. unfold cell_index. rewrite cell_index_loop_ok; [lia|].
  by apply in_cell_range_Forall.
Qed.

Lemma cell_index_valid field pos :
  lattice_ok field →
  in_cell_range field pos →
  0 ≤ cell_index field pos < num_unknowns_of (sizes field)
  ∧ (∀ d, (d < length (sizes field))%nat →
          cell_index field pos + nth d (strides field) 0
          < num_unknowns_of (sizes field))
  ∧ coordinate_from_index field (cell_index field pos) = floor_coords field pos.
Proof.
  intros [Hs Hst] Hin. rewrite cell_index_in_cell by done.
  rewrite num_unknowns_of_Zprod, Hst. unfold coordinate_from_index, floor_coords.
  assert (∀ d, (d < length (sizes field))%nat →
               0 ≤ Qfloor (nth d pos 0%Q) < nth d (sizes field) 0) as Hb.
  { intros d Hd. specialize (Hin d Hd). lia. }
  destruct (row_major_index_valid (sizes field)
              (λ d, Qfloor (nth d pos 0%Q)) Hb) as [Hrange Hco].
  split; [done|]. split; [|done].
  intros d Hd.
  pose proof (row_major_index_shift_valid (sizes field)
                (λ d, Qfloor (nth d pos 0%Q)) d 1 Hb Hd ltac:(lia)) as Hshift.
  specialize (Hin d Hd). simpl in Hshift. lia.
Qed.

(** X6.  [cell_index] of a position inside a cell: on a lattice as the
    constructor builds it, when every coordinate of the position has its
    floor in [0, sizes[d] - 2], [cell_index] is a cell index below the
    number of cells, the next index along every dimension is one too, and
    [coordinate_from_index] maps it back to the floors of the position. *)
Theorem cell_index_in_range field pos :
  lattice_ok field →
  in_cell_range field pos →
  0 ≤ cell_index field pos < num_unknowns_of (sizes field)
  ∧ (∀ d, (d < length (sizes field))%nat →
          cell_index field pos + nth d (strides field) 0
          < num_unknowns_of (sizes field))
  ∧ coordinate_from_index field (cell_index field pos) = floor_coords field pos.
Proof. apply cell_index_valid. Qed.

Lemma cell_index_in_range_witness :
  let field := new_LatticeField [3; 4] in
  0 ≤ cell_index field [3 # 2; 5 # 2]%Q < 12
  ∧ (∀ d, (d < 2)%nat →
          cell_index field [3 # 2; 5 # 2]%Q + nth d [1; 3] 0 < 12)
  ∧ coordinate_from_index field (cell_index field [3 # 2; 5 # 2]%Q) = [1; 2].
Proof.
  intros field.
  apply (cell_index_in_range field [3 # 2; 5 # 2]%Q).
  - split; [|reflexivity]. repeat (constructor; [lia|]). constructor.
  - intros [|[|d]] Hd; simpl in *; [vm_compute; split; congruence..|lia].
Defined.

Lemma cell_index_outside field pos :
  ¬ in_cell_range field pos → cell_index field pos = -1.
Proof.
  intros Hout. unfold cell_index.
  destruct (cell_index_loop_cases field pos (seq 0 (length (sizes field))) 0)
    as [Hfail|[Hall _]]; [done|].
  by apply in_cell_range_Forall in Hall.
Qed.

(** X7.  A gradient constraint outside the cells is rejected: when the
    position does not lie in a cell (in some dimension its floor is negative
    or its floor plus one reaches the size), the nearest-neighbour and
    cell-edges kernels return false and leave the field as it is. *)
Theorem gradient_outside_cell_rejected field pos gradient weight kernel :
  kernel = kNearestNeighbor ∨ kernel = kCellEdges →
  ¬ in_cell_range field pos →
  add_gradient_constraint field pos gradient weight kernel = Some (false, field).
Proof.
  intros Hk Hout. unfold add_gradient_constraint.
  destruct (Qeq_bool weight 0); [done|].
  rewrite (cell_index_outside field pos Hout).
  by destruct Hk as [-> | ->].
Qed.

Lemma gradient_outside_cell_rejected_witness :
  let field := new_LatticeField [3; 4] in
  add_gradient_constraint field [2; 1]%Q [1; 0]%Q 1 kNearestNeighbor
  = Some (false, field).
Proof.
  intros field.
  apply (gradient_outside_cell_rejected field [2; 1]%Q [1; 0]%Q 1
           kNearestNeighbor).
  - by left.
  - intros H. destruct (H 0%nat) as [_ Hfit]; [simpl; lia|].
    vm_compute in Hfit. congruence.
Defined.

(** ** The rows of a gradient constraint *)

(** A loop over the dimensions whose body opens one row writes the rows in
    order, numbered from the length of [rhs]. *)
Lemma fold_append_rows (step : LinearEquation → nat → LinearEquation)
    (row_of : Z → nat → list Triplet) (rhs_of : nat → Q) :
  (∀ e d, step e d = append_row e (row_of (rhs_size e) d) (rhs_of d)) →
  ∀ n a e,
    fold_left step (seq a n) e
    = append_rows e
        (λ d, row_of (rhs_size e + (Z.of_nat d - Z.of_nat a)) d) rhs_of
        (seq a n).
Proof.
  intros Hstep. unfold append_rows.
  induction n as [|n IH]; intros a e; simpl.
  - rewrite !app_nil_r. by destruct e.
  - rewrite IH, Hstep, rhs_size_append_row. simpl.
    rewrite <- !app_assoc. simpl. f_equal. f_equal.
    replace (rhs_size e + (Z.of_nat a - Z.of_nat a)) with (rhs_size e) by lia.
    f_equal. apply flat_map_ext. intros d. f_equal. lia.
Qed.

Lemma gradient_nearest_spec field gradient w index e d :
  ¬ (w == 0)%Q →
  gradient_nearest field gradient w index e d
  = append_row e
      [ mkTriplet (rhs_size e) (index + 0) (-1 * w);
        mkTriplet (rhs_size e) (index + nth d (strides field) 0) (1 * w) ]
      (nth d gradient 0 * w)%Q.
Proof.
  intros Hw. unfold gradient_nearest. rewrite add_equation_spec.
  apply Qeq_bool_false in Hw. rewrite Hw. reflexivity.
Qed.

(** X8.  The nearest-neighbour kernel: at a position inside a cell and
    with a nonzero weight [w], [add_gradient_constraint] appends, for each
    dimension [d] in order, one row of two triplets, [- w] at the cell of
    the position and [w] at the next cell along [d], with [g[d] * w] as
    right-hand side. *)
Theorem nearest_neighbor_rows field pos gradient w :
  ¬ (w == 0)%Q →
  0 ≤ cell_index field pos →
  ∃ field',
    add_gradient_constraint field pos gradient w kNearestNeighbor
    = Some (true, field')
    ∧ sizes field' = sizes field
    ∧ strides field' = strides field
    ∧ Forall2 Triplet_equiv (triplets (eqn field'))
        (triplets (eqn field)
         ++ flat_map
              (λ d, nearest_row field w (cell_index field pos)
                      (rhs_size (eqn field) + Z.of_nat d) d)
              (seq 0 (length (sizes field))))
    ∧ rhs (eqn field')
      = rhs (eqn field)
        ++ map (λ d, (nth d gradient 0 * w)%Q) (seq 0 (length (sizes field))).
Proof.
  intros Hw Hidx. unfold add_gradient_constraint.
  pose proof Hw as Hw'. apply Qeq_bool_false in Hw'. rewrite Hw'.
  destruct (Z.ltb_spec (cell_index field pos) 0) as [Hneg|_]; [lia|].
  eexists. split; [reflexivity|].
  rewrite (fold_append_rows _
             (λ r d, [ mkTriplet r (cell_index field pos + 0) (-1 * w);
                       mkTriplet r (cell_index field pos
                                    + nth d (strides field) 0) (1 * w) ])
             (λ d, (nth d gradient 0 * w)%Q))
    by (intros e d; by apply gradient_nearest_spec).
  simpl. split; [done|]. split; [done|]. split; [|done].
  apply Forall2_app; [apply Forall2_Triplet_equiv_refl|].
  apply Forall2_flat_map_same. intros d _. unfold nearest_row.
  constructor; [|constructor; [|constructor]].
  - split; [simpl; lia|]. split; [simpl; lia|]. simpl. ring.
  - split; [simpl; lia|]. split; [simpl; lia|]. simpl. ring.
Qed.

(** Scenario S4. *)
Lemma nearest_neighbor_rows_witness :
  ∃ field',
    add_gradient_constraint (new_LatticeField [3; 3]) [1; 1]%Q [1; 0]%Q 1
      kNearestNeighbor = Some (true, field')
    ∧ sizes field' = [3; 3]
    ∧ strides field' = [1; 3]
    ∧ Forall2 Triplet_equiv (triplets (eqn field'))
        [ mkTriplet 0 4 (-1); mkTriplet 0 5 1;
          mkTriplet 1 4 (-1); mkTriplet 1 7 1 ]
    ∧ rhs (eqn field') = [1 * 1; 0 * 1]%Q.
Proof.
  destruct (nearest_neighbor_rows (new_LatticeField [3; 3]) [1; 1]%Q [1; 0]%Q 1)
    as (field' & Hrun & Hsizes & Hstrides & Hts & Hrhs).
  - intros H. discriminate H.
  - vm_compute. discriminate.
  - exists field'. split; [exact Hrun|]. split; [exact Hsizes|].
    split; [exact Hstrides|]. split; [exact Hts|exact Hrhs].
Defined.

Lemma gradient_lerp_weight_sum field r w d samples e acc :
  snd (fold_left (gradient_lerp_sample field r w d) samples (e, acc))
  = fold_left (λ acc s, (acc + snd s * w)%Q) samples acc.
Proof.
  revert e acc. induction samples as [|s samples IH]; intros e acc; [done|].
  simpl. unfold gradient_lerp_sample at 2. simpl. apply IH.
Qed.

Lemma gradient_lerp_spec field gradient w samples e d :
  gradient_lerp field gradient w samples e d
  = append_row e (lerp_triplets field (rhs_size e) w d samples)
      (lerp_weight_sum w samples * nth d gradient 0)%Q.
Proof.
  unfold gradient_lerp, lerp_weight_sum.
  pose proof (gradient_lerp_fold field (rhs_size e) w d samples e 0%Q) as Hfst.
  pose proof (gradient_lerp_weight_sum field (rhs_size e) w d samples e 0%Q)
    as Hsnd.
  destruct (fold_left _ samples (e, 0%Q)) as [e' weight_sum].
  cbn [fst snd] in Hfst, Hsnd. by subst.
Qed.

Lemma lerp_weight_sum_eq w samples :
  (lerp_weight_sum w samples == sum_weights samples * w)%Q.
Proof.
  unfold lerp_weight_sum, sum_weights.
  assert (∀ acc, fold_left (λ acc s, (acc + snd s * w)%Q) samples acc
                 == acc + Qsum (map snd samples) * w)%Q as H.
  { induction samples as [|s samples IH]; intros acc; simpl; [ring|].
    rewrite IH. ring. }
  rewrite H. ring.
Qed.

(** X9.  The linear-interpolation kernel: with a nonzero weight [w] and at
    least one sample of [multilerp] at the position moved by -0.5 with
    [extra_bound = 1], [add_gradient_constraint] appends, for each dimension
    [d] in order, one row with two triplets per sample, [- k * w] at the
    sample and [k * w] at the next cell along [d], and the right-hand side
    is [g[d]] times the sum of the [k * w]. *)
Theorem linear_interpolation_rows field pos gradient w samples :
  ¬ (w == 0)%Q →
  multilerp field
    (map (λ d, (nth d pos 0 - (1 # 2))%Q) (seq 0 (length (sizes field)))) 1
  = Some samples →
  samples ≠ [] →
  ∃ field',
    add_gradient_constraint field pos gradient w kLinearInteprolation
    = Some (true, field')
    ∧ sizes field' = sizes field
    ∧ strides field' = strides field
    ∧ triplets (eqn field')
      = triplets (eqn field)
        ++ flat_map
             (λ d, lerp_triplets field (rhs_size (eqn field) + Z.of_nat d)
                     w d samples)
             (seq 0 (length (sizes field)))
    ∧ Forall2 Qeq (rhs (eqn field'))
        (rhs (eqn field)
         ++ map (λ d, (sum_weights samples * w * nth d gradient 0)%Q)
              (seq 0 (length (sizes field)))).
Proof.
  intros Hw Hs Hne. unfold add_gradient_constraint.
  apply Qeq_bool_false in Hw. rewrite Hw, Hs. cbn [mbind option_bind].
  destruct (Nat.eqb_spec (length samples) 0) as [Hlen|_];
    [by destruct samples|].
  eexists. split; [reflexivity|].
  rewrite (fold_append_rows _
             (λ r d, lerp_triplets field r w d samples)
             (λ d, (lerp_weight_sum w samples * nth d gradient 0)%Q))
    by (intros e d; apply gradient_lerp_spec).
  simpl. split; [done|]. split; [done|]. split.
  - f_equal. apply flat_map_ext. intros d. f_equal. lia.
  - apply Forall2_app.
    + clear. induction (rhs (eqn field)); constructor; [reflexivity|done].
    + apply Forall2_map_same. intros d _. by rewrite lerp_weight_sum_eq.
Qed.

Lemma linear_interpolation_rows_witness :
  ∃ field',
    add_gradient_constraint (new_LatticeField [4]) [3 # 2]%Q [5%Q] 2
      kLinearInteprolation = Some (true, field')
    ∧ sizes field' = [4]
    ∧ strides field' = [1]
    ∧ triplets (eqn field')
      = [ mkTriplet 0 (1 + 0) (- ((4 # 4) * 2)); mkTriplet 0 (1 + 1) ((4 # 4) * 2);
          mkTriplet 0 (2 + 0) (- ((0 # 4) * 2)); mkTriplet 0 (2 + 1) ((0 # 4) * 2) ]
    ∧ Forall2 Qeq (rhs (eqn field'))
        [(sum_weights [(1%Z, 4 # 4); (2%Z, 0 # 4)] * 2 * 5)%Q].
Proof.
  destruct (linear_interpolation_rows (new_LatticeField [4]) [3 # 2]%Q [5%Q] 2
              [(1, (4 # 4)%Q); (2, (0 # 4)%Q)])
    as (field' & Hrun & Hsizes & Hstrides & Hts & Hrhs).
  - intros H. discriminate H.
  - vm_compute. reflexivity.
  - discriminate.
  - exists field'. split; [exact Hrun|]. split; [exact Hsizes|].
    split; [exact Hstrides|]. split; [exact Hts|exact Hrhs].
Defined.

(** ** Gradient rows and constant fields *)

Lemma sum_values_app ts1 ts2 :
  (sum_values (ts1 ++ ts2) == sum_values ts1 + sum_values ts2)%Q.
Proof. unfold sum_values. rewrite map_app. apply Qsum_app. Qed.

Lemma sum_values_filter_uniform ts r r' :
  Forall (λ t, row t = r') ts → (sum_values ts == 0)%Q →
  (sum_values (filter (λ t, row t = r) ts) == 0)%Q.
Proof.
  intros Hrows Hsum. destruct (decide (r = r')) as [->|Hne].
  - by rewrite filter_row_same.
  - by rewrite (filter_row_other ts r r').
Qed.

Lemma rhs_size_append_rows e row_of rhs_of ds :
  rhs_size (append_rows e row_of rhs_of ds) = rhs_size e + Z.of_nat (length ds).
Proof. unfold rhs_size. simpl. rewrite length_app, length_map. lia. Qed.

(** Rows that each sum to zero, written after a well-formed system: every
    new row sums to zero. *)
Lemma append_rows_coefficient_sum e row_of rhs_of ds r :
  rows_in_range e →
  (∀ d, d ∈ ds → ∃ r', Forall (λ t, row t = r') (row_of d)) →
  (∀ d, d ∈ ds → (sum_values (row_of d) == 0)%Q) →
  rhs_size e ≤ r →
  (coefficient_sum (append_rows e row_of rhs_of ds) r == 0)%Q.
Proof.
  intros Hrange Hrows Hsums Hr.
  unfold coefficient_sum, row_triplets, triplets_of_row. simpl.
  rewrite filter_app, (filter_row_above _ (rhs_size e)) by done. simpl.
  induction ds as [|d ds IH]; simpl; [reflexivity|].
  rewrite filter_app, sum_values_app.
  destruct (Hrows d ltac:(left)) as [r' Hr'].
  rewrite (sum_values_filter_uniform _ r r' Hr') by (apply Hsums; left).
  rewrite IH; [ring| |].
  - intros d' Hd'. apply Hrows. by right.
  - intros d' Hd'. apply Hsums. by right.
Qed.

Lemma lerp_triplets_sum field r w d samples :
  (sum_values (lerp_triplets field r w d samples) == 0)%Q.
Proof.
  unfold lerp_triplets, sum_values.
  induction samples as [|s samples IH]; simpl; [reflexivity|].
  rewrite IH. ring.
Qed.

Lemma lerp_triplets_rows field r w d samples :
  Forall (λ t, row t = r) (lerp_triplets field r w d samples).
Proof.
  unfold lerp_triplets. apply Forall_forall. intros t Ht.
  apply list_elem_of_In, in_flat_map in Ht. destruct Ht as (s & _ & Ht).
  simpl in Ht. destruct Ht as [<-|[<-|[]]]; done.
Qed.

(** Half of the corners of a cell lie on each side along a dimension. *)
Lemma corner_signs_sum (n d : nat) :
  (d < n)%nat →
  (Qsum (map (λ c, if negb (is_along c d =? 0) then 1 else -1)
           (seqZ 0 (2 ^ Z.of_nat n))) == 0)%Q.
Proof.
  induction n as [|n IH]; intros Hd; [lia|].
  assert (0 < 2 ^ Z.of_nat n) as Hpow by (apply Z.pow_pos_nonneg; lia).
  rewrite seqZ_pow2_S, map_app, Qsum_app, map_map.
  destruct (decide (d = n)) as [->|Hne].
  - rewrite <- Qsum_map_plus.
    rewrite (Qsum_map_ext _ (λ _, 0%Q)); [apply Qsum_map_zero|].
    intros c Hc. apply elem_of_seqZ in Hc.
    rewrite !is_along_testbit by lia.
    rewrite testbit_below_pow2, testbit_add_pow2_high by lia.
    reflexivity.
  - rewrite (Qsum_map_ext (λ c, if negb (is_along (2 ^ Z.of_nat n + c) d =? 0)
                                then 1 else -1)%Q
               (λ c, if negb (is_along c d =? 0) then 1 else -1)%Q).
    + rewrite IH by lia. ring.
    + intros c Hc. apply elem_of_seqZ in Hc.
      rewrite !is_along_testbit by lia.
      rewrite testbit_add_pow2_low by lia. reflexivity.
Qed.

Lemma cell_edges_triplets_sum field (n : nat) index r term_weight d :
  (d < n)%nat →
  (sum_values (cell_edges_triplets field n index r term_weight d
                 (seqZ 0 (Z.shiftl 1 (Z.of_nat n)))) == 0)%Q.
Proof.
  intros Hd. unfold sum_values, cell_edges_triplets.
  rewrite map_map. simpl. rewrite Z.shiftl_1_l.
  rewrite (Qsum_map_scale
             (λ c, if negb (is_along c d =? 0) then 1 else -1)%Q term_weight).
  rewrite corner_signs_sum by done. ring.
Qed.

Lemma cell_edges_triplets_rows field n index r term_weight d cs :
  Forall (λ t, row t = r) (cell_edges_triplets field n index r term_weight d cs).
Proof.
  unfold cell_edges_triplets. apply Forall_forall. intros t Ht.
  apply list_elem_of_In, in_map_iff in Ht. destruct Ht as (c & <- & _). done.
Qed.

(** X10.  Gradient rows annihilate constants: under each of the three
    kernels, in every row [add_gradient_constraint] appends to a well-formed
    system the coefficients sum to zero, so a gradient constraint does not
    see a constant added to the field. *)
Theorem gradient_rows_sum_zero field pos gradient w kernel b field' r :
  rows_in_range (eqn field) →
  add_gradient_constraint field pos gradient w kernel = Some (b, field') →
  rhs_size (eqn field) ≤ r < rhs_size (eqn field') →
  (coefficient_sum (eqn field') r == 0)%Q.
Proof.
  intros Hrange. unfold add_gradient_constraint.
  destruct (Qeq_bool w 0) eqn:Hw; [intros [= _ <-]; lia|].
  apply Qeq_bool_false in Hw.
  destruct kernel.
  - destruct (cell_index field pos <? 0); intros [= _ <-]; [lia|].
    rewrite (fold_append_rows _
               (λ r d, [ mkTriplet r (cell_index field pos + 0) (-1 * w);
                         mkTriplet r (cell_index field pos
                                      + nth d (strides field) 0) (1 * w) ])
               (λ d, (nth d gradient 0 * w)%Q))
      by (intros e d; by apply gradient_nearest_spec).
    simpl. intros [Hr _]. apply append_rows_coefficient_sum; [done| | |done].
    + intros d _. eexists. repeat constructor.
    + intros d _. unfold sum_values. simpl. ring.
  - destruct (cell_index field pos <? 0); intros [= _ <-]; [lia|].
    rewrite (fold_append_rows _
               (λ r d, cell_edges_triplets field (length (sizes field))
                         (cell_index field pos) r
                         (w * 2 / inject_Z (Z.shiftl 1
                                              (Z.of_nat (length (sizes field)))))%Q
                         d (seqZ 0 (Z.shiftl 1 (Z.of_nat (length (sizes field))))))
               (λ d, (w * nth d gradient 0)%Q))
      by (intros e d; apply gradient_cell_edges_spec).
    simpl. intros [Hr _]. apply append_rows_coefficient_sum; [done| | |done].
    + intros d _. eexists. apply cell_edges_triplets_rows.
    + intros d Hd. apply list_elem_of_In, in_seq in Hd.
      apply cell_edges_triplets_sum. lia.
  - destruct (multilerp field _ 1) as [samples|]; [|done].
    cbn [mbind option_bind].
    destruct (length samples =? 0)%nat; intros [= _ <-]; [lia|].
    rewrite (fold_append_rows _
               (λ r d, lerp_triplets field r w d samples)
               (λ d, (lerp_weight_sum w samples * nth d gradient 0)%Q))
      by (intros e d; apply gradient_lerp_spec).
    simpl. intros [Hr _]. apply append_rows_coefficient_sum; [done| | |done].
    + intros d _. eexists. apply lerp_triplets_rows.
    + intros d _. apply lerp_triplets_sum.
Qed.

Lemma gradient_rows_sum_zero_witness :
  ∃ field',
    add_gradient_constraint (new_LatticeField [3; 3]) [1; 1]%Q [1; 0]%Q 1
      kCellEdges = Some (true, field')
    ∧ rhs_size (eqn field') = 2
    ∧ (coefficient_sum (eqn field') 1 == 0)%Q.
Proof.
  eexists. split; [vm_compute; reflexivity|]. split; [reflexivity|].
  apply (gradient_rows_sum_zero (new_LatticeField [3; 3]) [1; 1]%Q [1; 0]%Q 1
           kCellEdges true).
  - constructor.
  - vm_compute. reflexivity.
  - vm_compute. split; congruence.
Defined.

(** ** Every column is a cell index *)

Lemma cols_in_range_append n e ts :
  cols_in_range n e → Forall (λ t, 0 ≤ col t < n) ts →
  ∀ x, cols_in_range n {| triplets := triplets e ++ ts; rhs := x |}.
Proof. intros He Hts x. unfold cols_in_range. simpl. by apply Forall_app. Qed.

Lemma cols_in_range_flat_map {A} n (row_of : A → list Triplet) ds :
  (∀ d, d ∈ ds → Forall (λ t, 0 ≤ col t < n) (row_of d)) →
  Forall (λ t, 0 ≤ col t < n) (flat_map row_of ds).
Proof.
  induction ds as [|d ds IH]; intros H; simpl; [constructor|].
  apply Forall_app. split; [apply H; left|].
  apply IH. intros d' Hd'. apply H. by right.
Qed.

Lemma equation_triplets_cols n r weight pairs :
  Forall (λ pair, 0 ≤ column pair < n) pairs →
  Forall (λ t, 0 ≤ col t < n) (equation_triplets r weight pairs).
Proof.
  intros Hpairs. unfold equation_triplets. apply Forall_forall. intros t Ht.
  apply list_elem_of_In, in_map_iff in Ht. destruct Ht as (pair & <- & Hin).
  apply list_elem_of_In, list_elem_of_filter in Hin. destruct Hin as [_ Hin].
  simpl. by apply (proj1 (Forall_forall _ _) Hpairs).
Qed.

Lemma add_equation_cols n e weight rhs_value pairs :
  cols_in_range n e →
  Forall (λ pair, 0 ≤ column pair < n) pairs →
  cols_in_range n (add_equation e weight rhs_value pairs).
Proof.
  intros He Hpairs. rewrite add_equation_spec.
  destruct (Qeq_bool weight 0); [done|].
  pose proof (equation_triplets_cols n (rhs_size e) weight pairs Hpairs) as Hts.
  destruct (equation_triplets (rhs_size e) weight pairs) as [|t ts]; [done|].
  by apply cols_in_range_append.
Qed.

Lemma cols_stage n e weight (c1 c2 : bool) pairs :
  cols_in_range n e →
  (c1 = true → c2 = true → Forall (λ pair, 0 ≤ column pair < n) pairs) →
  cols_in_range n
    (if Qpositive weight && c1 && c2 then add_equation e weight 0 pairs else e).
Proof.
  intros He Hpairs.
  destruct (Qpositive weight); [|done]. destruct c1; [|done].
  destruct c2; [|done]. simpl. apply add_equation_cols; auto.
Qed.

Lemma fold_left_cols {A} n (step : LinearEquation → A → LinearEquation) l e :
  (∀ e a, a ∈ l → cols_in_range n e → cols_in_range n (step e a)) →
  cols_in_range n e → cols_in_range n (fold_left step l e).
Proof.
  revert e. induction l as [|a l IH]; intros e Hstep He; simpl; [done|].
  apply IH.
  - intros e' a' Ha'. apply Hstep. by right.
  - apply Hstep; [left|done].
Qed.

Section columns.
Context (dims : list Z).
Hypothesis dims_positive : Forall (λ s, 1 ≤ s) dims.

#[local] Abbreviation cells := (Zprod dims).
#[local] Abbreviation stride_of := (λ d, nth d (strides_from 1 dims) 0).

(** The cell [j] steps along [d] from a cell where the stencil fits. *)
Lemma stencil_column_valid index d j k :
  0 ≤ index < cells → (d < length dims)%nat →
  0 ≤ j ≤ k →
  nth d (coordinate_from_index_loop dims index) 0 + k < nth d dims 0 →
  0 ≤ index + j * stride_of d < cells.
Proof using dims_positive.
  intros Hi Hd Hj Hfit.
  by apply coordinate_shift; [done..|lia|lia].
Qed.

(** The cell one step along [d] and one step along another dimension. *)
Lemma cross_column_valid index d o :
  0 ≤ index < cells → (d < length dims)%nat → (o < length dims)%nat → d ≠ o →
  nth d (coordinate_from_index_loop dims index) 0 + 1 < nth d dims 0 →
  nth o (coordinate_from_index_loop dims index) 0 + 1 < nth o dims 0 →
  0 ≤ index + 1 * stride_of o + 1 * stride_of d < cells.
Proof using dims_positive.
  intros Hi Hd Ho Hne Hfd Hfo.
  destruct (coordinate_shift dims index d 1) as [Hco Hrange]; [done..|lia|done|].
  replace (index + 1 * stride_of o + 1 * stride_of d)
    with (index + 1 * stride_of d + 1 * stride_of o) by lia.
  apply coordinate_shift; [done..|lia|].
  rewrite Hco. rewrite !nth_lookup, list_lookup_insert_ne by done.
  rewrite <- !nth_lookup. done.
Qed.

Ltac column_stage k :=
  let H0 := fresh "H0" in
  let Hfit := fresh "Hfit" in
  intros H0 Hfit; apply Z.leb_le in H0; apply Z.ltb_lt in Hfit;
  repeat (constructor;
          [cbn [column];
           try (apply (stencil_column_valid _ _ _ k); [done|done|lia|lia])|]);
  try constructor.

Lemma model_orthogonal_cols field weights index d e o :
  sizes field = dims →
  strides field = strides_from 1 dims →
  0 ≤ index < cells →
  (d < length dims)%nat → (o < length dims)%nat →
  nth d (coordinate_from_index_loop dims index) 0 + 1 < nth d dims 0 →
  cols_in_range cells e →
  cols_in_range cells
    (model_orthogonal field weights (coordinate_from_index_loop dims index)
       index d e o).
Proof using dims_positive.
  intros Hsizes Hstrides Hi Hd Ho Hfd He. unfold model_orthogonal.
  destruct (Nat.eqb_spec d o) as [_|Hne]; [done|].
  rewrite Hsizes, Hstrides.
  destruct (Z.geb_spec (nth o (coordinate_from_index_loop dims index) 0 + 1)
              (nth o dims 0)) as [_|Hfo]; [done|].
  apply add_equation_cols; [done|].
  pose proof (stencil_column_valid index d 1 1 Hi Hd ltac:(lia) Hfd) as Hcd.
  pose proof (stencil_column_valid index o 1 1 Hi Ho ltac:(lia) Hfo) as Hco.
  pose proof (cross_column_valid index d o Hi Hd Ho Hne Hfd Hfo) as Hcross.
  repeat (constructor; [cbn [column]; lia|]). constructor.
Qed.

Lemma add_model_constraint_cols field weights index d :
  sizes field = dims →
  strides field = strides_from 1 dims →
  0 ≤ index < cells →
  (d < length dims)%nat →
  cols_in_range cells (eqn field) →
  cols_in_range cells
    (eqn (add_model_constraint field weights
            (coordinate_from_index_loop dims index) index d)).
Proof using dims_positive.
  intros Hsizes Hstrides Hi Hd He.
  unfold add_model_constraint. rewrite Hsizes, Hstrides.
  cbn [set_eqn eqn].
  match goal with
  | |- cols_in_range _ (if ?c then fold_left _ _ ?e5 else _) =>
      assert (cols_in_range cells e5) as H5;
      [|destruct c eqn:Hc; [|exact H5]]
  end.
  { apply cols_stage; [|column_stage 4].
    apply cols_stage; [|column_stage 3].
    apply cols_stage; [|column_stage 2].
    apply cols_stage; [|column_stage 1].
    apply cols_stage; [done|].
    intros _ _. constructor; [simpl; lia|constructor]. }
  apply andb_true_iff in Hc. destruct Hc as [_ Hfit]. apply Z.ltb_lt in Hfit.
  apply fold_left_cols; [|exact H5].
  intros e o Ho He'. apply list_elem_of_In, in_seq in Ho.
  apply model_orthogonal_cols; [done..|lia|done|done].
Qed.
End columns.

Lemma field_cols_ok_set_eqn field e :
  lattice_ok field →
  cols_in_range (num_unknowns_of (sizes field)) e →
  field_cols_ok (set_eqn field e).
Proof. intros Hok He. by split. Qed.

Lemma cols_in_range_append_rows n e row_of rhs_of ds :
  cols_in_range n e →
  (∀ d, d ∈ ds → Forall (λ t, 0 ≤ col t < n) (row_of d)) →
  cols_in_range n (append_rows e row_of rhs_of ds).
Proof.
  intros He Hrows. apply cols_in_range_append; [done|].
  by apply cols_in_range_flat_map.
Qed.

Lemma add_model_constraint_field_cols field weights index d :
  field_cols_ok field →
  0 ≤ index < num_unknowns_of (sizes field) →
  (d < length (sizes field))%nat →
  field_cols_ok
    (add_model_constraint field weights
       (coordinate_from_index_loop (sizes field) index) index d).
Proof.
  intros [[Hs Hst] Hc] Hi Hd. split; [by split|].
  change (sizes (add_model_constraint field weights
                   (coordinate_from_index_loop (sizes field) index) index d))
    with (sizes field).
  rewrite num_unknowns_of_Zprod in Hc, Hi |- *.
  by apply add_model_constraint_cols.
Qed.

Lemma add_field_constraints_cols field weights :
  field_cols_ok field → field_cols_ok (add_field_constraints field weights).
Proof.
  intros Hok. unfold add_field_constraints.
  apply (fold_left_invariant
           (λ f, field_cols_ok f ∧ sizes f = sizes field)); [|done].
  intros f index Hi [Hf Hfs]. apply elem_of_seqZ in Hi.
  unfold add_field_constraints_cell, coordinate_from_index.
  apply (fold_left_invariant
           (λ f', field_cols_ok f' ∧ sizes f' = sizes field)); [|done].
  intros f' d Hd [Hf' Hfs']. apply list_elem_of_In, in_seq in Hd.
  split; [|done]. rewrite Hfs, <- Hfs'.
  apply add_model_constraint_field_cols; [done| |].
  - rewrite Hfs'. lia.
  - rewrite Hfs', <- Hfs. lia.
Qed.

Lemma add_value_constraint_cols field pos value weight r field' :
  field_cols_ok field →
  add_value_constraint field pos value weight = Some (r, field') →
  field_cols_ok field'.
Proof.
  intros [Hok Hcols]. unfold add_value_constraint.
  destruct (Qeq_bool weight 0); [by intros [= _ <-]|].
  destruct (multilerp field pos 0) as [samples|] eqn:Hs; [|done].
  cbn [mbind option_bind].
  destruct (length samples =? 0)%nat; [by intros [= _ <-]|].
  pose proof (value_samples_fold (rhs_size (eqn field)) weight samples
                (eqn field) 0%Q) as [Hfst _].
  destruct (fold_left _ samples (eqn field, 0%Q)) as [e weight_sum].
  cbn [fst] in Hfst. subst e. intros [= _ <-].
  apply field_cols_ok_set_eqn; [done|].
  apply cols_in_range_append; [done|].
  pose proof (multilerp_samples_valid field pos 0 samples Hok ltac:(lia) Hs)
    as Hvalid.
  unfold value_triplets. apply Forall_forall. intros t Ht.
  apply list_elem_of_In, in_map_iff in Ht. destruct Ht as (s & <- & Hin).
  apply list_elem_of_In in Hin.
  by destruct (proj1 (Forall_forall _ _) Hvalid s Hin) as [? _].
Qed.

Lemma cell_index_nonneg_in_cell field pos :
  0 ≤ cell_index field pos → in_cell_range field pos.
Proof.
  intros Hci. unfold cell_index in Hci.
  destruct (cell_index_loop_cases field pos (seq 0 (length (sizes field))) 0)
    as [Hfail|[Hall _]]; [lia|].
  by apply in_cell_range_Forall.
Qed.

Lemma corner_index_valid field pos c :
  lattice_ok field → in_cell_range field pos → 0 ≤ c →
  0 ≤ corner_index field (length (sizes field)) (cell_index field pos) c
  < num_unknowns_of (sizes field).
Proof.
  intros [Hs Hst] Hin Hc.
  rewrite corner_index_cell_corner by done. unfold cell_corner.
  rewrite cell_index_in_cell by done. rewrite <- Zsum_map_plus.
  rewrite num_unknowns_of_Zprod, Hst.
  erewrite map_ext;
    [apply (row_major_index_valid (sizes field)
              (λ a, Qfloor (nth a pos 0%Q) + bit_of c a))|].
  - intros d Hd. specialize (Hin d Hd). unfold bit_of.
    destruct (Z.testbit c (Z.of_nat d)); simpl; lia.
  - intros a. simpl. lia.
Qed.

Lemma add_gradient_constraint_cols field pos gradient weight kernel r field' :
  field_cols_ok field →
  add_gradient_constraint field pos gradient weight kernel = Some (r, field') →
  field_cols_ok field'.
Proof.
  intros [Hok Hcols]. unfold add_gradient_constraint.
  destruct (Qeq_bool weight 0); [by intros [= _ <-]|].
  destruct kernel.
  - destruct (Z.ltb_spec (cell_index field pos) 0) as [_|Hci];
      intros [= _ <-]; [done|].
    pose proof (cell_index_nonneg_in_cell field pos Hci) as Hin.
    destruct (cell_index_valid field pos Hok Hin) as (Hrange & Hnext & _).
    apply field_cols_ok_set_eqn; [done|].
    apply fold_left_cols; [|done].
    intros e d Hd He. apply list_elem_of_In, in_seq in Hd.
    apply add_equation_cols; [done|].
    specialize (Hnext d ltac:(lia)).
    destruct Hok as [Hs Hst].
    pose proof (stride_nonneg (sizes field) d Hs) as Hst0. rewrite <- Hst in Hst0.
    repeat (constructor; [cbn [column]; lia|]). constructor.
  - destruct (Z.ltb_spec (cell_index field pos) 0) as [_|Hci];
      intros [= _ <-]; [done|].
    pose proof (cell_index_nonneg_in_cell field pos Hci) as Hin.
    apply field_cols_ok_set_eqn; [done|].
    rewrite (fold_append_rows _
               (λ r d, cell_edges_triplets field (length (sizes field))
                         (cell_index field pos) r
                         (weight * 2
                          / inject_Z (Z.shiftl 1
                                        (Z.of_nat (length (sizes field)))))%Q
                         d (seqZ 0 (Z.shiftl 1 (Z.of_nat (length (sizes field))))))
               (λ d, (weight * nth d gradient 0)%Q))
      by (intros e d; apply gradient_cell_edges_spec).
    apply cols_in_range_append_rows; [done|].
    intros d _. unfold cell_edges_triplets. apply Forall_forall. intros t Ht.
    apply list_elem_of_In, in_map_iff in Ht. destruct Ht as (c & <- & Hc).
    apply list_elem_of_In, elem_of_seqZ in Hc. simpl.
    apply corner_index_valid; [done..|lia].
  - destruct (multilerp field _ 1) as [samples|] eqn:Hs; [|done].
    cbn [mbind option_bind].
    destruct (length samples =? 0)%nat; intros [= _ <-]; [done|].
    apply field_cols_ok_set_eqn; [done|].
    rewrite (fold_append_rows _
               (λ r d, lerp_triplets field r weight d samples)
               (λ d, (lerp_weight_sum weight samples * nth d gradient 0)%Q))
      by (intros e d; apply gradient_lerp_spec).
    apply cols_in_range_append_rows; [done|].
    intros d Hd. apply list_elem_of_In, in_seq in Hd.
    pose proof (multilerp_samples_valid field _ 1 samples Hok ltac:(lia) Hs)
      as Hvalid.
    unfold lerp_triplets. apply Forall_forall. intros t Ht.
    apply list_elem_of_In, in_flat_map in Ht. destruct Ht as (s & Hin & Ht).
    apply list_elem_of_In in Hin.
    destruct (proj1 (Forall_forall _ _) Hvalid s Hin) as [H0 H1].
    specialize (H1 d ltac:(lia)).
    simpl in Ht. destruct Ht as [<-|[<-|[]]]; simpl; lia.
Qed.

Lemma multilerp_returns field in_pos extra_bound :
  (1 ≤ length (sizes field) ≤ 4)%nat →
  ∃ samples, multilerp field in_pos extra_bound = Some samples.
Proof.
  intros [Hlo Hhi]. rewrite multilerp_spec.
  apply Nat.leb_le in Hlo. apply Nat.leb_le in Hhi.
  unfold MAX_DIM. rewrite Hlo, Hhi. eauto.
Qed.





Lemma foldlM_invariant {A B} (I : B → Prop) (g : B → A → option B) l b b' :
  (∀ b a b', a ∈ l → I b → g b a = Some b' → I b') →
  I b → foldlM g l b = Some b' → I b'.
Proof.
  revert b. induction l as [|a l IH]; intros b Hg Hb; simpl.
  - by intros [= <-].
  - destruct (g b a) as [b1|] eqn:E; [|done]. cbn [mbind option_bind].
    apply IH.
    + intros b2 a2 b3 Ha2. apply Hg. by right.
    + eapply Hg; [left|done..].
Qed.

(** X11.  Columns stay inside the lattice: starting from a field on a
    lattice with cells whose triplets all name cells, any sequence of value
    constraints, gradient constraints under any kernel and whole-lattice
    model constraints, at any positions and with any weights, leaves a
    system in which every triplet's column lies in [0, num_unknowns). *)
Theorem assembly_columns_valid ops field field' :
  field_cols_ok field →
  Forall public_op ops →
  run_ops ops field = Some field' →
  sizes field' = sizes field
  ∧ Forall (λ t, 0 ≤ col t < num_unknowns_of (sizes field))
      (triplets (eqn field')).
Proof.
  intros Hok Hops Hrun.
  assert (field_cols_ok field' ∧ sizes field' = sizes field) as [[_ Hc] Hs].
  { revert Hrun.
    apply (foldlM_invariant (λ f, field_cols_ok f ∧ sizes f = sizes field));
      [|done].
    intros f op f' Hop [Hf Hfs] Hstep.
    pose proof (proj1 (Forall_forall _ _) Hops op Hop) as Hpub.
    pose proof (run_op_grows f op f' Hstep) as (_ & Hsz & _).
    split; [|congruence].
    destruct op as [w r pairs|pos v w|pos g w k|ws c i d|ws];
      simpl in Hpub, Hstep; try done.
    - destruct (add_value_constraint f pos v w) as [[b f1]|] eqn:E; [|done].
      injection Hstep as <-. by eapply add_value_constraint_cols.
    - destruct (add_gradient_constraint f pos g w k) as [[b f1]|] eqn:E; [|done].
      injection Hstep as <-. by eapply add_gradient_constraint_cols.
    - injection Hstep as <-. by apply add_field_constraints_cols. }
  split; [done|]. by rewrite Hs in Hc.
Qed.

Lemma assembly_columns_valid_witness :
  ∃ field',
    run_ops [ op_field (mkWeights 1 1 1 1 1 0 0 1 kCellEdges);
              op_value [3 # 2; 2]%Q 0 1;
              op_gradient [0; 1 # 2]%Q [1; 0]%Q 1 kCellEdges;
              op_gradient [1; 1]%Q [0; 1]%Q 1 kLinearInteprolation ]
      (new_LatticeField [2; 3]) = Some field'
    ∧ sizes field' = [2; 3]
    ∧ Forall (λ t, 0 ≤ col t < 6) (triplets (eqn field')).
Proof.
  eexists. split; [vm_compute; reflexivity|].
  apply (assembly_columns_valid
           [ op_field (mkWeights 1 1 1 1 1 0 0 1 kCellEdges);
             op_value [3 # 2; 2]%Q 0 1;
             op_gradient [0; 1 # 2]%Q [1; 0]%Q 1 kCellEdges;
             op_gradient [1; 1]%Q [0; 1]%Q 1 kLinearInteprolation ]
           (new_LatticeField [2; 3])).
  - split; [split; [|reflexivity]|constructor].
    repeat (constructor; [lia|]). constructor.
  - repeat constructor.
  - vm_compute. reflexivity.
Defined.




(** ** The cross-partial rows, and all the model rows together *)

Lemma eval_powers_insert_free expo (c : list Z) d y :
  (d < length c)%nat → nth d expo 0%nat = 0%nat →
  (eval_powers expo (<[d := y]> c) == eval_powers expo c)%Q.
Proof.
  intros Hd H0. destruct (eval_powers_insert expo c d Hd) as [R HR].
  destruct (lookup_lt_is_Some_2 c d Hd) as [x Hx].
  rewrite <- (list_insert_id c d x Hx) at 2.
  by rewrite !HR, H0.
Qed.

Lemma eval_poly_cross p (c : list Z) d o y z :
  degree_lt 2 p → (d < length c)%nat → (o < length c)%nat → d ≠ o →
  (- eval_poly p c + eval_poly p (<[d := y]> c) + eval_poly p (<[o := z]> c)
   - eval_poly p (<[o := z]> (<[d := y]> c)) == 0)%Q.
Proof.
  intros Hdeg Hd Ho Hne. unfold eval_poly.
  induction Hdeg as [|m p Hm _ IH]; simpl; [ring|].
  assert (- eval_monomial m c + eval_monomial m (<[d := y]> c)
          + eval_monomial m (<[o := z]> c)
          - eval_monomial m (<[o := z]> (<[d := y]> c)) == 0)%Q as Hmono.
  { unfold eval_monomial.
    destruct (nth d (mono_expo m) 0%nat) as [|ad] eqn:Had.
    - rewrite (list_insert_insert_ne c o d z y) by done.
      rewrite (eval_powers_insert_free _ c d y) by done.
      rewrite (eval_powers_insert_free _ (<[o := z]> c) d y)
        by (rewrite ?length_insert; done).
      ring.
    - assert (nth o (mono_expo m) 0%nat = 0%nat) as Hao.
      { pose proof (list_sum_nth_le (mono_expo m) d) as H1.
        assert (nth d (mono_expo m) 0 + nth o (mono_expo m) 0
                ≤ list_sum (mono_expo m))%nat; [|lia].
        clear -Hne. revert d o Hne.
        induction (mono_expo m) as [|a l IHl]; intros d o Hne;
          [destruct d, o; simpl; lia|].
        destruct d as [|d], o as [|o]; simpl; try lia.
        - pose proof (list_sum_nth_le l o). lia.
        - pose proof (list_sum_nth_le l d). lia.
        - specialize (IHl d o ltac:(lia)). lia. }
      rewrite (eval_powers_insert_free _ c o z) by done.
      rewrite (eval_powers_insert_free _ (<[d := y]> c) o z)
        by (rewrite ?length_insert; done).
      ring. }
  lra.
Qed.

Lemma sample_polynomial_at dims p index :
  0 ≤ index < Zprod dims →
  vec_at (sample_polynomial dims p) index
  = eval_poly p (coordinate_from_index_loop dims index).
Proof.
  intros Hi. unfold sample_polynomial. rewrite num_unknowns_of_Zprod.
  by rewrite vec_at_map_seqZ.
Qed.

Section smoothness_null_space.
Context (dims : list Z) (weights : Weights) (p : list monomial).
Hypothesis dims_positive : Forall (λ s, 1 ≤ s) dims.
Hypothesis active_orders :
  ∀ j, (j ≤ 4)%nat → Qpositive (model_weight weights j) = true → degree_lt j p.
Hypothesis smoothness_order :
  Qpositive (gradient_smoothness weights) = true → degree_lt 2 p.

#[local] Abbreviation sampled := (sample_polynomial dims p).

(** The cross-partial row of the dimensions [d] and [o], from a cell where
    both steps fit, vanishes on the sampled polynomial. *)
Lemma model_orthogonal_null field index d e o :
  sizes field = dims →
  strides field = strides_from 1 dims →
  0 ≤ index < Zprod dims →
  (d < length dims)%nat → (o < length dims)%nat →
  Qpositive (gradient_smoothness weights) = true →
  nth d (coordinate_from_index_loop dims index) 0 + 1 < nth d dims 0 →
  null_rows sampled e →
  null_rows sampled
    (model_orthogonal field weights (coordinate_from_index_loop dims index)
       index d e o).
Proof using dims_positive smoothness_order.
  intros Hsizes Hstrides Hi Hd Ho Hgs Hfd He. unfold model_orthogonal.
  destruct (Nat.eqb_spec d o) as [_|Hne]; [done|].
  rewrite Hsizes, Hstrides.
  destruct (Z.geb_spec (nth o (coordinate_from_index_loop dims index) 0 + 1)
              (nth o dims 0)) as [_|Hfo]; [done|].
  apply null_rows_add_equation; [done|].
  set (c := coordinate_from_index_loop dims index) in *.
  set (sd := nth d (strides_from 1 dims) 0).
  set (so := nth o (strides_from 1 dims) 0).
  destruct (coordinate_shift dims index d 1) as [Hcd Hrd]; [done..|lia|done|].
  fold c sd in Hcd, Hrd.
  unfold pairs_dot. cbn [map Qsum coefficient column].
  replace (index + 0 * so + 0 * sd) with index by lia.
  replace (index + 0 * so + 1 * sd) with (index + 1 * sd) by lia.
  replace (index + 1 * so + 0 * sd) with (index + 1 * so) by lia.
  replace (index + 1 * so + 1 * sd) with (index + 1 * sd + 1 * so) by lia.
  rewrite (sample_polynomial_at dims p index) by done.
  unfold sd at 1. rewrite (sample_polynomial_shift dims p index d 1)
    by (done || lia).
  unfold so at 1. rewrite (sample_polynomial_shift dims p index o 1)
    by (done || lia).
  assert (nth o (<[d := nth d c 0 + 1]> c) 0 = nth o c 0) as Hnth.
  { rewrite !nth_lookup, list_lookup_insert_ne by done. done. }
  unfold so. rewrite (sample_polynomial_shift dims p (index + 1 * sd) o 1);
    [|done|done|done|lia|rewrite Hcd, Hnth; done].
  rewrite Hcd, Hnth. fold c.
  pose proof (eval_poly_cross p c d o (nth d c 0 + 1) (nth o c 0 + 1)
                (smoothness_order Hgs)) as Hcross.
  unfold c in Hcross at 1 2.
  rewrite !coordinate_from_index_loop_length in Hcross.
  specialize (Hcross Hd Ho Hne). fold c in Hcross. lra.
Qed.

Ltac stencil_stage_general j :=
  let Hw := fresh "Hw" in
  let H0 := fresh "H0" in
  let Hfit := fresh "Hfit" in
  intros Hw H0 Hfit;
  apply Z.leb_le in H0; apply Z.ltb_lt in Hfit;
  etransitivity;
    [|apply (stencil_sum_sampled dims weights p dims_positive active_orders j);
      [lia|exact Hw|eassumption..|lia]];
  unfold pairs_dot, stencil_sum;
  cbn [map Qsum fst snd coefficient column stencil];
  rewrite ?Z.mul_0_l, ?Z.add_0_r; ring.

Lemma add_model_constraint_null_general field index d :
  sizes field = dims →
  strides field = strides_from 1 dims →
  0 ≤ index < Zprod dims →
  (d < length dims)%nat →
  null_rows sampled (eqn field) →
  null_rows sampled
    (eqn (add_model_constraint field weights
            (coordinate_from_index_loop dims index) index d)).
Proof using dims_positive active_orders smoothness_order.
  intros Hsizes Hstrides Hi Hd Hnull.
  unfold add_model_constraint. rewrite Hsizes, Hstrides.
  cbn [set_eqn eqn].
  match goal with
  | |- null_rows _ (if ?c then fold_left _ _ ?e5 else _) =>
      assert (null_rows sampled e5) as H5;
      [|destruct c eqn:Hc; [|exact H5]]
  end.
  { apply null_rows_stage; [|stencil_stage_general 4%nat].
    apply null_rows_stage; [|stencil_stage_general 3%nat].
    apply null_rows_stage; [|stencil_stage_general 2%nat].
    apply null_rows_stage; [|stencil_stage_general 1%nat].
    apply null_rows_stage; [done|stencil_stage_general 0%nat]. }
  apply andb_true_iff in Hc. destruct Hc as [Hc Hfit]. apply Z.ltb_lt in Hfit.
  apply andb_true_iff in Hc. destruct Hc as [Hgs _].
  apply (fold_left_invariant (null_rows sampled)); [|exact H5].
  intros e o Ho He. apply list_elem_of_In, in_seq in Ho.
  apply model_orthogonal_null; [done..|lia|done|done|done].
Qed.

Lemma add_field_constraints_null_general field :
  sizes field = dims →
  strides field = strides_from 1 dims →
  null_rows sampled (eqn field) →
  null_rows sampled (eqn (add_field_constraints field weights)).
Proof using dims_positive active_orders smoothness_order.
  intros Hsizes Hstrides Hnull.
  unfold add_field_constraints.
  apply (fold_left_invariant
           (λ f, sizes f = dims ∧ strides f = strides_from 1 dims
                 ∧ null_rows sampled (eqn f))); [|done].
  intros f index Hindex (Hs & Ht & Hn).
  apply elem_of_seqZ in Hindex.
  rewrite Hsizes, num_unknowns_of_Zprod in Hindex.
  unfold add_field_constraints_cell, coordinate_from_index. rewrite Hs.
  apply (fold_left_invariant
           (λ f, sizes f = dims ∧ strides f = strides_from 1 dims
                 ∧ null_rows sampled (eqn f))); [|done].
  intros f' d Hd (Hs' & Ht' & Hn').
  apply list_elem_of_In, in_seq in Hd.
  split; [done|]. split; [done|].
  apply add_model_constraint_null_general; [done..|lia|lia|done].
Qed.
End smoothness_null_space.

(** X13.  The null space of the model rows, all priors together: on a
    lattice with sizes at least 1, a polynomial in the lattice coordinates
    whose degree is below every order [k] with [model_k > 0], and below 2
    when [gradient_smoothness > 0], has zero residual on every row that
    [add_field_constraints] assembles.  With only [gradient_smoothness]
    positive these are the affine fields. *)
Theorem model_rows_null_space dims weights p :
  Forall (λ s, 1 ≤ s) dims →
  (∀ j, (j ≤ 4)%nat → (0 < model_weight weights j)%Q → degree_lt j p) →
  ((0 < gradient_smoothness weights)%Q → degree_lt 2 p) →
  let field := add_field_constraints (new_LatticeField dims) weights in
  ∀ r, 0 ≤ r < Z.of_nat (length (rhs (eqn field))) →
       (residual (triplets (eqn field)) (sample_polynomial dims p)
          (rhs (eqn field)) r == 0)%Q.
Proof.
  intros Hdims Hact Hsmooth field.
  apply (add_field_constraints_null_general dims weights p); [done| | |done..|].
  - intros j Hj Hpos. apply Hact; [done|]. by apply Qpositive_true.
  - intros Hpos. apply Hsmooth. by apply Qpositive_true.
  - apply new_LatticeField_null.
Qed.

(** The affine field [1 + 2 x - 3 y] under the cross-partial prior and the
    second differences together, on a 3 by 3 lattice. *)
Lemma model_rows_null_space_witness :
  let weights := mkWeights 0 0 0 0 1 0 0 1 kNearestNeighbor in
  let p := [ mkMonomial 1 []; mkMonomial 2 [1%nat];
             mkMonomial (-3) [0%nat; 1%nat] ] in
  let field := add_field_constraints (new_LatticeField [3; 3]) weights in
  length (rhs (eqn field)) = 14%nat
  ∧ ∀ r, 0 ≤ r < 14 →
         (residual (triplets (eqn field)) (sample_polynomial [3%Z; 3%Z] p)
            (rhs (eqn field)) r == 0)%Q.
Proof.
  intros weights p field. split; [reflexivity|].
  intros r Hr.
  apply (model_rows_null_space [3; 3] weights p).
  - repeat (constructor; [lia|]). constructor.
  - intros [|[|[|[|[|j]]]]] Hj Hpos; try (exfalso; vm_compute in Hpos; congruence);
      try lia.
    repeat (constructor; [simpl; lia|]). constructor.
  - intros _. repeat (constructor; [simpl; lia|]). constructor.
  - replace (Z.of_nat (length (rhs (eqn
               (add_field_constraints (new_LatticeField [3; 3]) weights)))))
      with 14 by (vm_compute; reflexivity).
    exact Hr.
Defined.

(** ** Homogeneous systems *)

Lemma add_equation_rhs_zero e weight pairs :
  rhs_zero e → rhs_zero (add_equation e weight 0 pairs).
Proof.
  intros He. rewrite add_equation_spec.
  destruct (Qeq_bool weight 0); [done|].
  destruct (equation_triplets (rhs_size e) weight pairs); [done|].
  unfold rhs_zero. simpl. apply Forall_app. split; [done|].
  constructor; [ring|constructor].
Qed.

Lemma model_orthogonal_rhs_zero field weights coordinate index d e o :
  rhs_zero e → rhs_zero (model_orthogonal field weights coordinate index d e o).
Proof.
  intros He. unfold model_orthogonal.
  destruct (d =? o)%nat; [done|]. destruct (_ >=? _); [done|].
  by apply add_equation_rhs_zero.
Qed.

Lemma add_model_constraint_rhs_zero field weights coordinate index d :
  rhs_zero (eqn field) →
  rhs_zero (eqn (add_model_constraint field weights coordinate index d)).
Proof.
  intros He. unfold add_model_constraint. cbn [set_eqn eqn].
  repeat match goal with
         | |- context [if ?c then _ else _] => destruct c
         end;
    repeat first
      [ exact He
      | apply add_equation_rhs_zero
      | apply (fold_left_invariant rhs_zero);
          [intros; by apply model_orthogonal_rhs_zero|] ].
Qed.

Lemma add_field_constraints_rhs_zero field weights :
  rhs_zero (eqn field) → rhs_zero (eqn (add_field_constraints field weights)).
Proof.
  intros He. unfold add_field_constraints.
  apply (fold_left_invariant (λ f, rhs_zero (eqn f))); [|done].
  intros f index _ Hf. unfold add_field_constraints_cell.
  apply (fold_left_invariant (λ f, rhs_zero (eqn f))); [|done].
  intros f' d _ Hf'. by apply add_model_constraint_rhs_zero.
Qed.

Lemma add_value_constraint_rhs_zero field pos weight r field' :
  rhs_zero (eqn field) →
  add_value_constraint field pos 0 weight = Some (r, field') →
  rhs_zero (eqn field').
Proof.
  intros He. unfold add_value_constraint.
  destruct (Qeq_bool weight 0); [by intros [= _ <-]|].
  destruct (multilerp field pos 0) as [samples|]; [|done].
  cbn [mbind option_bind].
  destruct (length samples =? 0)%nat; [by intros [= _ <-]|].
  pose proof (value_samples_fold (rhs_size (eqn field)) weight samples
                (eqn field) 0%Q) as [Hfst _].
  destruct (fold_left _ samples (eqn field, 0%Q)) as [e weight_sum].
  cbn [fst] in Hfst. subst e. intros [= _ <-].
  unfold rhs_zero. simpl. apply Forall_app. split; [done|].
  constructor; [ring|constructor].
Qed.

(** X14.  Without normals the system is homogeneous: every entry of the
    right-hand side that [sdf_from_points] assembles from model priors and
    value constraints alone is zero, so the zero field satisfies every
    equation exactly; only gradient constraints make the system say
    anything else. *)
Theorem sdf_without_normals_homogeneous dims weights num_points positions
    point_weights field :
  sdf_from_points dims weights num_points positions None point_weights
  = Some field →
  Forall (λ x, (x == 0)%Q) (rhs (eqn field)).
Proof.
  unfold sdf_from_points.
  apply (foldlM_invariant (λ f, rhs_zero (eqn f))).
  - intros f i f' _ Hf. unfold sdf_point.
    destruct (add_value_constraint f _ 0 _) as [[r f1]|] eqn:Hv; [|done].
    cbn [mbind option_bind snd]. intros [= <-].
    by eapply add_value_constraint_rhs_zero.
  - apply add_field_constraints_rhs_zero. constructor.
Qed.

Lemma sdf_without_normals_homogeneous_witness :
  ∃ field,
    sdf_from_points [3; 3] (mkWeights 2 1 1 1 1 0 0 1 kCellEdges) 2
      [1 # 2; 1; 3 # 2; 1 # 4]%Q None (Some [1; 3]%Q)
    = Some field
    ∧ (0 < length (rhs (eqn field)))%nat
    ∧ Forall (λ x, (x == 0)%Q) (rhs (eqn field)).
Proof.
  eexists. split; [vm_compute; reflexivity|]. split; [vm_compute; lia|].
  apply (sdf_without_normals_homogeneous [3; 3]
           (mkWeights 2 1 1 1 1 0 0 1 kCellEdges) 2
           [1 # 2; 1; 3 # 2; 1 # 4]%Q (Some [1; 3]%Q)).
  vm_compute. reflexivity.
Defined.

(** ** Zero data weights *)





(** ** The dimension check *)

(** X16.  [add_value_constraint] aborts exactly when the weight is nonzero
    and the lattice has no dimension or more than four: a zero weight
    returns before [multilerp] is reached, and on 1 to 4 dimensions
    [multilerp] passes its check. *)
Theorem add_value_constraint_aborts_iff field pos value weight :
  add_value_constraint field pos value weight = None
  ↔ ¬ (weight == 0)%Q ∧ ¬ (1 ≤ length (sizes field) ≤ 4)%nat.
Proof.
  unfold add_value_constraint. split.
  - destruct (Qeq_bool weight 0) eqn:Hw; [done|].
    apply Qeq_bool_false in Hw. intros Hrun. split; [done|]. intros Hn.
    destruct (multilerp_returns field pos 0 Hn) as [samples Hs].
    rewrite Hs in Hrun. cbn [mbind option_bind] in Hrun.
    destruct (length samples =? 0)%nat; [done|].
    by destruct (fold_left _ samples _).
  - intros [Hw Hn]. apply Qeq_bool_false in Hw. rewrite Hw.
    rewrite multilerp_spec.
    destruct (Nat.leb_spec 1 (length (sizes field)));
      destruct (Nat.leb_spec (length (sizes field)) MAX_DIM);
      unfold MAX_DIM in *; simpl; try done; lia.
Qed.

(** ** The system only grows *)

Lemma grows_prefix e e' :
  grows e e' →
  triplets e `prefix_of` triplets e' ∧ rhs e `prefix_of` rhs e'.
Proof.
  induction 1 as [|e e' ts x _ [IHt IHr] _ _]; [done|].
  simpl. split; by apply prefix_app_r.
Qed.

(** X17.  Assembly is append-only: whatever the operations of a run (single
    equations, value and gradient constraints, model constraints) and
    whether each one accepts or rejects its input, the lattice is left as it
    was, and the triplets and the right-hand side of the field before the
    run are a prefix of those after it: no row is ever changed or removed. *)
Theorem assembly_append_only ops field field' :
  run_ops ops field = Some field' →
  sizes field' = sizes field
  ∧ strides field' = strides field
  ∧ triplets (eqn field) `prefix_of` triplets (eqn field')
  ∧ rhs (eqn field) `prefix_of` rhs (eqn field').
Proof.
  intros Hrun. apply run_ops_grows in Hrun. destruct Hrun as (Hg & Hs & Ht).
  split; [done|]. split; [done|]. by apply grows_prefix.
Qed.

Lemma assembly_append_only_witness :
  let field :=
    {| eqn := {| triplets := [mkTriplet 0 1 1]; rhs := [3%Q] |};
       sizes := [2; 2]; strides := [1; 2] |} in
  ∃ field',
    run_ops [ op_value [1 # 2; 1 # 2]%Q 1 1;
              op_gradient [5; 5]%Q [1; 0]%Q 1 kNearestNeighbor;
              op_equation 2 1 [mkPair 0 0; mkPair 3 1] ] field = Some field'
    ∧ sizes field' = [2; 2]
    ∧ strides field' = [1; 2]
    ∧ [mkTriplet 0 1 1] `prefix_of` triplets (eqn field')
    ∧ [3%Q] `prefix_of` rhs (eqn field').
Proof.
  intros field. eexists. split; [vm_compute; reflexivity|].
  apply (assembly_append_only
           [ op_value [1 # 2; 1 # 2]%Q 1 1;
             op_gradient [5; 5]%Q [1; 0]%Q 1 kNearestNeighbor;
             op_equation 2 1 [mkPair 0 0; mkPair 3 1] ] field).
  vm_compute. reflexivity.
Defined.

(** ** add_equation, term by term *)

(** X18.  [add_equation] with a nonzero weight writes the terms with a
    nonzero coefficient, in the order given and in the row numbered by the
    length of [rhs], each coefficient scaled by the weight, and skips the
    others one by one; it pushes the scaled right-hand side when it wrote at
    least one triplet. *)
Theorem add_equation_terms e weight rhs_value pairs :
  ¬ (weight == 0)%Q →
  triplets (add_equation e weight rhs_value pairs)
  = triplets e
    ++ map (λ pair,
              mkTriplet (Z.of_nat (length (rhs e))) (column pair)
                (coefficient pair * weight))
         (filter (λ pair, Qnonzero (coefficient pair) = true) pairs)
  ∧ rhs (add_equation e weight rhs_value pairs)
    = rhs e
      ++ match filter (λ pair, Qnonzero (coefficient pair) = true) pairs with
         | [] => []
         | _ => [(rhs_value * weight)%Q]
         end.
Proof.
  intros Hw. rewrite add_equation_spec. apply Qeq_bool_false in Hw. rewrite Hw.
  unfold equation_triplets, rhs_size.
  destruct (filter (λ pair, Qnonzero (coefficient pair) = true) pairs); simpl.
  - by rewrite !app_nil_r.
  - done.
Qed.

Lemma add_equation_terms_witness :
  let e := mkLinearEquation [mkTriplet 0 1 1] [3%Q] in
  triplets (add_equation e 2 5 [mkPair 0 0; mkPair 4 (-1); mkPair 2 0; mkPair 1 1])
  = [mkTriplet 0 1 1; mkTriplet 1 4 (-1 * 2); mkTriplet 1 1 (1 * 2)]
  ∧ rhs (add_equation e 2 5 [mkPair 0 0; mkPair 4 (-1); mkPair 2 0; mkPair 1 1])
    = [3; 5 * 2]%Q.
Proof.
  intros e.
  apply (add_equation_terms e 2 5
           [mkPair 0 0; mkPair 4 (-1); mkPair 2 0; mkPair 1 1]).
  intros H. discriminate H.
Defined.

(** ** The heatmap, cell by cell *)

Lemma Qnonzero_proper (x y : Q) : (x == y)%Q → Qnonzero x = Qnonzero y.
Proof.
  intros Hxy. destruct (Qnonzero y) eqn:Hy.
  - apply Qnonzero_true. apply Qnonzero_true in Hy. by rewrite Hxy.
  - apply Qnonzero_false. apply Qnonzero_false in Hy. by rewrite Hxy.
Qed.

Lemma error_map_blame_cells row_errors sum_sq ts n m heatmap0 :
  triplets_in_range ts n m →
  length row_errors = n → length sum_sq = n → length heatmap0 = m →
  ∃ heatmap,
    foldlM (error_map_blame row_errors sum_sq) ts heatmap0 = Some heatmap
    ∧ ∀ c, 0 ≤ c < Z.of_nat m →
           (vec_at heatmap c
            == vec_at heatmap0 c
               + Qsum (map (blame row_errors sum_sq) (triplets_of_col ts c)))%Q.
Proof.
  intros Hts Hre Hsq. revert heatmap0.
  induction Hts as [|t ts [Hrow Hcol] _ IH]; intros h0 Hh.
  - exists h0. split; [done|]. intros c Hc. unfold triplets_of_col. simpl. ring.
  - cbn [foldlM]. rewrite (error_map_blame_in_range _ _ h0) by lia.
    cbn [mbind option_bind].
    destruct (Qnonzero (vec_at sum_sq (row t))) eqn:Hnz.
    + destruct (IH (<[Z.to_nat (col t) :=
                       (vec_at h0 (col t)
                        + value t * value t / vec_at sum_sq (row t)
                          * vec_at row_errors (row t))%Q]> h0))
        as (h & Hrun & Hcells); [by rewrite length_insert|].
      exists h. split; [done|]. intros c Hc. rewrite (Hcells c Hc).
      rewrite vec_at_insert by lia.
      unfold triplets_of_col. rewrite filter_cons.
      destruct (decide (col t = c)) as [->|Hne]; simpl.
      * unfold blame at 2. rewrite Hnz. ring.
      * reflexivity.
    + destruct (IH h0 Hh) as (h & Hrun & Hcells).
      exists h. split; [done|]. intros c Hc. rewrite (Hcells c Hc).
      unfold triplets_of_col. rewrite filter_cons.
      destruct (decide (col t = c)) as [Heq|Hne]; simpl; [|reflexivity].
      unfold blame at 2. rewrite Hnz. ring.
Qed.

Lemma error_map_cells ts solution rhs :
  triplets_in_range ts (length rhs) (length solution) →
  ∃ heatmap,
    generate_error_map ts solution rhs = Some heatmap
    ∧ ∀ c, 0 ≤ c < Z.of_nat (length solution) →
           (vec_at heatmap c
            == Qsum (map (blame_share ts solution rhs) (triplets_of_col ts c)))%Q.
Proof.
  intros Hts. unfold generate_error_map.
  destruct (error_map_accumulate_loop solution ts (length rhs) rhs
              (replicate (length rhs) 0%Q) Hts)
    as (re & sq & -> & Hlre & Hlsq & Hat); [done|apply length_replicate|].
  cbn [mbind option_bind fst snd].
  destruct (error_map_blame_cells (map (λ error, (error * error)%Q) re) sq ts
              (length rhs) (length solution)
              (replicate (length solution) 0%Q) Hts)
    as (h & -> & Hcells);
    [by rewrite length_map|done|apply length_replicate|].
  exists h. split; [done|]. intros c Hc.
  rewrite (Hcells c Hc), vec_at_replicate, Qplus_0_l.
  apply Qsum_map_ext. intros t Hin.
  unfold triplets_of_col in Hin. apply list_elem_of_filter in Hin.
  destruct Hin as [_ Hin].
  pose proof (proj1 (Forall_forall _ _) (triplets_in_range_rows _ _ _ Hts)
                t Hin) as Hr.
  simpl in Hr. destruct (Hat _ Hr) as [Hre_r Hsq_r].
  rewrite vec_at_replicate, Qplus_0_l in Hsq_r.
  unfold blame, blame_share.
  rewrite (Qnonzero_proper _ _ Hsq_r).
  destruct (Qnonzero (row_energy ts (row t))); [|reflexivity].
  rewrite vec_at_map by lia. rewrite Hre_r, Hsq_r. reflexivity.
Qed.

(** X19.  The heatmap cell by cell: for triplets that index [rhs] and the
    solution inside their bounds, the entry of cell [c] of the vector
    [generate_error_map] returns is the sum, over the triplets [(r, c, v)]
    of column [c] whose row has a nonzero energy [Σ v²], of
    [v² / energy[r]] times the squared residual of row [r]. *)
Theorem error_map_cell_formula ts solution rhs :
  triplets_in_range ts (length rhs) (length solution) →
  ∃ heatmap,
    generate_error_map ts solution rhs = Some heatmap
    ∧ ∀ c, 0 ≤ c < Z.of_nat (length solution) →
           (vec_at heatmap c
            == Qsum (map (blame_share ts solution rhs) (triplets_of_col ts c)))%Q.
Proof. apply error_map_cells. Qed.

Lemma error_map_cell_formula_witness :
  let ts := [mkTriplet 0 0 1; mkTriplet 0 1 1; mkTriplet 1 1 0] in
  ∃ heatmap,
    generate_error_map ts [0; 0]%Q [2; 5]%Q = Some heatmap
    ∧ ∀ c, 0 ≤ c < 2 →
           (vec_at heatmap c
            == Qsum (map (blame_share ts [0; 0]%Q [2; 5]%Q)
                       (triplets_of_col ts c)))%Q.
Proof.
  intros ts.
  apply (error_map_cell_formula ts [0; 0]%Q [2; 5]%Q).
  repeat (constructor; [simpl; lia|]). constructor.
Defined.

Lemma error_map_shape_nonneg_aux ts solution rhs :
  triplets_in_range ts (length rhs) (length solution) →
  ∃ heatmap,
    generate_error_map ts solution rhs = Some heatmap
    ∧ length heatmap = length solution.
Proof.
  intros Hts. unfold generate_error_map.
  destruct (error_map_accumulate_loop solution ts (length rhs) rhs
              (replicate (length rhs) 0%Q) Hts)
    as (re & sq & -> & Hlre & Hlsq & _); [done|apply length_replicate|].
  cbn [mbind option_bind fst snd].
  destruct (error_map_blame_loop (map (λ error, (error * error)%Q) re) sq ts
              (length rhs) (length solution)
              (replicate (length solution) 0%Q) Hts)
    as (h & -> & Hlen & _);
    [by rewrite length_map|done|apply length_replicate|].
  by exists h.
Qed.

(** X20.  An exact solution gets no blame: when the residual of every row
    is zero, every entry of the heatmap is zero. *)
Theorem error_map_exact_solution ts solution rhs :
  triplets_in_range ts (length rhs) (length solution) →
  (∀ r, 0 ≤ r < Z.of_nat (length rhs) →
        (residual ts solution rhs r == 0)%Q) →
  ∃ heatmap,
    generate_error_map ts solution rhs = Some heatmap
    ∧ length heatmap = length solution
    ∧ Forall (λ x, (x == 0)%Q) heatmap.
Proof.
  intros Hts Hres.
  destruct (error_map_cells ts solution rhs Hts) as (h & Hrun & Hcells).
  destruct (error_map_shape_nonneg_aux ts solution rhs Hts) as (h' & Hrun' & Hlen).
  rewrite Hrun in Hrun'. injection Hrun' as <-.
  exists h. split; [done|]. split; [done|].
  apply Forall_vec_at. intros c Hc. rewrite Hlen in Hc. rewrite (Hcells c Hc).
  rewrite (Qsum_map_ext _ (λ _, 0%Q)); [apply Qsum_map_zero|].
  intros t Hin. unfold triplets_of_col in Hin.
  apply list_elem_of_filter in Hin. destruct Hin as [_ Hin].
  pose proof (proj1 (Forall_forall _ _) (triplets_in_range_rows _ _ _ Hts)
                t Hin) as Hr.
  simpl in Hr. unfold blame_share.
  destruct (Qnonzero (row_energy ts (row t))); [|reflexivity].
  rewrite (Hres _ Hr). unfold Qdiv. ring.
Qed.

Lemma error_map_exact_solution_witness :
  ∃ heatmap,
    generate_error_map [mkTriplet 0 0 1; mkTriplet 0 1 1; mkTriplet 1 1 2]
      [1; 3]%Q [4; 6]%Q = Some heatmap
    ∧ length heatmap = 2%nat
    ∧ Forall (λ x, (x == 0)%Q) heatmap.
Proof.
  apply (error_map_exact_solution
           [mkTriplet 0 0 1; mkTriplet 0 1 1; mkTriplet 1 1 2] [1; 3]%Q [4; 6]%Q).
  - repeat (constructor; [simpl; lia|]). constructor.
  - intros r Hr. simpl in Hr.
    assert (r = 0 ∨ r = 1) as [-> | ->] by lia; reflexivity.
Defined.

(** ** Printing a system *)

Lemma group_triplet_in_range row_triplets t l :
  0 ≤ row t → row_triplets !! Z.to_nat (row t) = Some l →
  group_triplet row_triplets t
  = Some (<[Z.to_nat (row t) := l ++ [t]]> row_triplets).
Proof.
  intros H0 Hl. unfold group_triplet.
  destruct (Z.leb_spec 0 (row t)) as [_|]; [|lia]. by rewrite Hl.
Qed.

Lemma group_triplets_loop ts row_triplets0 :
  Forall (λ t, 0 ≤ row t < Z.of_nat (length row_triplets0)) ts →
  ∃ row_triplets,
    foldlM group_triplet ts row_triplets0 = Some row_triplets
    ∧ length row_triplets = length row_triplets0
    ∧ ∀ r, (r < length row_triplets0)%nat →
           nth r row_triplets []
           = nth r row_triplets0 [] ++ triplets_of_row ts (Z.of_nat r).
Proof.
  intros Hts. revert row_triplets0 Hts.
  induction ts as [|t ts IH]; intros rt0 Hts.
  - exists rt0. split; [done|]. split; [done|]. intros r _.
    unfold triplets_of_row. simpl. by rewrite app_nil_r.
  - apply Forall_cons in Hts. destruct Hts as [Ht Hts].
    cbn [foldlM].
    destruct (lookup_lt_is_Some_2 rt0 (Z.to_nat (row t))) as [l Hl]; [lia|].
    rewrite (group_triplet_in_range rt0 t l) by (done || lia).
    cbn [mbind option_bind].
    destruct (IH (<[Z.to_nat (row t) := l ++ [t]]> rt0))
      as (rt & Hrun & Hlen & Hrows).
    { by rewrite length_insert. }
    rewrite length_insert in Hlen, Hrows.
    exists rt. split; [done|]. split; [done|]. intros r Hr.
    rewrite (Hrows r Hr). unfold triplets_of_row. rewrite filter_cons.
    rewrite !(nth_lookup _ _ []).
    destruct (decide (row t = Z.of_nat r)) as [Heq|Hne].
    + replace (Z.to_nat (row t)) with r in * by lia.
      rewrite list_lookup_insert_eq by lia. rewrite Hl. simpl.
      by rewrite <- app_assoc.
    + rewrite list_lookup_insert_ne by lia. done.
Qed.

Lemma print_triplets_loop ts k a os :
  (a + k = length ts)%nat →
  fold_left (print_triplet ts) (seq a k) os = os ++ printed_terms (drop a ts).
Proof.
  revert a os. induction k as [|k IH]; intros a os Hak.
  - rewrite drop_ge by lia. simpl. by rewrite app_nil_r.
  - cbn [seq fold_left]. unfold print_triplet at 2.
    destruct (lookup_lt_is_Some_2 ts a) as [t Ht]; [lia|].
    rewrite Ht, (drop_S ts t a Ht). rewrite IH by lia.
    cbn [printed_terms].
    destruct (Nat.ltb_spec (a + 1) (length ts)) as [Hlt|Hge].
    + destruct (lookup_lt_is_Some_2 ts (S a)) as [t' Ht']; [lia|].
      rewrite (drop_S ts t' (S a) Ht'). rewrite <- !app_assoc. done.
    + rewrite (drop_ge ts (S a)) by lia. simpl. rewrite <- !app_assoc.
      by rewrite app_nil_r.
Qed.

Lemma fold_left_append_flat_map {A B} (step : list B → A → list B)
    (g : A → list B) l os :
  (∀ os a, a ∈ l → step os a = os ++ g a) →
  fold_left step l os = os ++ flat_map g l.
Proof.
  revert os. induction l as [|a l IH]; intros os Hstep; simpl.
  - by rewrite app_nil_r.
  - rewrite IH by (intros os' a' Ha'; apply Hstep; by right).
    rewrite Hstep by left. by rewrite <- app_assoc.
Qed.

(** X21.  Printing groups the triplets by row: for a system whose triplets
    lie in rows below the length of [rhs], [operator<<] puts on the stream,
    after what was there, one line per row in order: the right-hand side of
    the row, [" = "], the terms [v * x c] of the triplets of the row in the
    order they were appended, ["  +  "] between two terms and not after the
    last, and a newline. *)
Theorem print_equation_rows os e :
  rows_in_range e →
  print_equation os e
  = Some (os ++ flat_map (printed_row e) (seq 0 (length (rhs e)))).
Proof.
  intros Hrange. unfold print_equation.
  destruct (group_triplets_loop (triplets e) (replicate (length (rhs e)) []))
    as (rt & -> & Hlen & Hrows).
  { rewrite length_replicate. exact Hrange. }
  cbn [mbind option_bind]. f_equal.
  rewrite length_replicate in Hlen, Hrows.
  apply fold_left_append_flat_map. intros os' r Hr.
  apply list_elem_of_In, in_seq in Hr.
  unfold print_row, printed_row.
  rewrite print_triplets_loop by lia. rewrite drop_0.
  rewrite (Hrows r ltac:(lia)).
  rewrite (nth_lookup (replicate _ _)), lookup_replicate_2 by lia. simpl.
  by rewrite <- !app_assoc.
Qed.

Lemma print_equation_rows_witness :
  let e :=
    {| triplets := [mkTriplet 1 2 5; mkTriplet 0 0 1; mkTriplet 1 0 (-1)];
       rhs := [3; 4]%Q |} in
  print_equation [] e
  = Some [ tok_float 3; tok_equals; tok_float 1; tok_times_x; tok_int 0;
           tok_newline;
           tok_float 4; tok_equals; tok_float 5; tok_times_x; tok_int 2;
           tok_plus; tok_float (-1); tok_times_x; tok_int 0; tok_newline ].
Proof.
  intros e. apply (print_equation_rows [] e).
  repeat (constructor; [vm_compute; split; congruence|]). constructor.
Defined.

(** ** What the return value of a constraint says *)

(** X22.  The return value of [add_value_constraint]: false means the field
    is unchanged, true means exactly one row was appended. *)
Theorem add_value_constraint_result field pos value weight b field' :
  add_value_constraint field pos value weight = Some (b, field') →
  if b then length (rhs (eqn field')) = S (length (rhs (eqn field)))
  else field' = field.
Proof.
  unfold add_value_constraint.
  destruct (Qeq_bool weight 0); [by intros [= <- <-]|].
  destruct (multilerp field pos 0) as [samples|]; [|done].
  cbn [mbind option_bind].
  destruct (length samples =? 0)%nat; [by intros [= <- <-]|].
  pose proof (value_samples_fold (rhs_size (eqn field)) weight samples
                (eqn field) 0%Q) as [Hfst _].
  destruct (fold_left _ samples (eqn field, 0%Q)) as [e weight_sum].
  cbn [fst] in Hfst. subst e. intros [= <- <-].
  simpl. rewrite length_app. simpl. lia.
Qed.

Lemma add_value_constraint_result_witness :
  ∃ field',
    add_value_constraint (new_LatticeField [3]) [1 # 2]%Q 4 1
    = Some (true, field')
    ∧ length (rhs (eqn field')) = 1%nat.
Proof.
  eexists. split; [vm_compute; reflexivity|].
  apply (add_value_constraint_result (new_LatticeField [3]) [1 # 2]%Q 4 1 true).
  vm_compute. reflexivity.
Defined.

(** X23.  The return value of [add_gradient_constraint], under every
    kernel: false means the field is unchanged, true means exactly one row
    per dimension was appended. *)
Theorem add_gradient_constraint_result field pos gradient weight kernel b
    field' :
  add_gradient_constraint field pos gradient weight kernel = Some (b, field') →
  if b
  then length (rhs (eqn field'))
       = (length (rhs (eqn field)) + length (sizes field))%nat
  else field' = field.
Proof.
  unfold add_gradient_constraint.
  destruct (Qeq_bool weight 0) eqn:Hw; [by intros [= <- <-]|].
  apply Qeq_bool_false in Hw.
  destruct kernel.
  - destruct (cell_index field pos <? 0); intros [= <- <-]; [done|].
    rewrite (fold_append_rows _
               (λ r d, [ mkTriplet r (cell_index field pos + 0) (-1 * weight);
                         mkTriplet r (cell_index field pos
                                      + nth d (strides field) 0) (1 * weight) ])
               (λ d, (nth d gradient 0 * weight)%Q))
      by (intros e d; by apply gradient_nearest_spec).
    simpl. by rewrite length_app, length_map, length_seq.
  - destruct (cell_index field pos <? 0); intros [= <- <-]; [done|].
    rewrite (fold_append_rows _
               (λ r d, cell_edges_triplets field (length (sizes field))
                         (cell_index field pos) r
                         (weight * 2
                          / inject_Z (Z.shiftl 1
                                        (Z.of_nat (length (sizes field)))))%Q
                         d (seqZ 0 (Z.shiftl 1 (Z.of_nat (length (sizes field))))))
               (λ d, (weight * nth d gradient 0)%Q))
      by (intros e d; apply gradient_cell_edges_spec).
    simpl. by rewrite length_app, length_map, length_seq.
  - destruct (multilerp field _ 1) as [samples|]; [|done].
    cbn [mbind option_bind].
    destruct (length samples =? 0)%nat; intros [= <- <-]; [done|].
    rewrite (fold_append_rows _
               (λ r d, lerp_triplets field r weight d samples)
               (λ d, (lerp_weight_sum weight samples * nth d gradient 0)%Q))
      by (intros e d; apply gradient_lerp_spec).
    simpl. by rewrite length_app, length_map, length_seq.
Qed.

Lemma add_gradient_constraint_result_witness :
  ∃ field',
    add_gradient_constraint (new_LatticeField [3; 3]) [1; 1 # 2]%Q [1; 0]%Q 1
      kLinearInteprolation = Some (true, field')
    ∧ length (rhs (eqn field')) = 2%nat.
Proof.
  eexists. split; [vm_compute; reflexivity|].
  apply (add_gradient_constraint_result (new_LatticeField [3; 3])
           [1; 1 # 2]%Q [1; 0]%Q 1 kLinearInteprolation true).
  vm_compute. reflexivity.
Defined.

(** ** The model rows come first *)

(** X24.  In the system [sdf_from_points] returns, the rows of the model
    priors come first and do not depend on the points: the triplets and the
    right-hand side that [add_field_constraints] assembles on the new field
    are a prefix of those of the result. *)
Theorem sdf_model_rows_first dims weights num_points positions normals
    point_weights field :
  sdf_from_points dims weights num_points positions normals point_weights
  = Some field →
  triplets (eqn (add_field_constraints (new_LatticeField dims) weights))
    `prefix_of` triplets (eqn field)
  ∧ rhs (eqn (add_field_constraints (new_LatticeField dims) weights))
      `prefix_of` rhs (eqn field).
Proof.
  unfold sdf_from_points. intros Hrun.
  apply foldlM_field_grows in Hrun.
  - destruct Hrun as [Hg _]. by apply grows_prefix.
  - clear. intros f i f'. unfold sdf_point.
    destruct (add_value_constraint f _ 0 _) as [[r f1]|] eqn:E1; [|done].
    cbn [mbind option_bind snd].
    apply add_value_constraint_grows in E1.
    destruct normals as [ns|].
    + destruct (add_gradient_constraint f1 _ _ _ _) as [[r' f2]|] eqn:E2; [|done].
      cbn [mbind option_bind snd]. intros [= <-].
      apply add_gradient_constraint_grows in E2.
      by eapply field_grows_trans.
    + by intros [= <-].
Qed.

Lemma sdf_model_rows_first_witness :
  let weights := mkWeights 1 1 0 1 0 0 0 0 kNearestNeighbor in
  ∃ field,
    sdf_from_points [3] weights 1 [1 # 2]%Q (Some [1%Q]) None = Some field
    ∧ triplets (eqn (add_field_constraints (new_LatticeField [3]) weights))
        `prefix_of` triplets (eqn field)
    ∧ rhs (eqn (add_field_constraints (new_LatticeField [3]) weights))
        `prefix_of` rhs (eqn field).
Proof.
  intros weights. eexists. split; [vm_compute; reflexivity|].
  apply (sdf_model_rows_first [3] weights 1 [1 # 2]%Q (Some [1%Q]) None).
  vm_compute. reflexivity.
Defined.

(** ** multilerp on the closed box *)

Lemma closed_box_floor (x : Q) (size : Z) :
  (0 <= x)%Q → (x <= inject_Z size - 1)%Q →
  0 ≤ Qfloor x ≤ size - 1.
Proof.
  intros H0 H1. split.
  - change 0 with (Qfloor 0). by apply Qfloor_resp_le.
  - pose proof (Qfloor_le x) as Hfl.
    assert (Qfloor x < size); [|lia]. rewrite Zlt_Qlt. lra.
Qed.

(** A corner that is dropped on the closed box has weight zero. *)
Lemma dropped_corner_weight field in_pos n i :
  (∀ d, (d < n)%nat →
        (0 <= nth d in_pos 0)%Q
        ∧ (nth d in_pos 0 <= inject_Z (nth d (sizes field) 0%Z) - 1)%Q) →
  corner_inside field in_pos 0 n i = false →
  (corner_weight field in_pos 0 n i == 0)%Q.
Proof.
  induction n as [|n IH]; intros Hbox Hout; [done|].
  rewrite corner_inside_S in Hout. rewrite corner_weight_S.
  destruct (corner_inside field in_pos 0 n i) eqn:Hin.
  - simpl in Hout. destruct (Hbox n ltac:(lia)) as [H0 H1].
    pose proof (closed_box_floor _ _ H0 H1) as Hfl. fold (floored in_pos n) in Hfl.
    pose proof (Qfloor_le (nth n in_pos 0%Q)) as Hle.
    fold (floored in_pos n) in Hle.
    destruct (corner_bit_range i n) as [Hb|Hb]; rewrite Hb in Hout |- *.
    + exfalso. apply andb_false_iff in Hout.
      destruct Hout as [Hout|Hout];
        [apply Z.leb_gt in Hout|apply Z.ltb_ge in Hout]; lia.
    + simpl. assert (floored in_pos n = nth n (sizes field) 0 - 1) as Heq.
      { apply andb_false_iff in Hout.
        destruct Hout as [Hout|Hout];
          [apply Z.leb_gt in Hout|apply Z.ltb_ge in Hout]; lia. }
      assert (lerp_t in_pos n == 0)%Q as ->; [|ring].
      assert (inject_Z (floored in_pos n)
              == inject_Z (nth n (sizes field) 0%Z) - 1)%Q
        as Hinj.
      { rewrite Heq. unfold Z.sub. rewrite inject_Z_plus, inject_Z_opp.
        change (inject_Z 1) with 1%Q. ring. }
      unfold lerp_t. lra.
  - rewrite IH; [ring| |done]. intros d Hd. apply Hbox. lia.
Qed.

Lemma corner_samples_sum field in_pos extra_bound n l :
  (∀ i, i ∈ l → corner_inside field in_pos extra_bound n i = false →
        (corner_weight field in_pos extra_bound n i == 0)%Q) →
  (sum_weights (corner_samples field in_pos extra_bound n l)
   == Qsum (map (corner_weight field in_pos extra_bound n) l))%Q.
Proof.
  unfold corner_samples, sum_weights.
  induction l as [|i l IH]; intros Hzero; simpl; [reflexivity|].
  specialize (IH ltac:(intros j Hj; apply Hzero; by right)).
  destruct (corner_inside field in_pos extra_bound n i) eqn:Hin; simpl.
  - rewrite IH. reflexivity.
  - rewrite IH, (Hzero i ltac:(left) Hin). ring.
Qed.

(** X25.  Partition of unity up to the far edge: on a lattice of 1 to 4
    dimensions, at a position every coordinate of which lies in the closed
    range [0, sizes[d] - 1], the kernel weights [multilerp] returns with
    [extra_bound = 0] still sum to 1: the corners it drops on the far edge
    carry no weight. *)
Theorem multilerp_closed_box_unity field pos :
  (1 ≤ length (sizes field) ≤ 4)%nat →
  (∀ d, (d < length (sizes field))%nat →
        (0 <= nth d pos 0)%Q
        ∧ (nth d pos 0 <= inject_Z (nth d (sizes field) 0%Z) - 1)%Q) →
  ∃ samples,
    multilerp field pos 0 = Some samples ∧ (sum_weights samples == 1)%Q.
Proof.
  intros [Hlo Hhi] Hbox. rewrite multilerp_spec.
  apply Nat.leb_le in Hlo. apply Nat.leb_le in Hhi.
  unfold MAX_DIM. rewrite Hlo, Hhi. cbn [andb].
  eexists. split; [reflexivity|].
  rewrite corner_samples_sum; [apply corner_weights_sum|].
  intros i _. by apply dropped_corner_weight.
Qed.

(** The far corner of a 3 by 3 lattice: one sample, of weight 1. *)
Lemma multilerp_closed_box_unity_witness :
  ∃ samples,
    multilerp (new_LatticeField [3; 3]) [2; 2]%Q 0 = Some samples
    ∧ length samples = 1%nat
    ∧ (sum_weights samples == 1)%Q.
Proof.
  destruct (multilerp_closed_box_unity (new_LatticeField [3; 3]) [2; 2]%Q)
    as (samples & Hrun & Hsum).
  - simpl. lia.
  - intros [|[|d]] Hd; simpl in *; [split; vm_compute; congruence..|lia].
  - exists samples. split; [exact Hrun|]. split; [|exact Hsum].
    vm_compute in Hrun. injection Hrun as <-. reflexivity.
Defined.
